(** * codemcp: the gopls JSON-RPC client, the local analyzer, the hybrid
    search orchestrator and the file tools

    A shallow embedding of [gopls.go] (the protocol client: [Call], [Notify],
    [write], [handleMessage], [ReadLoop], [InitGopls], [SymbolSearch]) and of
    [main.go] ([Search], [LocalSearch], [CollectFiles], [ScoreFile],
    [Tokenize], [AnalyzeGoFile], [initSecurity], [isAllowedPath] and the
    handler of the tool [read_file]), followed by the properties proved about
    them.

    Conventions of the embedding:
    - Go's [int64]/[int] are [Z]; where the code can overflow the wrap-around
      is written out ([wrap64]).
    - Go strings are [string] (byte strings); [[]byte] is [list ascii].
    - [map[int64]chan json.RawMessage] is a [gmap Z chan]; a channel is named
      by the index [make] gave it and its one-slot buffer lives in the store
      [chans] of the client.
    - Functions of the Go standard library that the code calls and that are
      not byte-level trivial ([strings.ToLower], [strings.EqualFold],
      [runtime.GOROOT], [path/filepath], [sort.Slice],
      [textproto.ReadMIMEHeader]) are fields of the classes [GoLib] and
      [GoPath]; the instances for ASCII strings and Unix paths ([go_unix],
      [path_unix]) are used wherever a concrete run is evaluated or a
      property depends on the bytes of a path. [strings.TrimSpace] and
      [strings.Fields] are written out for ASCII input, and what they do
      when they meet another byte is a field of the class [GoUnicode].
    - The environment of a call (does the write fail, which bodies does the
      dispatcher handle before the deadline), of the local analyzer (what
      git prints, what a file parses to) and of the file tools (the working
      directory, the files) is an explicit argument. *)

From Stdlib Require Import ZArith Lia String Ascii List Bool Sorting.Permutation.
From stdpp Require Import base tactics option list gmap strings sorting.

Import ListNotations.
Local Open Scope string_scope.

(* ===================================================================== *)
(** * Part I. Definitions                                                  *)
(* ===================================================================== *)

(** ** Go integers *)

(** Two's-complement wrap-around of an [int64] result. *)
Definition wrap64 (x : Z) : Z := ((x + 2 ^ 63) mod 2 ^ 64 - 2 ^ 63)%Z.

Definition MaxInt64 : Z := (2 ^ 63 - 1)%Z.
Definition MinInt64 : Z := (- 2 ^ 63)%Z.

(** [atomic.AddInt64(&v, delta)]: the new value, wrapped. *)
Definition atomic_AddInt64 (v delta : Z) : Z := wrap64 (v + delta).

(** ** Byte-level functions of package [strings] *)

(** [strings.HasPrefix(s, prefix)]. *)
Fixpoint strings_HasPrefix (s prefix : string) {struct prefix} : bool :=
  match prefix with
  | EmptyString => true
  | String p prefix' =>
      match s with
      | EmptyString => false
      | String c s' => if Ascii.eqb c p then strings_HasPrefix s' prefix' else false
      end
  end.

(** [strings.Contains(s, substr)]: [substr] occurs at some offset of [s]. *)
Fixpoint strings_Contains (s substr : string) : bool :=
  strings_HasPrefix s substr ||
  match s with
  | EmptyString => false
  | String _ s' => strings_Contains s' substr
  end.

(** [s[n:]] for [n <= len(s)]. *)
Fixpoint string_drop (n : nat) (s : string) : string :=
  match n, s with
  | O, _ => s
  | S n', String _ s' => string_drop n' s'
  | S _, EmptyString => EmptyString
  end.

(** [strings.HasSuffix(s, suffix)]:
    [len(s) >= len(suffix) && s[len(s)-len(suffix):] == suffix]. *)
Definition strings_HasSuffix (s suffix : string) : bool :=
  (String.length suffix <=? String.length s)%nat &&
  String.eqb (string_drop (String.length s - String.length suffix) s) suffix.

(** [strings.TrimPrefix(s, prefix)]. *)
Definition strings_TrimPrefix (s prefix : string) : string :=
  if strings_HasPrefix s prefix then string_drop (String.length prefix) s else s.

(** ** The records of main.go and gopls.go *)

(** [type FileScore struct] (main.go). *)
Record FileScore : Type := mkFileScore {
  Path : string;
  Score : Z;
  Reasons : list string;
  IsDep : bool;
}.

(** One element of the anonymous struct slice [symbols] of [SymbolSearch]. *)
Record Symbol : Type := mkSymbol {
  Name : string;
  Kind : Z;
  ContainerName : string;
  Location_URI : string;
}.

(** ** JSON values and the messages of gopls.go *)

(** The parameter objects the client builds ([map[string]any] literals). *)
#[local] Unset Elimination Schemes.
Inductive JSON : Type :=
| JInt (n : Z)
| JString (s : string)
| JObject (fields : list (string * JSON)).
#[local] Set Elimination Schemes.

(** [json.RawMessage]: the nil slice, or bytes; a non-nil payload is given
    by what [json.Unmarshal(res, &symbols)] makes of it in [SymbolSearch]. *)
Inductive RawMessage : Type :=
| RawNil                              (* nil: the response had no result *)
| RawSymbols (symbols : list Symbol)  (* decodes as an array of symbols *)
| RawOther (bytes : list ascii).      (* any other payload: decoding fails *)

(** Go's [error], by its message. *)
Definition error : Type := string.

(** [type JsonRpcReq struct]. *)
Record JsonRpcReq : Type := mkReq {
  req_JSONRPC : string;
  req_ID : Z;
  req_Method : string;
  req_Params : JSON;
}.

(** [type JsonRpcNotification struct] (no identifier). *)
Record JsonRpcNotification : Type := mkNotification {
  ntf_JSONRPC : string;
  ntf_Method : string;
  ntf_Params : JSON;
}.

(** What [write] is given. *)
Inductive Message : Type :=
| MsgRequest (r : JsonRpcReq)
| MsgNotification (n : JsonRpcNotification).

(** [type JsonRpcResp struct]: the two fields the code consults. A body
    without an ["id"] member decodes with [resp_ID = 0]. *)
Record JsonRpcResp : Type := mkResp {
  resp_ID : Z;
  resp_Result : RawMessage;
}.

(** A body handed to [handleMessage], by what [json.Unmarshal(body, &resp)]
    makes of it: [None] when it returns an error. *)
Definition Body : Type := option JsonRpcResp.

(** ** The client: [type GoplsClient struct] *)

(** A channel [chan json.RawMessage] of capacity one, named by allocation. *)
Definition chan : Type := nat.

Record GoplsClient : Type := mkClient {
  seq : Z;                        (* atomic sequence counter *)
  pending : gmap Z chan;          (* in-flight requests *)
  stdin : list Message;           (* the frames written so far, oldest first *)
  chans : gmap chan RawMessage;   (* values sent and not yet received *)
  next_chan : chan;               (* the next [make(chan ..., 1)] *)
}.

Definition set_seq (v : Z) (c : GoplsClient) : GoplsClient :=
  mkClient v (pending c) (stdin c) (chans c) (next_chan c).
Definition set_pending (p : gmap Z chan) (c : GoplsClient) : GoplsClient :=
  mkClient (seq c) p (stdin c) (chans c) (next_chan c).
Definition set_stdin (w : list Message) (c : GoplsClient) : GoplsClient :=
  mkClient (seq c) (pending c) w (chans c) (next_chan c).
Definition set_chans (h : gmap chan RawMessage) (c : GoplsClient) : GoplsClient :=
  mkClient (seq c) (pending c) (stdin c) h (next_chan c).
Definition set_next_chan (n : chan) (c : GoplsClient) : GoplsClient :=
  mkClient (seq c) (pending c) (stdin c) (chans c) n.

(** The client [InitGopls] builds: [&GoplsClient{cmd, stdin, pending: make(...)}],
    the counter at its zero value. *)
Definition NewClient : GoplsClient := mkClient 0 ∅ [] ∅ 0.

(** [time.Duration]: nanoseconds. *)
Definition Duration : Type := Z.
Definition Second : Duration := 1000000000%Z.

(** The deadline of [Call]: [time.After(5 * time.Second)]. *)
Definition callTimeout : Duration := (5 * Second)%Z.

Definition errTimeout : error := "timeout waiting for gopls response".

(** [write]: one frame (header and body) goes to the subprocess, or the
    write fails with [err] and the frame is not delivered. [wr] is what
    [c.stdin.Write] answers. *)
Definition write (c : GoplsClient) (msg : Message) (wr : option error)
  : GoplsClient * option error :=
  match wr with
  | Some err => (c, Some err)
  | None => (set_stdin (stdin c ++ [msg]) c, None)
  end.

(** [Notify]: fire and forget. *)
Definition Notify (c : GoplsClient) (method : string) (params : JSON)
    (wr : option error) : GoplsClient * option error :=
  write c (MsgNotification (mkNotification "2.0" method params)) wr.

(** [handleMessage]: deliver a response to the caller waiting for its id. *)
Definition handleMessage (c : GoplsClient) (body : Body) : GoplsClient :=
  match body with
  | Some resp =>
      if (resp_ID resp =? 0)%Z then c
      else
        match pending c !! resp_ID resp with
        | Some ch =>
            (* delete(c.pending, resp.ID); ch <- resp.Result *)
            set_chans (<[ch := resp_Result resp]> (chans c))
              (set_pending (delete (resp_ID resp) (pending c)) c)
        | None => c
        end
  | None => c
  end.

(** A body the dispatcher handles, with the time since the request was
    written at which it does. *)
Record Arrival : Type := mkArrival {
  arr_at : Duration;
  arr_body : Body;
}.

(** The bodies handled before the deadline of a call. *)
Definition before_deadline (arrivals : list Arrival) : list Body :=
  arr_body <$> filter (λ a, (arr_at a < callTimeout)%Z) arrivals.

(** The identifier the next [Call] takes: [atomic.AddInt64(&c.seq, 1)]. *)
Definition nextID (c : GoplsClient) : Z := atomic_AddInt64 (seq c) 1.

(** What [Call] returns, and the client afterwards. *)
Record CallReturn : Type := mkCallReturn {
  ret_res : RawMessage;
  ret_err : option error;
  ret_client : GoplsClient;
}.

(** [Call]: allocate an id, register a channel, write the request, then
    [select] between the channel and the five-second timer. *)
Definition Call (c : GoplsClient) (method : string) (params : JSON)
    (wr : option error) (arrivals : list Arrival) : CallReturn :=
  let id := nextID c in
  let ch := next_chan c in
  let c1 := set_pending (<[id := ch]> (pending c))
              (set_next_chan (S ch) (set_seq id c)) in
  match write c1 (MsgRequest (mkReq "2.0" id method params)) wr with
  | (c2, Some err) =>
      mkCallReturn RawNil (Some err) (set_pending (delete id (pending c2)) c2)
  | (c2, None) =>
      let c3 := foldl handleMessage c2 (before_deadline arrivals) in
      match chans c3 !! ch with
      | Some res =>                                   (* case res := <-ch *)
          mkCallReturn res None (set_chans (delete ch (chans c3)) c3)
      | None =>                                       (* case <-time.After(...) *)
          mkCallReturn RawNil (Some errTimeout)
            (set_pending (delete id (pending c3)) c3)
      end
  end.

(** ** Sequences of calls *)

(** The arguments of one [Call] and what the environment answers to it. *)
Record CallArgs : Type := mkCallArgs {
  ca_method : string;
  ca_params : JSON;
  ca_write : option error;
  ca_arrivals : list Arrival;
}.

Definition Call_with (c : GoplsClient) (a : CallArgs) : CallReturn :=
  Call c (ca_method a) (ca_params a) (ca_write a) (ca_arrivals a).

(** The identifiers assigned by a sequence of calls, in order: the
    identifier of a call is the value of the counter when it returns. *)
Fixpoint assigned_ids (c : GoplsClient) (calls : list CallArgs) : list Z :=
  match calls with
  | [] => []
  | a :: calls' =>
      let c' := ret_client (Call_with c a) in
      seq c' :: assigned_ids c' calls'
  end.

(** ** [InitGopls]: start-up and handshake *)

(** What the environment answers during [InitGopls]. *)
Record InitEnv : Type := mkInitEnv {
  env_LookPath : option error;        (* exec.LookPath("gopls") *)
  env_Start : option error;           (* cmd.Start() *)
  env_Getpid : Z;                     (* os.Getpid() *)
  env_init_write : option error;      (* the write of the initialize request *)
  env_init_arrivals : list Arrival;   (* bodies dispatched while it waits *)
  env_notify_write : option error;    (* the write of the notification *)
}.

(** The parameters of the [initialize] request. *)
Definition initParams (pid : Z) (rootPath : string) : JSON :=
  JObject [("processId", JInt pid);
           ("rootUri", JString ("file://" ++ rootPath));
           ("capabilities", JObject [])].

(** The outcome of [InitGopls]: the global [GoplsInstance] ([None] for nil)
    and everything written to the subprocess. *)
Record InitResult : Type := mkInitResult {
  GoplsInstance : option GoplsClient;
  init_wire : list Message;
}.

Definition InitGopls (env : InitEnv) (rootPath : string) : InitResult :=
  match env_LookPath env with
  | Some _ => mkInitResult None []
  | None =>
      match env_Start env with
      | Some _ => mkInitResult None []
      | None =>
          let client := NewClient in
          let r := Call client "initialize" (initParams (env_Getpid env) rootPath)
                     (env_init_write env) (env_init_arrivals env) in
          match ret_err r with
          | Some _ => mkInitResult None (stdin (ret_client r))
          | None =>
              let '(client', _) :=
                Notify (ret_client r) "initialized" (JObject []) (env_notify_write env) in
              match ret_res r with
              | RawNil => mkInitResult None (stdin client')
              | _ => mkInitResult (Some client') (stdin client')
              end
          end
      end
  end.

(** ** [strconv.Atoi], [textproto.MIMEHeader], [io.ReadFull], [make] *)

Definition is_digit (c : ascii) : bool :=
  let n := nat_of_ascii c in (48 <=? n)%nat && (n <=? 57)%nat.

Definition digit_val (c : ascii) : Z := Z.of_nat (nat_of_ascii c - 48).

Definition errSyntax : error := "invalid syntax".
Definition errRange : error := "value out of range".

Definition MaxUint64 : Z := (2 ^ 64 - 1)%Z.

(** The digit loop of [strconv.ParseUint(s, 10, 64)] with [n] accumulated. *)
Fixpoint ParseUint_loop (s : string) (n : Z) : Z * option error :=
  match s with
  | EmptyString => (n, None)
  | String c s' =>
      if negb (is_digit c) then (0%Z, Some errSyntax)
      else if (MaxUint64 / 10 + 1 <=? n)%Z then (MaxUint64, Some errRange)
      else
        let n1 := (n * 10 + digit_val c)%Z in
        if (MaxUint64 <? n1)%Z then (MaxUint64, Some errRange)
        else ParseUint_loop s' n1
  end.

Definition ParseUint (s : string) : Z * option error :=
  match s with
  | EmptyString => (0%Z, Some errSyntax)
  | _ => ParseUint_loop s 0
  end.

(** [strconv.ParseInt(s, 10, 0)] on a 64-bit platform. *)
Definition ParseInt (s : string) : Z * option error :=
  match s with
  | EmptyString => (0%Z, Some errSyntax)
  | String c s' =>
      let neg := Ascii.eqb c "-" in
      let s := if Ascii.eqb c "+" || neg then s' else s in
      let '(un, err) := ParseUint s in
      if match err with Some e => negb (String.eqb e errRange) | None => false end
      then (0%Z, err)
      else if negb neg && (2 ^ 63 <=? un)%Z then (MaxInt64, Some errRange)
      else if neg && (2 ^ 63 <? un)%Z then (MinInt64, Some errRange)
      else ((if neg then - un else un)%Z, None)
  end.

(** The fast path of [strconv.Atoi]: a sign and digits, fewer than 19 bytes. *)
Fixpoint Atoi_digits (s : string) (n : Z) : option Z :=
  match s with
  | EmptyString => Some n
  | String c s' =>
      if is_digit c then Atoi_digits s' (n * 10 + digit_val c)%Z else None
  end.

(** [strconv.Atoi(s)]: the value and the error. *)
Definition strconv_Atoi (s : string) : Z * option error :=
  let sLen := String.length s in
  if (0 <? sLen)%nat && (sLen <? 19)%nat then
    match s with
    | EmptyString => (0%Z, Some errSyntax)
    | String c s' =>
        let signed := Ascii.eqb c "-" || Ascii.eqb c "+" in
        let digits := if signed then s' else s in
        if signed && (String.length digits <? 1)%nat then (0%Z, Some errSyntax)
        else
          match Atoi_digits digits 0 with
          | None => (0%Z, Some errSyntax)
          | Some n => ((if Ascii.eqb c "-" then - n else n)%Z, None)
          end
    end
  else ParseInt s.

(** [textproto.MIMEHeader]: the header lines read, keys in canonical form,
    in the order of the block. *)
Definition MIMEHeader : Type := list (string * string).

(** [h.Get(key)] for a canonical [key]: the first value, or the empty string. *)
Fixpoint MIMEHeader_Get (h : MIMEHeader) (key : string) : string :=
  match h with
  | [] => ""
  | (k, v) :: h' => if String.eqb k key then v else MIMEHeader_Get h' key
  end.

(** [io.ReadFull(reader, body)] for [len(body) = n] on the bytes left before
    the stream closes: the body and the rest, or [None] for its error. *)
Definition io_ReadFull (r : list ascii) (n : nat) : option (list ascii * list ascii) :=
  if (n <=? length r)%nat then Some (take n r, drop n r) else None.

(** The largest allocation of the runtime on 64-bit Linux ([maxAlloc]). *)
Definition maxAlloc : Z := (2 ^ 48)%Z.

(** [make([]byte, n)] panics ("makeslice: len out of range"). *)
Definition makeslice_panics (n : Z) : bool := (n <? 0)%Z || (maxAlloc <? n)%Z.

(** ** The Go standard library the code calls *)

Class GoLib : Type := {
  strings_ToLower : string → string;
  strings_EqualFold : string → string → bool;
  runtime_GOROOT : string;
  filepath_IsAbs : string → bool;
  filepath_Join : string → string → string;
  (* [filepath.Rel(base, targ)]: the path and the error *)
  filepath_Rel : string → string → string * option error;
  (* [sort.Slice(x, less)], [less] read on the elements it compares *)
  sort_Slice : ∀ A : Type, (A → A → bool) → list A → list A;
  (* [tp.ReadMIMEHeader()] on the bytes left: the header block and the bytes
     after it, or [None] for its error *)
  textproto_ReadMIMEHeader : list ascii → option (MIMEHeader * list ascii);
}.
Arguments sort_Slice {_ _} less x.

(** ** [SymbolSearch] (gopls.go) *)

Section SymbolSearch.
Context `{GoLib}.
Local Open Scope Z_scope.

(** The body of the loop [for _, s := range symbols]: [results] after this
    symbol ([continue] leaves it as it was). *)
Definition SymbolSearch_body (query queryLower goRoot : string)
    (results : list FileScore) (s : Symbol) : list FileScore :=
  let nameLower := strings_ToLower (Name s) in
  if negb (strings_Contains nameLower queryLower) then results
  else
    let pathStr := strings_TrimPrefix (Location_URI s) "file://" in
    if strings_HasPrefix pathStr goRoot
       || strings_Contains pathStr "/vendor/"
       || strings_Contains pathStr "/.cache/"
    then results
    else
      let isDep := strings_Contains pathStr "/pkg/mod/" in
      let score := 50 in
      let score :=
        if strings_EqualFold (Name s) query then score + 50
        else if strings_HasPrefix nameLower queryLower then score + 20
        else score in
      let score :=
        if (Kind s =? 5) || (Kind s =? 11) || (Kind s =? 12)
        then score + 10 else score in
      let score := if isDep then score - 25 else score in
      let score :=
        if isDep && strings_HasSuffix pathStr "_test.go"
        then score - 50 else score in
      if score <=? 0 then results
      else results ++ [mkFileScore pathStr score ["gopls:" ++ Name s] isDep].

(** The loop over the decoded symbols. *)
Definition SymbolSearch_loop (query : string) (symbols : list Symbol)
  : list FileScore :=
  foldl (SymbolSearch_body query (strings_ToLower query) runtime_GOROOT)
    [] symbols.

Definition errUnmarshal : error := "json: cannot unmarshal".

(** [SymbolSearch]: one [Call] of [workspace/symbol], then decode, filter
    and score. Returns the records, the error and the client afterwards. *)
Definition SymbolSearch (c : GoplsClient) (query : string)
    (wr : option error) (arrivals : list Arrival)
  : list FileScore * option error * GoplsClient :=
  let r := Call c "workspace/symbol" (JObject [("query", JString query)])
             wr arrivals in
  match ret_err r with
  | Some err => ([], Some err, ret_client r)
  | None =>
      match ret_res r with
      | RawSymbols symbols =>
          (SymbolSearch_loop query symbols, None, ret_client r)
      | _ => ([], Some errUnmarshal, ret_client r)
      end
  end.

End SymbolSearch.

(** ** [Search] (main.go) *)

(** The two goroutines of [Search] each take the mutex once; the order in
    which they do is the scheduler's. *)
Inductive Schedule : Type :=
| LocalFirst     (* the local branch appends before the gopls branch merges *)
| RemoteFirst.   (* the gopls branch merges before the local branch appends *)

(** What the environment answers during one [Search]. *)
Record SearchEnv : Type := mkSearchEnv {
  env_local : list FileScore;          (* what [LocalSearch] returns *)
  env_gopls : option GoplsClient;      (* the global [GoplsInstance] *)
  env_write : option error;            (* the write of the symbol request *)
  env_arrivals : list Arrival;         (* bodies dispatched while it waits *)
  env_schedule : Schedule;
}.

Section Search.
Context `{GoLib}.
Local Open Scope Z_scope.

(** The inner loop [for _, existing := range results]: is [gr] a duplicate? *)
Definition isDup (absRoot : string) (results : list FileScore)
    (gr : FileScore) : bool :=
  existsb
    (λ existing,
       let existingAbs :=
         if negb (filepath_IsAbs (Path existing))
         then filepath_Join absRoot (Path existing)
         else Path existing in
       String.eqb existingAbs (Path gr))
    results.

(** The body of the loop [for _, gr := range goplsRes]. *)
Definition merge_body (absRoot : string) (results : list FileScore)
    (gr : FileScore) : list FileScore :=
  if isDup absRoot results gr then results
  else
    let gr :=
      if strings_HasPrefix (Path gr) absRoot
      then mkFileScore (fst (filepath_Rel absRoot (Path gr)))
             (Score gr) (Reasons gr) false
      else gr in
    results ++ [gr].

(** The critical section of the gopls goroutine. *)
Definition merge_gopls (absRoot : string) (results goplsRes : list FileScore)
  : list FileScore :=
  foldl (merge_body absRoot) results goplsRes.

(** What the gopls goroutine has to merge: [None] when it is not started
    ([GoplsInstance == nil]) or when [SymbolSearch] returns an error. *)
Definition gopls_branch (query : string) (env : SearchEnv)
  : option (list FileScore) :=
  match env_gopls env with
  | None => None
  | Some c =>
      match SymbolSearch c query (env_write env) (env_arrivals env) with
      | (goplsRes, None, _) => Some goplsRes
      | (_, Some _, _) => None
      end
  end.

(** [results] at [wg.Wait()]: the merged collection. The local goroutine
    runs [results = append(results, localRes...)], the gopls goroutine the
    merge loop, each under the mutex, in the order of the schedule. *)
Definition merged (absRoot query : string) (env : SearchEnv) : list FileScore :=
  match gopls_branch query env with
  | None => [] ++ env_local env
  | Some goplsRes =>
      match env_schedule env with
      | LocalFirst => merge_gopls absRoot ([] ++ env_local env) goplsRes
      | RemoteFirst => merge_gopls absRoot [] goplsRes ++ env_local env
      end
  end.

(** The comparison given to [sort.Slice]. *)
Definition byScore (a b : FileScore) : bool := Score b <? Score a.

(** [Search]: the records and the error it returns. *)
Definition Search (absRoot query : string) (env : SearchEnv)
  : list FileScore * option error :=
  let results := merged absRoot query env in
  let results := sort_Slice byScore results in
  let results :=
    if (50 <? Z.of_nat (length results)) then take 50 results else results in
  (results, None).

End Search.

(** ** [ReadLoop] (gopls.go) *)

(** How the loop ends. *)
Inductive LoopExit : Type :=
| HeaderReadFailed            (* [tp.ReadMIMEHeader] returned an error *)
| BodyReadFailed              (* [io.ReadFull] returned an error *)
| MakeslicePanic (n : Z).     (* [make([]byte, n)] panicked *)

Section ReadLoop.
Context `{GoLib}.

(** [ReadLoop] on the bytes [r] the subprocess writes before its output
    closes: the bodies handed to [handleMessage], in order, and how the loop
    ends. [None] when [fuel] iterations do not reach the end. *)
Fixpoint ReadLoop_fuel (fuel : nat) (r : list ascii)
  : option (list (list ascii) * LoopExit) :=
  match fuel with
  | O => None
  | S fuel' =>
      match textproto_ReadMIMEHeader r with
      | None => Some ([], HeaderReadFailed)
      | Some (headers, r) =>
          let lengthStr := MIMEHeader_Get headers "Content-Length" in
          let length := fst (strconv_Atoi lengthStr) in
          if (length =? 0)%Z then ReadLoop_fuel fuel' r
          else if makeslice_panics length then Some ([], MakeslicePanic length)
          else
            match io_ReadFull r (Z.to_nat length) with
            | None => Some ([], BodyReadFailed)
            | Some (body, r) =>
                match ReadLoop_fuel fuel' r with
                | Some (bodies, e) => Some (body :: bodies, e)
                | None => None
                end
            end
      end
  end.

(** A header block takes at least its blank line, so one iteration per byte
    and one more reach the end of the stream. *)
Definition ReadLoop (r : list ascii) : option (list (list ascii) * LoopExit) :=
  ReadLoop_fuel (S (length r)) r.

End ReadLoop.

(** ** A model of the library for ASCII strings and Unix paths *)

(** *** [strings.ToLower] and [strings.EqualFold] on ASCII strings *)

Definition ascii_lower (c : ascii) : ascii :=
  let n := nat_of_ascii c in
  if (65 <=? n)%nat && (n <=? 90)%nat then ascii_of_nat (n + 32) else c.

Fixpoint ascii_ToLower (s : string) : string :=
  match s with
  | EmptyString => EmptyString
  | String c s' => String (ascii_lower c) (ascii_ToLower s')
  end.

Definition ascii_EqualFold (s t : string) : bool :=
  String.eqb (ascii_ToLower s) (ascii_ToLower t).

(** *** [path/filepath] on Unix, element by element *)

(** The elements of a path between separators, empty ones included. *)
Fixpoint split_slash_aux (cur : string) (s : string) : list string :=
  match s with
  | EmptyString => [cur]
  | String c s' =>
      if Ascii.eqb c "/" then cur :: split_slash_aux "" s'
      else split_slash_aux (cur ++ String c "") s'
  end.
Definition split_slash (s : string) : list string := split_slash_aux "" s.

Fixpoint join_slash (l : list string) : string :=
  match l with
  | [] => ""
  | [e] => e
  | e :: l' => e ++ "/" ++ join_slash l'
  end.

Definition unix_IsAbs (p : string) : bool := strings_HasPrefix p "/".

(** One element of [Clean]'s scan, [out] being the elements kept so far,
    last first: empty and [.] elements are skipped, [..] removes the last
    kept element when there is one to remove and is kept itself only in a
    path that is not rooted. *)
Definition clean_step (rooted : bool) (out : list string) (e : string)
  : list string :=
  if String.eqb e "" || String.eqb e "." then out
  else if String.eqb e ".." then
    match out with
    | top :: out' =>
        if String.eqb top ".." then e :: out else out'
    | [] => if rooted then out else [e]
    end
  else e :: out.

(** [filepath.Clean]. *)
Definition unix_Clean (p : string) : string :=
  if String.eqb p "" then "."
  else
    let rooted := unix_IsAbs p in
    let out := rev (foldl (clean_step rooted) [] (split_slash p)) in
    if rooted then "/" ++ join_slash out
    else if decide (out = []) then "." else join_slash out.

(** [filepath.Join(a, b)]: the first non-empty element on, joined and
    cleaned. *)
Definition unix_Join (a b : string) : string :=
  if negb (String.eqb a "") then unix_Clean (a ++ "/" ++ b)
  else if negb (String.eqb b "") then unix_Clean b
  else "".

(** The longest common prefix of two element lists, removed from both. *)
Fixpoint strip_common (b t : list string) : list string * list string :=
  match b, t with
  | x :: b', y :: t' => if String.eqb x y then strip_common b' t' else (b, t)
  | _, _ => (b, t)
  end.

Definition nonempty_elems (p : string) : list string :=
  filter (λ e, e ≠ "") (split_slash p).

Definition errRel : error := "Rel: can't make path relative".

(** [filepath.Rel(basepath, targpath)]. *)
Definition unix_Rel (basepath targpath : string) : string * option error :=
  let base := unix_Clean basepath in
  let targ := unix_Clean targpath in
  if String.eqb targ base then (".", None)
  else
    let base := if String.eqb base "." then "" else base in
    if negb (Bool.eqb (unix_IsAbs base) (unix_IsAbs targ)) then ("", Some errRel)
    else
      let '(b, t) := strip_common (nonempty_elems base) (nonempty_elems targ) in
      match b with
      | [] => (join_slash t, None)
      | e :: _ =>
          if String.eqb e ".." then ("", Some errRel)
          else (join_slash (replicate (length b) ".." ++ t), None)
      end.

(** *** [sort.Slice]: the pattern-defeating quicksort of package [sort]

    [data] is the slice, [Less data i j] is [less(i, j)] read on the current
    elements, [Swap data i j] exchanges two of them. Loops carry a fuel that
    bounds their iterations by the length of the range. *)

Section Pdqsort.
Context {A : Type} (less : A → A → bool).

Definition Less (data : list A) (i j : nat) : bool :=
  match data !! i, data !! j with
  | Some x, Some y => less x y
  | _, _ => false
  end.

Definition Swap (data : list A) (i j : nat) : list A :=
  match data !! i, data !! j with
  | Some x, Some y => <[j := x]> (<[i := y]> data)
  | _, _ => data
  end.

(** [for j := i; j > a && less(j, j-1); j-- { swap(j, j-1) }] *)
Fixpoint insertionSort_inner (a j : nat) (data : list A) : list A :=
  match j with
  | O => data
  | S j' =>
      if (a <? j)%nat && Less data j j'
      then insertionSort_inner a j' (Swap data j j')
      else data
  end.

(** [insertionSort_func(data, a, b)]. *)
Definition insertionSort (data : list A) (a b : nat) : list A :=
  foldl (λ d i, insertionSort_inner a i d) data (List.seq (a + 1) (b - (a + 1))).

(** [siftDown_func(data, lo, hi, first)]. *)
Fixpoint siftDown (fuel : nat) (data : list A) (root hi first : nat) : list A :=
  match fuel with
  | O => data
  | S fuel' =>
      let child := (2 * root + 1)%nat in
      if (hi <=? child)%nat then data
      else
        let child :=
          if (child + 1 <? hi)%nat && Less data (first + child) (first + child + 1)
          then (child + 1)%nat else child in
        if negb (Less data (first + root) (first + child)) then data
        else siftDown fuel' (Swap data (first + root) (first + child)) child hi first
  end.

(** [heapSort_func(data, a, b)]. *)
Definition heapSort (data : list A) (a b : nat) : list A :=
  let first := a in
  let hi := (b - a)%nat in
  let data :=
    foldl (λ d i, siftDown hi d i hi first) data
      (rev (List.seq 0 ((hi - 1) / 2 + 1))) in
  foldl (λ d i, siftDown hi (Swap d first (first + i)) 0 i first) data
    (rev (List.seq 0 hi)).

(** [reverseRange_func(data, a, b)]. *)
Fixpoint reverseRange_loop (fuel : nat) (data : list A) (i j : nat) : list A :=
  match fuel with
  | O => data
  | S fuel' =>
      if (i <? j)%nat
      then reverseRange_loop fuel' (Swap data i j) (i + 1) (j - 1)
      else data
  end.
Definition reverseRange (data : list A) (a b : nat) : list A :=
  reverseRange_loop (b - a) data a (b - 1).

(** [order2_func]: the two indices in order, and the swap count. *)
Definition order2 (data : list A) (a b swaps : nat) : nat * nat * nat :=
  if Less data b a then (b, a, S swaps) else (a, b, swaps).

(** [median_func]: the index of the median of three, and the swap count. *)
Definition median (data : list A) (a b c swaps : nat) : nat * nat :=
  let '(a, b, swaps) := order2 data a b swaps in
  let '(b, c, swaps) := order2 data b c swaps in
  let '(a, b, swaps) := order2 data a b swaps in
  (b, swaps).

Definition medianAdjacent (data : list A) (a swaps : nat) : nat * nat :=
  median data (a - 1) a (a + 1) swaps.

Inductive sortedHint : Type := unknownHint | increasingHint | decreasingHint.

(** [choosePivot_func(data, a, b)]. *)
Definition choosePivot (data : list A) (a b : nat) : nat * sortedHint :=
  let l := (b - a)%nat in
  let i := (a + l / 4 * 1)%nat in
  let j := (a + l / 4 * 2)%nat in
  let k := (a + l / 4 * 3)%nat in
  let '(j, swaps) :=
    if (8 <=? l)%nat then
      let '(i, j, k, swaps) :=
        if (50 <=? l)%nat then
          let '(i, swaps) := medianAdjacent data i 0 in
          let '(j, swaps) := medianAdjacent data j swaps in
          let '(k, swaps) := medianAdjacent data k swaps in
          (i, j, k, swaps)
        else (i, j, k, 0%nat) in
      median data i j k swaps
    else (j, 0%nat) in
  if (swaps =? 0)%nat then (j, increasingHint)
  else if (swaps =? 12)%nat then (j, decreasingHint)
  else (j, unknownHint).

(** [for i < b && !less(i, i-1) { i++ }] *)
Fixpoint skip_ordered (fuel : nat) (data : list A) (i b : nat) : nat :=
  match fuel with
  | O => i
  | S fuel' =>
      if (i <? b)%nat && negb (Less data i (i - 1))
      then skip_ordered fuel' data (i + 1) b else i
  end.

(** [for j := i - 1; j >= 1; j-- { if !less(j, j-1) { break }; swap(j, j-1) }] *)
Fixpoint shift_left (j : nat) (data : list A) : list A :=
  match j with
  | O => data
  | S j' => if negb (Less data j j') then data else shift_left j' (Swap data j j')
  end.

(** [for j := i + 1; j < b; j++ { if !less(j, j-1) { break }; swap(j, j-1) }] *)
Fixpoint shift_right (fuel : nat) (data : list A) (j b : nat) : list A :=
  match fuel with
  | O => data
  | S fuel' =>
      if (j <? b)%nat then
        if negb (Less data j (j - 1)) then data
        else shift_right fuel' (Swap data j (j - 1)) (j + 1) b
      else data
  end.

(** [partialInsertionSort_func(data, a, b)]: the slice and whether it is
    sorted at the end. *)
Fixpoint partialInsertionSort_loop (steps : nat) (data : list A) (a b i : nat)
  : list A * bool :=
  match steps with
  | O => (data, false)
  | S steps' =>
      let i := skip_ordered b data i b in
      if (i =? b)%nat then (data, true)
      else if (b - a <? 50)%nat then (data, false)
      else
        let data := Swap data i (i - 1) in
        let data := if (2 <=? i - a)%nat then shift_left (i - 1) data else data in
        let data := if (2 <=? b - i)%nat then shift_right b data (i + 1) b else data in
        partialInsertionSort_loop steps' data a b i
  end.
Definition partialInsertionSort (data : list A) (a b : nat) : list A * bool :=
  partialInsertionSort_loop 5 data a b (a + 1).

(** [for i <= j && cond(i) { i++ }] and [for i <= j && cond(j) { j-- }]. *)
Fixpoint scan_up (fuel : nat) (cond : nat → bool) (i j : nat) : nat :=
  match fuel with
  | O => i
  | S fuel' => if (i <=? j)%nat && cond i then scan_up fuel' cond (i + 1) j else i
  end.
Fixpoint scan_down (fuel : nat) (cond : nat → bool) (i j : nat) : nat :=
  match fuel with
  | O => j
  | S fuel' => if (i <=? j)%nat && cond j then scan_down fuel' cond i (j - 1) else j
  end.

(** The closing loop of [partition_func]. *)
Fixpoint partition_loop (fuel : nat) (data : list A) (a i j : nat)
  : list A * nat :=
  match fuel with
  | O => (data, j)
  | S fuel' =>
      let i := scan_up (length data) (λ i, Less data i a) i j in
      let j := scan_down (length data) (λ j, negb (Less data j a)) i j in
      if (j <? i)%nat then (data, j)
      else partition_loop fuel' (Swap data i j) a (i + 1) (j - 1)
  end.

(** [partition_func(data, a, b, pivot)]: the slice, the pivot's new index and
    whether the range was already partitioned. *)
Definition partition (data : list A) (a b pivot : nat) : list A * nat * bool :=
  let data := Swap data a pivot in
  let i := (a + 1)%nat in
  let j := (b - 1)%nat in
  let i := scan_up (length data) (λ i, Less data i a) i j in
  let j := scan_down (length data) (λ j, negb (Less data j a)) i j in
  if (j <? i)%nat then (Swap data j a, j, true)
  else
    let data := Swap data i j in
    let '(data, j) := partition_loop (length data) data a (i + 1) (j - 1) in
    (Swap data j a, j, false).

(** [partitionEqual_func(data, a, b, pivot)]. *)
Fixpoint partitionEqual_loop (fuel : nat) (data : list A) (a i j : nat)
  : list A * nat :=
  match fuel with
  | O => (data, i)
  | S fuel' =>
      let i := scan_up (length data) (λ i, negb (Less data a i)) i j in
      let j := scan_down (length data) (λ j, Less data a j) i j in
      if (j <? i)%nat then (data, i)
      else partitionEqual_loop fuel' (Swap data i j) a (i + 1) (j - 1)
  end.
Definition partitionEqual (data : list A) (a b pivot : nat) : list A * nat :=
  let data := Swap data a pivot in
  partitionEqual_loop (length data) data a (a + 1) (b - 1).

(** [bits.Len(uint(n))]. *)
Definition bits_Len (n : nat) : nat :=
  match n with O => O | _ => S (Nat.log2 n) end.

(** [xorshift.Next] on a [uint64] state. *)
Definition xorshift_Next (r : Z) : Z :=
  let r := Z.lxor r (Z.shiftl r 13 mod 2 ^ 64) in
  let r := Z.lxor r (Z.shiftr r 7) in
  Z.lxor r (Z.shiftl r 17 mod 2 ^ 64).

(** [breakPatterns_func(data, a, b)]. *)
Definition breakPatterns (data : list A) (a b : nat) : list A :=
  let len := (b - a)%nat in
  if (8 <=? len)%nat then
    let modulus := (2 ^ Z.of_nat (bits_Len len))%Z in
    let idx := (a + len / 4 * 2 - 1)%nat in
    let step '(d, random) (i : nat) :=
      let random := xorshift_Next random in
      let other := Z.to_nat (Z.land random (modulus - 1)) in
      let other := if (len <=? other)%nat then (other - len)%nat else other in
      (Swap d (idx - 1 + i) (a + other), random) in
    fst (foldl step (data, Z.of_nat len) [0; 1; 2]%nat)
  else data.

(** [pdqsort_func(data, a, b, limit)]; the two flags are the locals
    [wasBalanced] and [wasPartitioned] at the head of the loop. *)
Fixpoint pdqsort (fuel : nat) (data : list A) (a b limit : nat)
    (wasBalanced wasPartitioned : bool) : list A :=
  match fuel with
  | O => data
  | S fuel' =>
      let len := (b - a)%nat in
      if (len <=? 12)%nat then insertionSort data a b
      else if (limit =? 0)%nat then heapSort data a b
      else
        let '(data, limit) :=
          if negb wasBalanced then (breakPatterns data a b, (limit - 1)%nat)
          else (data, limit) in
        let '(pivot, hint) := choosePivot data a b in
        let '(data, pivot, hint) :=
          match hint with
          | decreasingHint =>
              (reverseRange data a b, (b - 1 - (pivot - a))%nat, increasingHint)
          | _ => (data, pivot, hint)
          end in
        let '(data, done) :=
          match hint with
          | increasingHint =>
              if wasBalanced && wasPartitioned
              then partialInsertionSort data a b else (data, false)
          | _ => (data, false)
          end in
        if done then data
        else if (0 <? a)%nat && negb (Less data (a - 1) pivot) then
          let '(data, mid) := partitionEqual data a b pivot in
          pdqsort fuel' data mid b limit wasBalanced wasPartitioned
        else
          let '(data, mid, alreadyPartitioned) := partition data a b pivot in
          let leftLen := (mid - a)%nat in
          let rightLen := (b - mid)%nat in
          let balanceThreshold := (len / 8)%nat in
          if (leftLen <? rightLen)%nat then
            let data := pdqsort fuel' data a mid limit true true in
            pdqsort fuel' data (mid + 1) b limit
              (balanceThreshold <=? leftLen)%nat alreadyPartitioned
          else
            let data := pdqsort fuel' data (mid + 1) b limit true true in
            pdqsort fuel' data a mid limit
              (balanceThreshold <=? rightLen)%nat alreadyPartitioned
  end.

(** [sort.Slice(x, less)]. *)
Definition pdq_Slice (x : list A) : list A :=
  let n := length x in
  pdqsort (S n) x 0 n (bits_Len n) true true.

End Pdqsort.

(** *** [textproto.Reader.ReadMIMEHeader]

    Lines end in a line feed, a carriage return before it dropped; the block
    ends at the first empty line; a line that starts with a space or a tab
    continues the line before it. The limits on the size of a block are not
    modelled. *)

Definition is_space (c : ascii) : bool := Ascii.eqb c " " || Ascii.eqb c "009".

(** One line and the bytes after it; [None] when the stream ends first. *)
Fixpoint read_line (acc : string) (r : list ascii) : option (string * list ascii) :=
  match r with
  | [] => None
  | c :: r' =>
      if Ascii.eqb c "010" then Some (acc, r')
      else
        match r' with
        | c' :: r'' =>
            if Ascii.eqb c "013" && Ascii.eqb c' "010" then Some (acc, r'')
            else read_line (acc ++ String c "") r'
        | [] => None
        end
  end.

(** The lines of the block, up to its empty line. *)
Fixpoint read_block (fuel : nat) (r : list ascii)
  : option (list string * list ascii) :=
  match fuel with
  | O => None
  | S fuel' =>
      match read_line "" r with
      | None => None
      | Some (line, r') =>
          if String.eqb line "" then Some ([], r')
          else
            match read_block fuel' r' with
            | Some (lines, r'') => Some (line :: lines, r'')
            | None => None
            end
      end
  end.

Fixpoint trim_left (s : string) : string :=
  match s with
  | String c s' => if is_space c then trim_left s' else s
  | EmptyString => s
  end.

Definition string_rev (s : string) : string :=
  string_of_list_ascii (rev (list_ascii_of_string s)).

Definition trim (s : string) : string :=
  string_rev (trim_left (string_rev (trim_left s))).

Definition starts_with_space (s : string) : bool :=
  match s with String c _ => is_space c | EmptyString => false end.

(** Continuation lines joined to the line they continue, by one space;
    [cur] is the line being built. *)
Fixpoint join_continued_aux (cur : string) (lines : list string) : list string :=
  match lines with
  | [] => [cur]
  | line :: rest =>
      if starts_with_space line
      then join_continued_aux (cur ++ " " ++ trim line) rest
      else cur :: join_continued_aux (trim line) rest
  end.
Definition join_continued (lines : list string) : list string :=
  match lines with
  | [] => []
  | line :: rest => join_continued_aux (trim line) rest
  end.

(** [validHeaderFieldByte]: the bytes of an RFC 7230 token. *)
Definition valid_field_byte (c : ascii) : bool :=
  let n := nat_of_ascii c in
  (48 <=? n)%nat && (n <=? 57)%nat
  || (65 <=? n)%nat && (n <=? 90)%nat
  || (97 <=? n)%nat && (n <=? 122)%nat
  || existsb (Ascii.eqb c)
       ["!"; "#"; "$"; "%"; "&"; "'"; "*"; "+"; "-"; "."; "^"; "_"; "`"; "|"; "~"]%char.

Definition ascii_upper (c : ascii) : ascii :=
  let n := nat_of_ascii c in
  if (97 <=? n)%nat && (n <=? 122)%nat then ascii_of_nat (n - 32) else c.

(** [CanonicalMIMEHeaderKey]: upper case at the start and after a hyphen,
    lower case elsewhere; [None] for a key that is no token. *)
Fixpoint canonical_key (upper : bool) (k : string) : option string :=
  match k with
  | EmptyString => Some EmptyString
  | String c k' =>
      if valid_field_byte c then
        match canonical_key (Ascii.eqb c "-") k' with
        | Some k'' => Some (String (if upper then ascii_upper c else ascii_lower c) k'')
        | None => None
        end
      else None
  end.

(** [validHeaderValueByte]: no control byte but the tab. *)
Definition valid_value_byte (c : ascii) : bool :=
  let n := nat_of_ascii c in
  (32 <=? n)%nat && negb (n =? 127)%nat || Ascii.eqb c "009".

(** [bytes.Cut(kv, ":")]. *)
Fixpoint cut_colon (acc : string) (s : string) : option (string * string) :=
  match s with
  | EmptyString => None
  | String c s' =>
      if Ascii.eqb c ":" then Some (acc, s') else cut_colon (acc ++ String c "") s'
  end.

(** The header of the joined lines; [None] for a malformed line. *)
Fixpoint parse_lines (lines : list string) : option MIMEHeader :=
  match lines with
  | [] => Some []
  | kv :: rest =>
      match cut_colon "" kv with
      | None => None
      | Some (k, v) =>
          if negb (forallb valid_value_byte (list_ascii_of_string v)) then None
          else
            match canonical_key true k, parse_lines rest with
            | Some key, Some h =>
                if String.eqb key "" then Some h
                else Some ((key, trim_left v) :: h)
            | _, _ => None
            end
      end
  end.

Definition simple_ReadMIMEHeader (r : list ascii) : option (MIMEHeader * list ascii) :=
  match r with
  | c :: _ => if is_space c then None else
      match read_block (S (length r)) r with
      | None => None
      | Some (lines, r') =>
          match parse_lines (join_continued lines) with
          | Some h => Some (h, r')
          | None => None
          end
      end
  | [] => None
  end.

(** The instance used for concrete runs: ASCII strings, Unix paths, a Go
    tree installed in /usr/local/go. *)
#[export] Instance go_unix : GoLib := {|
  strings_ToLower := ascii_ToLower;
  strings_EqualFold := ascii_EqualFold;
  runtime_GOROOT := "/usr/local/go";
  filepath_IsAbs := unix_IsAbs;
  filepath_Join := unix_Join;
  filepath_Rel := unix_Rel;
  sort_Slice := λ A less x, pdq_Slice less x;
  textproto_ReadMIMEHeader := simple_ReadMIMEHeader;
|}.

(** ** More of the Go standard library *)

(** *** Bytes *)

Definition is_upper (c : ascii) : bool :=
  let n := nat_of_ascii c in (65 <=? n)%nat && (n <=? 90)%nat.

Definition is_lower (c : ascii) : bool :=
  let n := nat_of_ascii c in (97 <=? n)%nat && (n <=? 122)%nat.

(** The class [a-zA-Z0-9]. *)
Definition is_alnum (c : ascii) : bool := is_digit c || is_upper c || is_lower c.

(** [c < utf8.RuneSelf]. *)
Definition is_ascii_byte (c : ascii) : bool := (nat_of_ascii c <? 128)%nat.

(** The table [asciiSpace] of package [strings]: tab, line feed, vertical
    tab, form feed, carriage return, space. *)
Definition asciiSpace (c : ascii) : bool :=
  let n := nat_of_ascii c in (9 <=? n)%nat && (n <=? 13)%nat || (n =? 32)%nat.

(** *** [regexp.MustCompile(`[^a-zA-Z0-9]+`).Split(input, -1)]

    A match of the splitter is a maximal run of bytes outside [a-zA-Z0-9]
    (the bytes of a rune that is not ASCII are all outside it). [Split]
    returns the pieces between the matches, the piece before a match at the
    start and the piece after a match at the end included; [in_match] says
    that the byte before was part of a match, [cur] is the piece being
    read. *)
Fixpoint splitter_Split_scan (in_match : bool) (cur : string) (s : string)
  : list string :=
  match s with
  | EmptyString => [cur]
  | String c s' =>
      if is_alnum c then splitter_Split_scan false (cur ++ String c "") s'
      else if in_match then splitter_Split_scan true cur s'
      else cur :: splitter_Split_scan true "" s'
  end.

Definition splitter_Split (input : string) : list string :=
  splitter_Split_scan false "" input.

(** *** [strings.TrimSuffix], [strings.Split], [strings.TrimSpace],
    [strings.Fields] *)

(** [s[:n]]. *)
Fixpoint string_take (n : nat) (s : string) : string :=
  match n, s with
  | S n', String c s' => String c (string_take n' s')
  | _, _ => EmptyString
  end.

Definition strings_TrimSuffix (s suffix : string) : string :=
  if strings_HasSuffix s suffix
  then string_take (String.length s - String.length suffix) s else s.

(** [strings.Split(s, sep)] for a separator of one byte: the pieces between
    its occurrences, one more than there are occurrences. *)
Fixpoint Split_scan (sep : ascii) (cur : string) (s : string) : list string :=
  match s with
  | EmptyString => [cur]
  | String c s' =>
      if Ascii.eqb c sep then cur :: Split_scan sep "" s'
      else Split_scan sep (cur ++ String c "") s'
  end.

Definition strings_Split_byte (s : string) (sep : ascii) : list string :=
  Split_scan sep "" s.

(** The functions of package [strings] that take [unicode.IsSpace], which
    [TrimSpace] and [Fields] fall back to when they meet a byte that is not
    ASCII. *)
Class GoUnicode : Type := {
  strings_TrimFunc_IsSpace : string → string;
  strings_TrimRightFunc_IsSpace : string → string;
  strings_FieldsFunc_IsSpace : string → list string;
}.

(** One scan of [TrimSpace] over ASCII space: the bytes from the first byte
    that is no ASCII space on, and whether that byte is outside ASCII. *)
Fixpoint TrimSpace_scan (s : list ascii) : list ascii * bool :=
  match s with
  | [] => ([], false)
  | c :: s' =>
      if negb (is_ascii_byte c) then (s, true)
      else if asciiSpace c then TrimSpace_scan s'
      else (s, false)
  end.

(** The ASCII path of [strings.Fields]: the maximal runs of bytes that are
    no ASCII space. *)
Fixpoint Fields_scan (cur : string) (s : string) : list string :=
  match s with
  | EmptyString => if String.eqb cur "" then [] else [cur]
  | String c s' =>
      if asciiSpace c then
        if String.eqb cur "" then Fields_scan "" s' else cur :: Fields_scan "" s'
      else Fields_scan (cur ++ String c "") s'
  end.

Section Strings.
Context `{GoUnicode}.

(** [strings.TrimSpace]: the scan from the start, then the scan from the
    end. *)
Definition strings_TrimSpace (s : string) : string :=
  let '(s1, slow) := TrimSpace_scan (list_ascii_of_string s) in
  if slow then strings_TrimFunc_IsSpace (string_of_list_ascii s1)
  else
    let '(s2, slow) := TrimSpace_scan (rev s1) in
    if slow then strings_TrimRightFunc_IsSpace (string_of_list_ascii (rev s2))
    else string_of_list_ascii (rev s2).

Definition strings_Fields (s : string) : list string :=
  if forallb is_ascii_byte (list_ascii_of_string s) then Fields_scan "" s
  else strings_FieldsFunc_IsSpace s.

End Strings.

(** The instance used for concrete runs, whose inputs are ASCII: the
    fallbacks are the ASCII scans. *)
#[export] Instance unicode_ascii : GoUnicode := {|
  strings_TrimFunc_IsSpace := λ s,
    string_of_list_ascii
      (rev (TrimSpace_scan (rev (TrimSpace_scan (list_ascii_of_string s)).1)).1);
  strings_TrimRightFunc_IsSpace := λ s,
    string_of_list_ascii (rev (TrimSpace_scan (rev (list_ascii_of_string s))).1);
  strings_FieldsFunc_IsSpace := Fields_scan "";
|}.

(** *** [fmt.Sprintf("%d", n)] for [n >= 0] *)

Fixpoint fmt_d_loop (fuel : nat) (n : nat) (acc : string) : string :=
  match fuel with
  | O => acc
  | S fuel' =>
      let acc := String (ascii_of_nat (48 + n mod 10)) acc in
      if (n <? 10)%nat then acc else fmt_d_loop fuel' (n / 10) acc
  end.

Definition fmt_d (n : nat) : string := fmt_d_loop (S n) n "".

(** *** [filepath.Clean], [filepath.Base], [filepath.Ext] *)

Class GoPath : Type := {
  os_PathSeparator : ascii;
  filepath_Clean : string → string;
  filepath_Base : string → string;
  filepath_Ext : string → string;
}.

(** The bytes after the last separator, [None] when there is none. *)
Fixpoint after_last_slash (s : string) : option string :=
  match s with
  | EmptyString => None
  | String c s' =>
      match after_last_slash s' with
      | Some t => Some t
      | None => if Ascii.eqb c "/" then Some s' else None
      end
  end.

Fixpoint drop_slashes (l : list ascii) : list ascii :=
  match l with
  | c :: l' => if Ascii.eqb c "/" then drop_slashes l' else l
  | [] => []
  end.

(** [filepath.Base] on Unix: strip the trailing separators, keep what
    follows the last separator left; [.] for the empty path and [/] for a
    path of separators only. *)
Definition unix_Base (path : string) : string :=
  if String.eqb path "" then "."
  else
    let path :=
      string_of_list_ascii (rev (drop_slashes (rev (list_ascii_of_string path)))) in
    let path := match after_last_slash path with Some t => t | None => path end in
    if String.eqb path "" then "/" else path.

(** The scan of [filepath.Ext] from the end of the path: [Some] once it has
    met a dot (the extension) or a separator (no extension). *)
Fixpoint Ext_scan (path : string) : option string :=
  match path with
  | EmptyString => None
  | String c path' =>
      match Ext_scan path' with
      | Some e => Some e
      | None =>
          if Ascii.eqb c "/" then Some ""
          else if Ascii.eqb c "." then Some path
          else None
      end
  end.

Definition unix_Ext (path : string) : string := default "" (Ext_scan path).

#[export] Instance path_unix : GoPath := {|
  os_PathSeparator := "/"%char;
  filepath_Clean := unix_Clean;
  filepath_Base := unix_Base;
  filepath_Ext := unix_Ext;
|}.

Section Abs.
Context `{GoLib} `{GoPath}.

(** [filepath.Abs] on Unix; [getwd] is what [os.Getwd] answers. *)
Definition filepath_Abs (getwd : string * option error) (path : string)
  : string * option error :=
  if filepath_IsAbs path then (filepath_Clean path, None)
  else
    match getwd with
    | (_, Some err) => ("", Some err)
    | (wd, None) => (filepath_Join wd path, None)
    end.

End Abs.

(** ** The frames of [write] (gopls.go) *)

(** The header [write] formats for a body of [n] bytes:
    [fmt.Sprintf("Content-Length: %d\r\n\r\n", n)]. *)
Definition write_header (n : nat) : string :=
  "Content-Length: " ++ fmt_d n
  ++ String "013" (String "010" (String "013" (String "010" ""))).

(** The bytes the two [c.stdin.Write] of [write] put on the wire for the
    marshalled message [body]. *)
Definition write_frame (body : list ascii) : list ascii :=
  list_ascii_of_string (write_header (length body)) ++ body.

(** ** [Tokenize] (main.go) *)

Section Tokenize.
Context `{GoLib}.

(** The loop [for i, r := range part] with its epilogue. A part holds bytes
    of [a-zA-Z0-9] only, so its runes are its bytes; [prev] is [part[i-1]],
    absent at [i = 0]. *)
Fixpoint Tokenize_part (tokens : list string) (currentToken : string)
    (prev : option ascii) (part : string) : list string :=
  match part with
  | EmptyString =>
      if (0 <? String.length currentToken)%nat
      then (tokens ++ [strings_ToLower currentToken])%list else tokens
  | String r part' =>
      let boundary :=
        match prev with
        | Some p => is_upper r && is_lower p
        | None => false
        end in
      let '(tokens, currentToken) :=
        if boundary then ((tokens ++ [strings_ToLower currentToken])%list, "")
        else (tokens, currentToken) in
      Tokenize_part tokens (currentToken ++ String r "") (Some r) part'
  end.

Definition Tokenize (input : string) : list string :=
  foldl (λ tokens part, Tokenize_part tokens "" None part) []
    (splitter_Split input).

End Tokenize.

(** ** [AnalyzeGoFile], [ScoreFile], [CollectFiles], [LocalSearch] (main.go) *)

(** [var ExtensionWeights = map[string]int{...}]. *)
Definition ExtensionWeights : gmap string Z :=
  list_to_map
    [(".go", 25); (".ts", 20); (".tsx", 20); (".js", 15);
     (".rs", 20); (".zig", 20); (".py", 20); (".java", 15);
     (".h", 20); (".cpp", 20); (".c", 20)]%Z.

(** The nodes of a parsed file on which the function given to [ast.Inspect]
    acts, by the name of their identifier. *)
Inductive Decl : Type :=
| FuncDecl (name : string)
| TypeSpec (name : string).

(** What the environment answers to the local analyzer. *)
Record LocalEnv : Type := mkLocalEnv {
  (* [os.Stat(path)]: its error *)
  os_Stat : string → option error;
  (* [git ls-files -c -o --exclude-standard] run in a directory: its output
     and its error *)
  git_ls_files : string → string * option error;
  (* [parser.ParseFile(fset, path, ...)]: the nodes [ast.Inspect] visits that
     are a [*ast.FuncDecl] or a [*ast.TypeSpec], in the order of the visit;
     [None] for an error *)
  parser_ParseFile : string → option (list Decl);
}.

Section LocalSearch.
Context `{GoLib} `{GoPath} `{GoUnicode}.
Local Open Scope Z_scope.

(** The loop [for _, t := range terms] of one node. *)
Definition AnalyzeGoFile_terms (kind ident : string) (terms : list string)
    (acc : Z * list string) : Z * list string :=
  let name := strings_ToLower ident in
  foldl (λ '(score, matched) t,
           if strings_Contains name t
           then (wrap64 (score + 40), (matched ++ [(kind ++ ident)%string])%list)
           else (score, matched))
    acc terms.

(** The function given to [ast.Inspect], on one node. *)
Definition AnalyzeGoFile_node (terms : list string) (acc : Z * list string)
    (n : Decl) : Z * list string :=
  match n with
  | FuncDecl ident => AnalyzeGoFile_terms "func:" ident terms acc
  | TypeSpec ident => AnalyzeGoFile_terms "type:" ident terms acc
  end.

Definition AnalyzeGoFile (le : LocalEnv) (absPath : string) (terms : list string)
  : Z * list string :=
  match parser_ParseFile le absPath with
  | None => (0, [])
  | Some nodes => foldl (AnalyzeGoFile_node terms) (0, []) nodes
  end.

Definition ScoreFile (le : LocalEnv) (root relPath : string)
    (terms : list string) (queryLower : string) : Z * list string :=
  let score := 0 in
  let reasons := [] in
  let pathLower := strings_ToLower relPath in
  let fileName := filepath_Base pathLower in
  let ext := filepath_Ext fileName in
  let nameNoExt := strings_TrimSuffix fileName ext in
  let '(score, reasons) :=
    if String.eqb nameNoExt queryLower
    then (wrap64 (score + 500), (reasons ++ ["exact-file"])%list)
    else (score, reasons) in
  let matches :=
    foldl (λ matches term,
             if strings_Contains pathLower term then matches + 1 else matches)
      0 terms in
  let score :=
    if (0 <? matches) && (matches =? Z.of_nat (length terms))
    then wrap64 (score + 50) else score in
  let '(score, reasons) :=
    if String.eqb ext ".go" then
      let absPath := filepath_Join root relPath in
      let '(astScore, astReasons) := AnalyzeGoFile le absPath terms in
      if 0 <? astScore
      then (wrap64 (score + astScore), (reasons ++ astReasons)%list)
      else (score, reasons)
    else (score, reasons) in
  let score :=
    if 0 <? score then
      match ExtensionWeights !! ext with
      | Some w => wrap64 (score + w)
      | None => score
      end
    else score in
  (score, reasons).

Definition CollectFiles (le : LocalEnv) (root : string)
  : list string * option error :=
  match os_Stat le (filepath_Join root ".git") with
  | None =>
      match git_ls_files le root with
      | (out, None) => (strings_Split_byte (strings_TrimSpace out) "010", None)
      | (_, Some _) => ([], None)
      end
  | Some _ => ([], None)
  end.

(** The body of the loop [for _, f := range files]. *)
Definition LocalSearch_body (le : LocalEnv) (root : string)
    (terms : list string) (queryLower : string)
    (results : list FileScore) (f : string) : list FileScore :=
  let '(score, reasons) := ScoreFile le root f terms queryLower in
  if 0 <? score then (results ++ [mkFileScore f score reasons false])%list
  else results.

Definition LocalSearch (le : LocalEnv) (root : string) (terms : list string)
    (queryLower : string) : list FileScore * option error :=
  let files := (CollectFiles le root).1 in
  (foldl (LocalSearch_body le root terms queryLower) [] files, None).

(** The first lines of [Search]: the query as it is compared and its
    terms. *)
Definition Search_queryLower (query : string) : string :=
  strings_ToLower (strings_TrimSpace query).

Definition Search_terms (query : string) : list string :=
  let terms := Tokenize query in
  if (Z.of_nat (length terms) =? 0) then strings_Fields (Search_queryLower query)
  else terms.

(** What the local goroutine of [Search] appends:
    [localRes, _ := LocalSearch(absRoot, terms, queryLower)]. *)
Definition Search_localRes (le : LocalEnv) (absRoot query : string)
  : list FileScore :=
  (LocalSearch le absRoot (Search_terms query) (Search_queryLower query)).1.

End LocalSearch.

(** ** [initSecurity], [isAllowedPath] and the tool [read_file] (main.go) *)

(** [*mcp.CallToolResult], by its constructor and its text. *)
Inductive CallToolResult : Type :=
| NewToolResultText (text : string)
| NewToolResultError (text : string).

(** What the environment answers to the file tools. *)
Record FileEnv : Type := mkFileEnv {
  os_Getwd : string * option error;
  (* [exec.Command("go", "env", name).Output()] *)
  go_env : string → string * option error;
  (* [os.ReadFile(path)] *)
  os_ReadFile : string → string * option error;
}.

Section Security.
Context `{GoLib} `{GoPath} `{GoUnicode}.

(** One of the two queries of [initSecurity]: the output of [go env], when
    it succeeds and is not blank, is appended. *)
Definition initSecurity_env (fe : FileEnv) (name : string)
    (AllowedPathPrefixes : list string) : list string :=
  match go_env fe name with
  | (out, None) =>
      let path := strings_TrimSpace out in
      if negb (String.eqb path "") then (AllowedPathPrefixes ++ [path])%list
      else AllowedPathPrefixes
  | (_, Some _) => AllowedPathPrefixes
  end.

(** [initSecurity]: [AllowedPathPrefixes] afterwards. *)
Definition initSecurity (fe : FileEnv) (AllowedPathPrefixes : list string)
    (rootPath : string) : list string :=
  let AllowedPathPrefixes := (AllowedPathPrefixes ++ [rootPath])%list in
  let AllowedPathPrefixes := initSecurity_env fe "GOMODCACHE" AllowedPathPrefixes in
  initSecurity_env fe "GOROOT" AllowedPathPrefixes.

(** The test of the loop of [isAllowedPath] for one prefix. *)
Definition isAllowedPath_prefix (cleanTarget prefix : string) : bool :=
  let cleanPrefix := filepath_Clean prefix in
  String.eqb cleanTarget cleanPrefix
  || strings_HasPrefix cleanTarget (cleanPrefix ++ String os_PathSeparator "").

Definition isAllowedPath (fe : FileEnv) (AllowedPathPrefixes : list string)
    (target : string) : bool :=
  match filepath_Abs (os_Getwd fe) target with
  | (_, Some _) => false
  | (absTarget, None) =>
      let cleanTarget := filepath_Clean absTarget in
      existsb (isAllowedPath_prefix cleanTarget) AllowedPathPrefixes
  end.

(** The path the tool [read_file] checks and reads. *)
Definition read_file_target (rootPath pathArg : string) : string :=
  if negb (filepath_IsAbs pathArg) then filepath_Join rootPath pathArg
  else pathArg.

(** The handler of the tool [read_file]. *)
Definition read_file (fe : FileEnv) (AllowedPathPrefixes : list string)
    (rootPath pathArg : string) : CallToolResult :=
  let targetPath := read_file_target rootPath pathArg in
  if negb (isAllowedPath fe AllowedPathPrefixes targetPath) then
    NewToolResultError
      ("Access Denied: Reading file " ++ pathArg
       ++ " is not allowed. Scope restricted to project root and Go dependencies.")
  else
    match os_ReadFile fe targetPath with
    | (_, Some err) => NewToolResultError err
    | (content, None) => NewToolResultText content
    end.

End Security.

(* ===================================================================== *)
(** * Part II. The vocabulary of the properties                            *)
(* ===================================================================== *)

(** ** The symbol adapter, in the words of its specification *)

Section SymbolSearchWords.
Context `{GoLib}.
Local Open Scope Z_scope.

(** The path derived from a symbol: its URI without the file scheme. *)
Definition symbol_path (s : Symbol) : string :=
  strings_TrimPrefix (Location_URI s) "file://".

(** The inclusion filter: the query is a contiguous substring of the name,
    case folded. *)
Definition name_matches (query : string) (s : Symbol) : bool :=
  strings_Contains (strings_ToLower (Name s)) (strings_ToLower query).

(** The noise filter. *)
Definition is_noise (s : Symbol) : bool :=
  strings_HasPrefix (symbol_path s) runtime_GOROOT
  || strings_Contains (symbol_path s) "/vendor/"
  || strings_Contains (symbol_path s) "/.cache/".

(** The dependency classification. *)
Definition is_dependency (s : Symbol) : bool :=
  strings_Contains (symbol_path s) "/pkg/mod/".

(** The score, term by term. *)
Definition match_bonus (query : string) (s : Symbol) : Z :=
  if strings_EqualFold (Name s) query then 50
  else if strings_HasPrefix (strings_ToLower (Name s)) (strings_ToLower query)
       then 20 else 0.

Definition kind_bonus (s : Symbol) : Z :=
  if (Kind s =? 5) || (Kind s =? 11) || (Kind s =? 12) then 10 else 0.

Definition dependency_penalty (s : Symbol) : Z :=
  if is_dependency s then 25 else 0.

Definition dependency_test_penalty (s : Symbol) : Z :=
  if is_dependency s && strings_HasSuffix (symbol_path s) "_test.go" then 50 else 0.

Definition symbol_score (query : string) (s : Symbol) : Z :=
  50 + match_bonus query s + kind_bonus s
  - dependency_penalty s - dependency_test_penalty s.

(** The record of a symbol, and what the adapter emits for it: that record
    when the symbol passes the filters with a positive score, else nothing. *)
Definition symbol_record (query : string) (s : Symbol) : FileScore :=
  mkFileScore (symbol_path s) (symbol_score query s)
    ["gopls:" ++ Name s] (is_dependency s).

Definition passes_filters (query : string) (s : Symbol) : bool :=
  name_matches query s && negb (is_noise s).

Definition symbol_output (query : string) (s : Symbol) : list FileScore :=
  if passes_filters query s && (0 <? symbol_score query s)
  then [symbol_record query s] else [].

End SymbolSearchWords.

(** A path lies under a directory: it is the directory or continues it
    after a separator. *)
Definition lies_under (root path : string) : Prop :=
  path = root ∨ strings_HasPrefix path (root ++ "/") = true.

(** [lies_under], decided. *)
Definition inside_root (root path : string) : bool :=
  String.eqb path root || strings_HasPrefix path (root ++ "/").

(** ** The client between two steps *)

Section ClientWords.
Local Open Scope Z_scope.

(** The invariant of the channel store: a registered channel was made
    earlier, and a channel not made yet holds nothing. *)
Record wf (c : GoplsClient) : Prop := mk_wf {
  wf_pending : ∀ id ch, pending c !! id = Some ch → (ch < next_chan c)%nat;
  wf_chans : ∀ ch, (next_chan c ≤ ch)%nat → chans c !! ch = None;
}.

(** While a call waits: its entry is registered, its channel is empty and no
    other entry shares the channel. *)
Definition waiting (id : Z) (ch : chan) (c : GoplsClient) : Prop :=
  pending c !! id = Some ch
  ∧ chans c !! ch = None
  ∧ ∀ id' ch', pending c !! id' = Some ch' → id' ≠ id → ch' ≠ ch.

(** The state in which [Call] starts to wait, after a successful write. *)
Definition Call_sent (c : GoplsClient) (method : string) (params : JSON)
  : GoplsClient :=
  set_stdin (stdin c ++ [MsgRequest (mkReq "2.0" (nextID c) method params)])
    (set_pending (<[nextID c := next_chan c]> (pending c))
       (set_next_chan (S (next_chan c)) (set_seq (nextID c) c))).

(** Once the response of a call is delivered, later bodies leave it in the
    channel. *)
Definition delivered (id : Z) (ch : chan) (res : RawMessage) (c : GoplsClient)
  : Prop :=
  pending c !! id = None
  ∧ chans c !! ch = Some res
  ∧ ∀ id' ch', pending c !! id' = Some ch' → ch' ≠ ch.

Definition initializeRequest (pid : Z) (rootPath : string) : Message :=
  MsgRequest (mkReq "2.0" 1 "initialize"
    (JObject [("processId", JInt pid);
              ("rootUri", JString ("file://" ++ rootPath));
              ("capabilities", JObject [])])).

Definition initializedNotification : Message :=
  MsgNotification (mkNotification "2.0" "initialized" (JObject [])).

End ClientWords.

(** ** The merge and the sort *)

Section MergeWords.
Context `{GoLib}.

(** The absolute path a record of [results] is compared by. *)
Definition abs_path (absRoot : string) (existing : FileScore) : string :=
  if negb (filepath_IsAbs (Path existing))
  then filepath_Join absRoot (Path existing) else Path existing.

(** A gopls record as it is appended: made relative to the root and marked
    local when the root is a prefix of its path. *)
Definition relocate (absRoot : string) (gr : FileScore) : FileScore :=
  if strings_HasPrefix (Path gr) absRoot
  then mkFileScore (filepath_Rel absRoot (Path gr)).1 (Score gr) (Reasons gr) false
  else gr.

End MergeWords.

(** What [sort.Slice] promises for the comparison of [Search]: [s] is a
    rearrangement of [x] in which no record has a higher score than a record
    before it. Stability is not promised. *)
Definition sorted_by_score (x s : list FileScore) : Prop :=
  s ≡ₚ x
  ∧ ∀ (i j : nat) (a b : FileScore),
      (i < j)%nat → s !! i = Some a → s !! j = Some b → (Score b ≤ Score a)%Z.

(** ** The read loop *)

Section ReadLoopWords.
Context `{GoLib}.

(** A header block that is read takes at least one byte of the stream. *)
Definition reads_forward : Prop :=
  ∀ r headers r',
    textproto_ReadMIMEHeader r = Some (headers, r') → (length r' < length r)%nat.

End ReadLoopWords.

(** ** Slices under [sort.Slice] *)

Section SortWords.
Context {A : Type} (k : A → Z).
Implicit Types d : list A.
Local Open Scope nat_scope.

(** The key at an index, 0 outside the slice. *)
Definition key_at d (i : nat) : Z := from_option k 0%Z (d !! i).

(** [d'] differs from [d] only inside [a, b), where its keys are keys of
    [d] in [a, b). *)
Definition moved_within (a b : nat) d d' : Prop :=
  length d' = length d
  ∧ (∀ m, m < a ∨ b ≤ m → key_at d' m = key_at d m)
  ∧ (∀ m, a ≤ m < b → ∃ m', a ≤ m' < b ∧ key_at d' m = key_at d m').

(** The keys do not decrease along [a, b). *)
Definition sorted_in (a b : nat) d : Prop :=
  ∀ i j, a ≤ i → i ≤ j → j < b → (key_at d i ≤ key_at d j)%Z.

(** Everything before [a] is at most everything in [a, b). *)
Definition below_in (a b : nat) d : Prop :=
  ∀ i j, i < a → a ≤ j → j < b → (key_at d i ≤ key_at d j)%Z.

(** The state of a partition around the key [p] kept at index [a]. *)
Definition parted_at (p : Z) (a b i j : nat) d : Prop :=
  key_at d a = p
  ∧ (∀ m, a + 1 ≤ m → m < i → (key_at d m < p)%Z)
  ∧ (∀ m, j < m → m < b → (p ≤ key_at d m)%Z).

(** The state of [partitionEqual] around the key [p] kept at index [a]. *)
Definition parted_equal_at (p : Z) (a b i j : nat) d : Prop :=
  key_at d a = p
  ∧ (∀ m, a + 1 ≤ m → m < i → (key_at d m ≤ p)%Z)
  ∧ (∀ m, j < m → m < b → (p < key_at d m)%Z).

(** The key of node [i] of the heap laid out from index [first]. *)
Definition heap_key_at (first : nat) d (i : nat) : Z := key_at d (first + i).

(** [c] is a child of node [i]. *)
Definition heap_child (i c : nat) : Prop := c = 2 * i + 1 ∨ c = 2 * i + 2.

(** Every node from [lo] on is at least its children below [hi]. *)
Definition heap_ok_at (first : nat) d (lo hi : nat) : Prop :=
  ∀ i c, lo ≤ i → heap_child i c → c < hi →
         (heap_key_at first d c ≤ heap_key_at first d i)%Z.

(** The same but for the node [root], whose children are at most its
    parent. *)
Definition heap_except_at (first : nat) d (lo hi root : nat) : Prop :=
  (∀ i c, lo ≤ i → i ≠ root → heap_child i c → c < hi →
          (heap_key_at first d c ≤ heap_key_at first d i)%Z)
  ∧ (∀ i c, lo ≤ i → heap_child i root → heap_child root c → c < hi →
            (heap_key_at first d c ≤ heap_key_at first d i)%Z).

End SortWords.

(** ** The inputs of the concrete runs *)

(** The merged collection of the examples below: thirteen local records,
    the first with score 5, the others with score 9; gopls is not running. *)
Definition thirteen_local : list FileScore :=
  mkFileScore "f00.go" 5 ["func:Q"] false
  :: map (λ p, mkFileScore p 9 ["func:Q"] false)
       ["f01.go"; "f02.go"; "f03.go"; "f04.go"; "f05.go"; "f06.go";
        "f07.go"; "f08.go"; "f09.go"; "f10.go"; "f11.go"; "f12.go"].

Definition thirteen_env : SearchEnv :=
  mkSearchEnv thirteen_local None None [] LocalFirst.

(** One file found by both branches: the local analyzer scores cmd/main.go
    115, gopls reports the function Run in /w/app/cmd/main.go. *)
Definition both_found (schedule : Schedule) : SearchEnv :=
  mkSearchEnv
    [mkFileScore "cmd/main.go" 115 ["func:Run"] false]
    (Some NewClient) None
    [mkArrival 1000%Z
       (Some (mkResp 1 (RawSymbols
          [mkSymbol "Run" 12 "main" "file:///w/app/cmd/main.go"])))]
    schedule.

(** A dependency in a directory beside the root whose name continues the
    name of the root: the module cache /w/app-deps/pkg/mod of a project in
    /w/app. *)
Definition beside_root : SearchEnv :=
  mkSearchEnv [] (Some NewClient) None
    [mkArrival 1000%Z
       (Some (mkResp 1 (RawSymbols
          [mkSymbol "Parse" 12 "m" "file:///w/app-deps/pkg/mod/m@v1/z.go"])))]
    LocalFirst.

Definition CRLF : string := String "013" (String "010" "").

(** One frame on the wire: a header line, the empty line, the body. *)
Definition frame (header body : string) : list ascii :=
  list_ascii_of_string (header ++ CRLF ++ CRLF ++ body).

(** ** Strings as their bytes *)

(** Every byte of [s] satisfies [p]. *)
Definition all_bytes (p : ascii → bool) (s : string) : bool :=
  forallb p (list_ascii_of_string s).

(** The bytes of [s] that satisfy [p], in order. *)
Fixpoint keep_bytes (p : ascii → bool) (s : string) : string :=
  match s with
  | EmptyString => EmptyString
  | String c s' => if p c then String c (keep_bytes p s') else keep_bytes p s'
  end.

(** ** Tokens *)

(** The places of a part where an upper-case letter follows a lower-case
    letter; [prev] is the byte before the part. *)
Fixpoint camel_boundaries (prev : option ascii) (part : string) : nat :=
  match part with
  | EmptyString => 0
  | String r part' =>
      (match prev with
       | Some p => if is_upper r && is_lower p then 1 else 0
       | None => 0
       end + camel_boundaries (Some r) part')%nat
  end.

(** A byte of a token: a lower-case letter or a digit. *)
Definition is_token_byte (c : ascii) : bool := is_digit c || is_lower c.

(** What a token is: not empty, lower-case letters and digits only. *)
Definition is_token (t : string) : Prop :=
  t ≠ "" ∧ all_bytes is_token_byte t = true.

(** ** The local analyzer *)

Definition node_ident (n : Decl) : string :=
  match n with FuncDecl ident | TypeSpec ident => ident end.

(** The reason a node is reported by. *)
Definition node_label (n : Decl) : string :=
  match n with
  | FuncDecl ident => "func:" ++ ident
  | TypeSpec ident => "type:" ++ ident
  end.

Section LocalWords.
Context `{GoLib} `{GoPath}.

(** The reasons one node gives: its label once for every term its name
    contains, case folded. *)
Definition node_matches (terms : list string) (n : Decl) : list string :=
  flat_map
    (λ t, if strings_Contains (strings_ToLower (node_ident n)) t
          then [node_label n] else [])
    terms.

(** The name of a file as [ScoreFile] compares it: the last element of the
    lower-cased path, and that element without its extension. *)
Definition file_name (relPath : string) : string :=
  filepath_Base (strings_ToLower relPath).

Definition file_ext (relPath : string) : string :=
  filepath_Ext (file_name relPath).

Definition name_no_ext (relPath : string) : string :=
  strings_TrimSuffix (file_name relPath) (file_ext relPath).

(** There are terms and the lower-cased path contains every one. *)
Definition path_has_all_terms (terms : list string) (relPath : string) : Prop :=
  terms ≠ [] ∧ ∀ t, t ∈ terms → strings_Contains (strings_ToLower relPath) t = true.

(** The record of a file whose name, without extension, is the query, when
    nothing else matches. *)
Definition exact_file_record (relPath : string) : FileScore :=
  mkFileScore relPath
    (500 + default 0%Z (ExtensionWeights !! file_ext relPath))%Z
    ["exact-file"] false.

End LocalWords.

(** ** Paths by their elements *)

(** No separator in [e]. *)
Definition slash_free (e : string) : bool :=
  all_bytes (λ c, negb (Ascii.eqb c "/")) e.

(** An element of a cleaned rooted path: a name, neither empty nor [.]
    nor [..]. *)
Definition is_name (e : string) : Prop :=
  e ≠ "" ∧ e ≠ "." ∧ e ≠ ".." ∧ slash_free e = true.

(** The elements [filepath.Clean] keeps of a path, first first. *)
Definition clean_elems (p : string) : list string :=
  rev (foldl (clean_step (unix_IsAbs p)) [] (split_slash p)).

(** The directory with elements [dir] contains, or is, the path with
    elements [path]. A root directory without elements, [/], is taken by
    [isAllowedPath] to contain itself only. *)
Definition elems_under (dir path : list string) : Prop :=
  dir `prefix_of` path ∧ (dir = [] → path = []).
(** The path of the elements, a separator after each. *)
Fixpoint join_each (l : list string) : string :=
  match l with
  | [] => ""
  | e :: l' => e ++ "/" ++ join_each l'
  end.

(** What [read_file] answers when it refuses a path. *)
Definition accessDenied (pathArg : string) : CallToolResult :=
  NewToolResultError
    ("Access Denied: Reading file " ++ pathArg
     ++ " is not allowed. Scope restricted to project root and Go dependencies.").

(** A cleaned target lies in one of the allowed directories. *)
Definition allowed_by (prefixes : list string) (target : string) : Prop :=
  ∃ p, p ∈ prefixes
       ∧ unix_IsAbs p = true
       ∧ clean_elems p `prefix_of` clean_elems target
       ∧ (clean_elems p = [] → clean_elems target = []).

(** No two requests in flight share a channel. *)
Definition pending_injective (c : GoplsClient) : Prop :=
  ∀ id1 id2 ch,
    pending c !! id1 = Some ch → pending c !! id2 = Some ch → id1 = id2.

(** No dot in [e]. *)
Definition dot_free (e : string) : bool :=
  all_bytes (λ c, negb (Ascii.eqb c ".")) e.

(** The directory part of a relative path: nothing, or a path that ends in
    a separator. *)
Definition is_dir_part (d : string) : Prop := d = "" ∨ ∃ d', d = d' ++ "/".

(** A work tree of four files; auth/service.go declares the function
    Login, the type AuthService and the function authHelper. *)
Definition sample_tree : LocalEnv :=
  mkLocalEnv
    (λ _, None)
    (λ _, ("cmd/main.go" ++ String "010" "auth/service.go" ++ String "010" "README.md"
           ++ String "010" ".gitignore" ++ String "010" "", None))
    (λ p, if String.eqb p "/w/app/auth/service.go"
          then Some [FuncDecl "Login"; TypeSpec "AuthService"; FuncDecl "authHelper"]
          else Some []).

(** A directory that is no git work tree. *)
Definition no_git_tree : LocalEnv :=
  mkLocalEnv (λ _, Some "stat .git: no such file or directory")
    (λ _, ("", Some "exit status 128")) (λ _, None).

(** A file system that answers every read with the path, and a Go tree in
    /usr/local/go without a module cache. *)
Definition sample_files : FileEnv :=
  mkFileEnv ("/w/app", None)
    (λ name, if String.eqb name "GOROOT"
             then ("/usr/local/go" ++ String "010" "", None)
             else ("", Some "exit status 1"))
    (λ p, ("content of " ++ p, None)).

(** Two requests in flight. *)
Definition two_in_flight : GoplsClient :=
  Call_sent (Call_sent NewClient "workspace/symbol" (JObject []))
    "workspace/symbol" (JObject []).

Section ScoreWords.
Context `{GoLib} `{GoPath}.

(** The reasons the declarations of a file give, none for a file that is
    not a Go file. *)
Definition ast_reasons (le : LocalEnv) (root relPath : string)
    (terms : list string) : list string :=
  if String.eqb (file_ext relPath) ".go"
  then (AnalyzeGoFile le (filepath_Join root relPath) terms).2 else [].

(** [path_has_all_terms], decided. *)
Definition all_terms_in_path (terms : list string) (relPath : string) : bool :=
  match terms with
  | [] => false
  | _ => forallb (strings_Contains (strings_ToLower relPath)) terms
  end.

(** The score of a file before the weight of its extension: 500 for the
    exact name, 50 for a path with all the terms, 40 for every reason of a
    declaration. *)
Definition match_score (le : LocalEnv) (root relPath : string)
    (terms : list string) (queryLower : string) : Z :=
  ((if String.eqb (name_no_ext relPath) queryLower then 500 else 0)
   + (if all_terms_in_path terms relPath then 50 else 0)
   + 40 * Z.of_nat (length (ast_reasons le root relPath terms)))%Z.

End ScoreWords.

(** ** The output of git *)

(** What git prints for a list of paths: every path on a line of its own. *)
Fixpoint lines_out (paths : list string) : string :=
  match paths with
  | [] => ""
  | p :: paths' => p ++ String "010" (lines_out paths')
  end.

(** The same without the line feed after the last path [p]. *)
Fixpoint join_lines (paths : list string) (p : string) : string :=
  match paths with
  | [] => p
  | q :: paths' => q ++ String "010" (join_lines paths' p)
  end.

(** An ASCII byte that is no space: [TrimSpace] stops at it. *)
Definition plain_byte (c : ascii) : bool := is_ascii_byte c && negb (asciiSpace c).

(** No line feed in [p]. *)
Definition one_line (p : string) : bool :=
  all_bytes (λ c, negb (Ascii.eqb c "010")) p.

(* ===================================================================== *)
(** * Part III. Properties                                                  *)
(* ===================================================================== *)

(** ** Lists built by appending in a loop *)

Lemma foldl_app_flat_map {A B : Type} (f : A → list B) (l : list A) (init : list B) :
  foldl (λ acc x, (acc ++ f x)%list) init l = (init ++ flat_map f l)%list.
Proof.
  revert init. induction l as [|x l IH]; intros init; simpl.
  - by rewrite app_nil_r.
  - rewrite IH. by rewrite <- app_assoc.
Qed.

Lemma foldl_ext_eq {A B : Type} (f g : B → A → B) (l : list A) (init : B) :
  (∀ b a, f b a = g b a) → foldl f init l = foldl g init l.
Proof.
  intros Hfg. revert init. induction l as [|x l IH]; intros init; simpl; [done|].
  by rewrite Hfg, IH.
Qed.

(** ** The symbol adapter: filters and score *)

Section SymbolSearchSpec.
Context `{GoLib}.
Local Open Scope Z_scope.

Lemma SymbolSearch_body_output (query : string) (results : list FileScore) (s : Symbol) :
  SymbolSearch_body query (strings_ToLower query) runtime_GOROOT results s
  = (results ++ symbol_output query s)%list.
Proof.
  unfold SymbolSearch_body, symbol_output, passes_filters, name_matches, is_noise,
    symbol_record, symbol_score, match_bonus, kind_bonus, dependency_penalty,
    dependency_test_penalty, is_dependency, symbol_path.
  destruct (strings_Contains (strings_ToLower (Name s)) (strings_ToLower query));
    simpl; [|by rewrite app_nil_r].
  destruct (strings_HasPrefix _ runtime_GOROOT); simpl; [by rewrite app_nil_r|].
  destruct (strings_Contains _ "/vendor/"); simpl; [by rewrite app_nil_r|].
  destruct (strings_Contains _ "/.cache/"); simpl; [by rewrite app_nil_r|].
  destruct (strings_Contains _ "/pkg/mod/"), (strings_EqualFold (Name s) query),
    (strings_HasPrefix (strings_ToLower (Name s)) (strings_ToLower query)),
    (Kind s =? 5), (Kind s =? 11), (Kind s =? 12),
    (strings_HasSuffix _ "_test.go"); simpl; by rewrite ?app_nil_r.
Qed.

Lemma SymbolSearch_loop_output (query : string) (symbols : list Symbol) :
  SymbolSearch_loop query symbols = flat_map (symbol_output query) symbols.
Proof.
  unfold SymbolSearch_loop.
  rewrite (foldl_ext_eq _ (λ acc s, (acc ++ symbol_output query s)%list)).
  - by rewrite foldl_app_flat_map.
  - intros. apply SymbolSearch_body_output.
Qed.

(** C4. Every symbol that passes the filters gets the score
    50 + (50 on a case-insensitive match of the whole query, else 20 on a
    prefix match of the lower-cased name) + (10 for kind 5, 11 or 12)
    - (25 for a dependency) - (50 more for a dependency whose path ends in
    _test.go); its record is emitted with that score when the score is
    positive and no record is emitted for it when the score is 0 or less.
    A symbol that fails a filter emits nothing. *)
Theorem SymbolSearch_scoring (query : string) (symbols : list Symbol) :
  SymbolSearch_loop query symbols
  = flat_map
      (λ s, if passes_filters query s
            then if symbol_score query s <=? 0 then []
                 else [mkFileScore (symbol_path s) (symbol_score query s)
                         ["gopls:" ++ Name s] (is_dependency s)]
            else [])
      symbols
  ∧ ∀ s, symbol_score query s
         = 50
           + (if strings_EqualFold (Name s) query then 50
              else if strings_HasPrefix (strings_ToLower (Name s))
                        (strings_ToLower query) then 20 else 0)
           + (if (Kind s =? 5) || (Kind s =? 11) || (Kind s =? 12) then 10 else 0)
           - (if is_dependency s then 25 else 0)
           - (if is_dependency s && strings_HasSuffix (symbol_path s) "_test.go"
              then 50 else 0).
Proof.
  split; [|done].
  rewrite SymbolSearch_loop_output. apply flat_map_ext. intros s.
  unfold symbol_output, symbol_record.
  destruct (passes_filters query s); simpl; [|done].
  destruct (Z.ltb_spec 0 (symbol_score query s)), (Z.leb_spec (symbol_score query s) 0);
    try done; lia.
Qed.

Lemma HasPrefix_refl (s : string) : strings_HasPrefix s s = true.
Proof. induction s as [|c s IH]; simpl; [done|]. by rewrite Ascii.eqb_refl. Qed.

Lemma HasPrefix_app_l (s p q : string) :
  strings_HasPrefix s (p ++ q) = true → strings_HasPrefix s p = true.
Proof.
  revert s. induction p as [|c p IH]; intros s; [done|].
  change (String c p ++ q) with (String c (p ++ q)). simpl.
  destruct s as [|d s]; [done|]. destruct (Ascii.eqb d c); [apply IH|done].
Qed.

Lemma lies_under_HasPrefix (root path : string) :
  lies_under root path → strings_HasPrefix path root = true.
Proof.
  intros [->|Hp]; [apply HasPrefix_refl|by eapply HasPrefix_app_l].
Qed.

Lemma symbol_output_elem (query : string) (s : Symbol) (fs : FileScore) :
  fs ∈ symbol_output query s →
  fs = symbol_record query s ∧ passes_filters query s = true
  ∧ 0 < symbol_score query s.
Proof.
  unfold symbol_output. destruct (passes_filters query s); simpl; [|by inversion 1].
  destruct (Z.ltb_spec 0 (symbol_score query s)); [|by inversion 1].
  intros ->%list_elem_of_singleton. done.
Qed.

(** C5. A symbol is kept only if the lower-cased query is a contiguous
    substring of its lower-cased name; a symbol whose path (the URI without
    "file://") lies under the Go root, or contains "/vendor/" or "/.cache/",
    is dropped; and a kept record is flagged as a dependency exactly when its
    path contains "/pkg/mod/". *)
Theorem SymbolSearch_filters (query : string) (symbols : list Symbol) :
  (∀ fs, fs ∈ SymbolSearch_loop query symbols →
     ∃ s, s ∈ symbols
          ∧ Path fs = strings_TrimPrefix (Location_URI s) "file://"
          ∧ strings_Contains (strings_ToLower (Name s)) (strings_ToLower query) = true
          ∧ strings_HasPrefix (Path fs) runtime_GOROOT = false
          ∧ strings_Contains (Path fs) "/vendor/" = false
          ∧ strings_Contains (Path fs) "/.cache/" = false
          ∧ IsDep fs = strings_Contains (Path fs) "/pkg/mod/")
  ∧ (∀ results s,
       strings_Contains (strings_ToLower (Name s)) (strings_ToLower query) = false →
       SymbolSearch_body query (strings_ToLower query) runtime_GOROOT results s
       = results)
  ∧ (∀ results s,
       lies_under runtime_GOROOT (symbol_path s)
       ∨ strings_Contains (symbol_path s) "/vendor/" = true
       ∨ strings_Contains (symbol_path s) "/.cache/" = true →
       SymbolSearch_body query (strings_ToLower query) runtime_GOROOT results s
       = results).
Proof.
  split; [|split].
  - intros fs. rewrite SymbolSearch_loop_output.
    intros Hin. apply list_elem_of_In, in_flat_map in Hin as (s & Hs & Hfs).
    apply list_elem_of_In in Hs, Hfs.
    apply symbol_output_elem in Hfs as (-> & Hpass & _).
    exists s. split; [done|]. simpl.
    unfold passes_filters, name_matches, is_noise in Hpass.
    apply andb_prop in Hpass as [Hm Hn]. apply negb_true_iff in Hn.
    apply orb_false_elim in Hn as [Hn Hc]. apply orb_false_elim in Hn as [Hr Hv].
    done.
  - intros results s Hm. rewrite SymbolSearch_body_output.
    unfold symbol_output, passes_filters, name_matches. rewrite Hm. simpl.
    by rewrite app_nil_r.
  - intros results s Hn. rewrite SymbolSearch_body_output.
    assert (is_noise s = true) as Hnoise.
    { unfold is_noise. destruct Hn as [Hr|[Hv|Hc]].
      - by rewrite (lies_under_HasPrefix _ _ Hr).
      - rewrite Hv. by rewrite orb_true_r.
      - rewrite Hc. by rewrite orb_true_r. }
    unfold symbol_output, passes_filters. rewrite Hnoise, andb_false_r. simpl.
    by rewrite app_nil_r.
Qed.
End SymbolSearchSpec.

(** The two filtering scenarios of the adapter, run on ASCII strings with
    the Go tree in /usr/local/go. *)
Example SymbolSearch_vendored_excluded :
  SymbolSearch_loop "helper"
    [mkSymbol "InternalHelper" 12 "pkg" "file:///w/app/vendor/x/helper.go"] = [].
Proof. reflexivity. Qed.

Example SymbolSearch_exact_match :
  SymbolSearch_loop "unmarshal"
    [mkSymbol "Unmarshal" 12 "json" "file:///w/app/codec/decode.go"]
  = [mkFileScore "/w/app/codec/decode.go" 110 ["gopls:Unmarshal"] false].
Proof. reflexivity. Qed.

Example SymbolSearch_dependency_test_dropped :
  SymbolSearch_loop "unmarshal"
    [mkSymbol "TestUnmarshalAll" 12 "json"
       "file:///home/u/go/pkg/mod/m@v1/decode_test.go";
     mkSymbol "UnmarshalAll" 13 "json"
       "file:///home/u/go/pkg/mod/m@v1/decode.go"]
  = [mkFileScore "/home/u/go/pkg/mod/m@v1/decode.go" 45 ["gopls:UnmarshalAll"] true].
Proof. reflexivity. Qed.

(** ** The protocol client: registry, timeout and dispatch *)

Section Client.
Local Open Scope Z_scope.

Lemma wf_NewClient : wf NewClient.
Proof. split; intros; simpl in *; by simplify_map_eq. Qed.

Lemma handleMessage_seq (c : GoplsClient) (body : Body) :
  seq (handleMessage c body) = seq c.
Proof.
  destruct body as [resp|]; simpl; [|done].
  destruct (resp_ID resp =? 0); [done|].
  by destruct (pending c !! resp_ID resp).
Qed.

Lemma handleMessage_next_chan (c : GoplsClient) (body : Body) :
  next_chan (handleMessage c body) = next_chan c.
Proof.
  destruct body as [resp|]; simpl; [|done].
  destruct (resp_ID resp =? 0); [done|].
  by destruct (pending c !! resp_ID resp).
Qed.

Lemma handleMessage_stdin (c : GoplsClient) (body : Body) :
  stdin (handleMessage c body) = stdin c.
Proof.
  destruct body as [resp|]; simpl; [|done].
  destruct (resp_ID resp =? 0); [done|].
  by destruct (pending c !! resp_ID resp).
Qed.

Lemma handleMessage_wf (c : GoplsClient) (body : Body) :
  wf c → wf (handleMessage c body).
Proof.
  intros [Hp Hc]. destruct body as [resp|]; simpl; [|done].
  destruct (resp_ID resp =? 0); [done|].
  destruct (pending c !! resp_ID resp) as [ch|] eqn:Hl; [|done].
  split; simpl.
  - intros id ch' Hd. apply lookup_delete_Some in Hd as [_ Hd]. eauto.
  - intros ch' Hle. apply Hp in Hl. rewrite lookup_insert_ne by lia. auto.
Qed.

(** A response for an identifier that is not registered changes nothing:
    nothing is deleted and no channel receives a value. *)
Lemma handleMessage_unmatched (c : GoplsClient) (resp : JsonRpcResp) :
  pending c !! resp_ID resp = None → handleMessage c (Some resp) = c.
Proof.
  intros Hl. simpl. destruct (resp_ID resp =? 0); [done|]. by rewrite Hl.
Qed.

Lemma handleMessage_waiting (id : Z) (ch : chan) (c : GoplsClient) (body : Body) :
  (∀ resp, body = Some resp → resp_ID resp ≠ id) →
  waiting id ch c → waiting id ch (handleMessage c body).
Proof.
  intros Hne (Hp & Hc & Ho). destruct body as [resp|]; simpl; [|done].
  destruct (resp_ID resp =? 0); [done|].
  destruct (pending c !! resp_ID resp) as [ch'|] eqn:Hl; [|done].
  specialize (Hne resp eq_refl). repeat split; simpl.
  - by rewrite lookup_delete_ne.
  - rewrite lookup_insert_ne; [done|]. by eapply Ho.
  - intros id' ch'' Hd Hid. apply lookup_delete_Some in Hd as [_ Hd]. eauto.
Qed.

Lemma foldl_handleMessage_waiting (id : Z) (ch : chan) (bodies : list Body)
    (c : GoplsClient) :
  (∀ resp, Some resp ∈ bodies → resp_ID resp ≠ id) →
  waiting id ch c → waiting id ch (foldl handleMessage c bodies).
Proof.
  revert c. induction bodies as [|b bodies IH]; intros c Hne Hw; simpl; [done|].
  apply IH.
  - intros resp Hin. apply Hne. by right.
  - apply handleMessage_waiting; [|done].
    intros resp ->. apply Hne. by left.
Qed.

Lemma before_deadline_elem (arrivals : list Arrival) (b : Body) :
  b ∈ before_deadline arrivals ↔
  ∃ a, a ∈ arrivals ∧ arr_at a < callTimeout ∧ arr_body a = b.
Proof.
  unfold before_deadline. rewrite list_elem_of_fmap. split.
  - intros (a & -> & Ha). apply list_elem_of_filter in Ha as [Hlt Hin]. eauto.
  - intros (a & Hin & Hlt & <-). exists a. split; [done|].
    by apply list_elem_of_filter.
Qed.

Lemma Call_written (c : GoplsClient) (method : string) (params : JSON)
    (arrivals : list Arrival) :
  Call c method params None arrivals
  = let c3 := foldl handleMessage (Call_sent c method params)
                (before_deadline arrivals) in
    match chans c3 !! next_chan c with
    | Some res => mkCallReturn res None (set_chans (delete (next_chan c) (chans c3)) c3)
    | None => mkCallReturn RawNil (Some errTimeout)
                (set_pending (delete (nextID c) (pending c3)) c3)
    end.
Proof. reflexivity. Qed.

Lemma Call_sent_waiting (c : GoplsClient) (method : string) (params : JSON) :
  wf c → waiting (nextID c) (next_chan c) (Call_sent c method params).
Proof.
  intros [Hp Hc]. repeat split; simpl.
  - by rewrite lookup_insert_eq.
  - by apply Hc.
  - intros id' ch' Hl Hne. rewrite lookup_insert_ne in Hl by done.
    apply Hp in Hl. lia.
Qed.

(** C1. A call whose request is written and whose response does not arrive
    before the five-second deadline fails with the timeout error, and the
    registry has no entry for its identifier afterwards; a response for that
    identifier handled after the eviction leaves the client as it is: nothing
    is resolved, no channel receives a value, and the dispatcher raises
    nothing. *)
Theorem Call_timeout_evicts (c : GoplsClient) (method : string) (params : JSON)
    (arrivals : list Arrival) :
  wf c →
  (∀ a resp, a ∈ arrivals → arr_at a < callTimeout →
             arr_body a = Some resp → resp_ID resp ≠ nextID c) →
  let r := Call c method params None arrivals in
  callTimeout = 5 * 1000000000
  ∧ ret_err r = Some errTimeout
  ∧ ret_res r = RawNil
  ∧ pending (ret_client r) !! nextID c = None
  ∧ ∀ late : JsonRpcResp,
      resp_ID late = nextID c →
      handleMessage (ret_client r) (Some late) = ret_client r.
Proof.
  intros Hwf Hnone r. split; [done|].
  pose proof (Call_sent_waiting c method params Hwf) as Hw.
  eapply (foldl_handleMessage_waiting _ _ (before_deadline arrivals)) in Hw.
  2:{ intros resp Hin. apply before_deadline_elem in Hin as (a & Hin & Hlt & Hb).
      eauto. }
  destruct Hw as (Hp & Hc & _).
  subst r. rewrite Call_written. cbv zeta. rewrite Hc. simpl.
  repeat split.
  - by rewrite lookup_delete_eq.
  - intros late Hid. apply handleMessage_unmatched. simpl.
    rewrite Hid. by rewrite lookup_delete_eq.
Qed.

(** The theorem at the fresh client: one message for another identifier
    arrives in time, the response to the call arrives a second too late. *)
Lemma Call_timeout_evicts_witness :
  let arrivals := [mkArrival 1000 (Some (mkResp 7 RawNil));
                   mkArrival (6 * Second) (Some (mkResp 1 (RawSymbols [])))] in
  let r := Call NewClient "workspace/symbol" (JObject []) None arrivals in
  ret_err r = Some errTimeout
  ∧ pending (ret_client r) !! 1 = None
  ∧ handleMessage (ret_client r) (Some (mkResp 1 (RawSymbols []))) = ret_client r.
Proof.
  intros arrivals r.
  assert (wf NewClient) as Hwf by exact wf_NewClient.
  assert (∀ a resp, a ∈ arrivals → arr_at a < callTimeout →
                    arr_body a = Some resp → resp_ID resp ≠ nextID NewClient) as Hn.
  { intros a resp Hin Hlt Hb. subst arrivals.
    apply elem_of_cons in Hin as [->|Hin].
    - simpl in Hb. injection Hb as <-. simpl. by vm_compute.
    - apply list_elem_of_singleton in Hin as ->. simpl in Hlt. by vm_compute in Hlt. }
  destruct (Call_timeout_evicts NewClient "workspace/symbol" (JObject []) arrivals
              Hwf Hn) as (_ & He & _ & Hp & Hl).
  split; [exact He|]. split; [exact Hp|]. apply Hl. reflexivity.
Defined.

(** A call whose write fails returns the write error at once and leaves no
    entry behind either. *)
Lemma Call_write_failure_evicts (c : GoplsClient) (method : string) (params : JSON)
    (err : error) (arrivals : list Arrival) :
  let r := Call c method params (Some err) arrivals in
  ret_err r = Some err ∧ ret_res r = RawNil
  ∧ pending (ret_client r) !! nextID c = None
  ∧ stdin (ret_client r) = stdin c.
Proof. simpl. repeat split. by rewrite lookup_delete_eq. Qed.

(** The invariant holds in every state the client reaches. *)
Lemma foldl_handleMessage_wf (bodies : list Body) (c : GoplsClient) :
  wf c → wf (foldl handleMessage c bodies).
Proof.
  revert c. induction bodies as [|b bodies IH]; intros c Hwf; simpl; [done|].
  by apply IH, handleMessage_wf.
Qed.

Lemma Call_sent_wf (c : GoplsClient) (method : string) (params : JSON) :
  wf c → wf (Call_sent c method params).
Proof.
  intros [Hp Hc]. split; simpl.
  - intros id ch Hl. apply lookup_insert_Some in Hl as [[_ <-]|[_ Hl]]; [lia|].
    apply Hp in Hl. lia.
  - intros ch Hle. apply Hc. lia.
Qed.

Lemma Call_wf (c : GoplsClient) (method : string) (params : JSON)
    (wr : option error) (arrivals : list Arrival) :
  wf c → wf (ret_client (Call c method params wr arrivals)).
Proof.
  intros Hwf. destruct wr as [err|].
  - destruct Hwf as [Hp Hc]. split; simpl.
    + intros id ch Hl. apply lookup_delete_Some in Hl as [_ Hl].
      apply lookup_insert_Some in Hl as [[_ <-]|[_ Hl]]; [lia|].
      apply Hp in Hl. lia.
    + intros ch Hle. apply Hc. lia.
  - rewrite Call_written. cbv zeta.
    pose proof (foldl_handleMessage_wf (before_deadline arrivals) _
                  (Call_sent_wf c method params Hwf)) as [Hp Hc].
    destruct (chans _ !! next_chan c); split; simpl.
    + done.
    + intros ch Hle. rewrite lookup_delete_None. right. by apply Hc.
    + intros id ch Hl. apply lookup_delete_Some in Hl as [_ Hl]. eauto.
    + done.
Qed.

Lemma Notify_wf (c : GoplsClient) (method : string) (params : JSON)
    (wr : option error) :
  wf c → wf (Notify c method params wr).1.
Proof. intros [Hp Hc]. by destruct wr. Qed.

Lemma handleMessage_delivered (id : Z) (ch : chan) (res : RawMessage)
    (c : GoplsClient) (body : Body) :
  delivered id ch res c → delivered id ch res (handleMessage c body).
Proof.
  intros (Hp & Hc & Ho). destruct body as [resp|]; simpl; [|done].
  destruct (resp_ID resp =? 0); [done|].
  destruct (pending c !! resp_ID resp) as [ch'|] eqn:Hl; [|done].
  repeat split; simpl.
  - apply lookup_delete_None. by right.
  - rewrite lookup_insert_ne; [done|]. by eapply Ho.
  - intros id' ch'' Hd. apply lookup_delete_Some in Hd as [_ Hd]. eauto.
Qed.

Lemma foldl_handleMessage_delivered (id : Z) (ch : chan) (res : RawMessage)
    (bodies : list Body) (c : GoplsClient) :
  delivered id ch res c → delivered id ch res (foldl handleMessage c bodies).
Proof.
  revert c. induction bodies as [|b bodies IH]; intros c Hd; simpl; [done|].
  by apply IH, handleMessage_delivered.
Qed.

(** A call whose response is dispatched before the deadline returns the
    result of the first response that carries its identifier, whatever else
    is dispatched before or after it; its entry is gone afterwards. *)
Lemma Call_receives_own_response (c : GoplsClient) (method : string) (params : JSON)
    (arrivals : list Arrival) (earlier later : list Body) (resp : JsonRpcResp) :
  wf c →
  nextID c ≠ 0 →
  before_deadline arrivals = (earlier ++ Some resp :: later)%list →
  (∀ r, Some r ∈ earlier → resp_ID r ≠ nextID c) →
  resp_ID resp = nextID c →
  let r := Call c method params None arrivals in
  ret_res r = resp_Result resp ∧ ret_err r = None
  ∧ pending (ret_client r) !! nextID c = None.
Proof.
  intros Hwf Hid Hsplit Hearlier Hresp r. subst r.
  rewrite Call_written. cbv zeta. rewrite Hsplit, foldl_app. simpl.
  pose proof (foldl_handleMessage_waiting _ _ earlier _ Hearlier
                (Call_sent_waiting c method params Hwf)) as (Hp & Hc & Ho).
  set (c1 := foldl handleMessage (Call_sent c method params) earlier) in *.
  assert (delivered (nextID c) (next_chan c) (resp_Result resp)
            (handleMessage c1 (Some resp))) as Hd.
  { simpl. rewrite Hresp. apply Z.eqb_neq in Hid. rewrite Hid, Hp.
    repeat split; simpl.
    - by rewrite lookup_delete_eq.
    - by rewrite lookup_insert_eq.
    - intros id' ch' Hl. apply lookup_delete_Some in Hl as [Hne Hl]. eauto. }
  apply (foldl_handleMessage_delivered _ _ _ later) in Hd as (Hp' & Hc' & _).
  simpl in Hc'. rewrite Hc'. done.
Qed.

(** *** Identifier allocation *)

Lemma wrap64_small (x : Z) : - 2 ^ 63 ≤ x < 2 ^ 63 → wrap64 x = x.
Proof. intros Hx. unfold wrap64. rewrite Z.mod_small; lia. Qed.

Lemma wrap64_add (x y : Z) : wrap64 (wrap64 x + y) = wrap64 (x + y).
Proof.
  unfold wrap64.
  replace ((x + 2 ^ 63) mod 2 ^ 64 - 2 ^ 63 + y + 2 ^ 63)
    with ((x + 2 ^ 63) mod 2 ^ 64 + y) by lia.
  rewrite Zplus_mod_idemp_l. do 2 f_equal. lia.
Qed.

(** Whatever happens to a call, the counter afterwards is the identifier it
    took; nothing else writes the counter. *)
Lemma foldl_handleMessage_seq (bodies : list Body) (c : GoplsClient) :
  seq (foldl handleMessage c bodies) = seq c.
Proof.
  revert c. induction bodies as [|b bodies IH]; intros c; simpl; [done|].
  by rewrite IH, handleMessage_seq.
Qed.

Lemma Call_seq (c : GoplsClient) (method : string) (params : JSON)
    (wr : option error) (arrivals : list Arrival) :
  seq (ret_client (Call c method params wr arrivals)) = nextID c.
Proof.
  destruct wr as [err|]; [done|]. rewrite Call_written. cbv zeta.
  destruct (chans _ !! next_chan c); simpl; by rewrite foldl_handleMessage_seq.
Qed.

(** The request written carries the identifier taken. *)
Lemma Call_sent_request (c : GoplsClient) (method : string) (params : JSON) :
  last (stdin (Call_sent c method params))
  = Some (MsgRequest (mkReq "2.0" (nextID c) method params)).
Proof. simpl. by rewrite last_snoc. Qed.

Lemma assigned_ids_length (calls : list CallArgs) (c : GoplsClient) :
  length (assigned_ids c calls) = length calls.
Proof.
  revert c. induction calls as [|a calls IH]; intros c; simpl; [done|].
  by rewrite IH.
Qed.

(** The [k]-th identifier of a run is the counter advanced [k+1] times,
    wrapped. *)
Lemma assigned_ids_lookup (calls : list CallArgs) (c : GoplsClient) (k : nat) :
  (k < length calls)%nat →
  assigned_ids c calls !! k = Some (wrap64 (seq c + Z.of_nat k + 1)).
Proof.
  revert c k. induction calls as [|a calls IH]; intros c k Hk; simpl in *; [lia|].
  unfold Call_with. destruct k as [|k]; simpl.
  - rewrite Call_seq. unfold nextID, atomic_AddInt64. do 2 f_equal. lia.
  - rewrite IH by lia. rewrite Call_seq. unfold nextID, atomic_AddInt64.
    f_equal.
    replace (wrap64 (seq c + 1) + Z.of_nat k + 1)
      with (wrap64 (seq c + 1) + (Z.of_nat k + 1)) by lia.
    rewrite wrap64_add. f_equal. lia.
Qed.

(** C7, as the code has it. From a counter that is not negative, a run of
    calls that stays below 2^63 takes the identifiers seq+1, seq+2, ...: they
    are strictly increasing and at least 1, so 0 is never assigned. For the
    client [InitGopls] builds (counter 0) this is every run of fewer than
    2^63 calls. *)
Theorem assigned_ids_increasing (c : GoplsClient) (calls : list CallArgs) :
  0 ≤ seq c →
  seq c + Z.of_nat (length calls) < 2 ^ 63 →
  (∀ k, (k < length calls)%nat →
        assigned_ids c calls !! k = Some (seq c + Z.of_nat k + 1))
  ∧ (∀ i j x y, (i < j)%nat →
        assigned_ids c calls !! i = Some x →
        assigned_ids c calls !! j = Some y → x < y)
  ∧ (∀ x, x ∈ assigned_ids c calls → 1 ≤ x ∧ x ≠ 0).
Proof.
  intros Hseq Hbound.
  assert (∀ k, (k < length calls)%nat →
               assigned_ids c calls !! k = Some (seq c + Z.of_nat k + 1)) as Hk.
  { intros k Hlt. rewrite assigned_ids_lookup by done.
    f_equal. apply wrap64_small. lia. }
  split; [exact Hk|]. split.
  - intros i j x y Hij Hi Hj.
    assert (j < length calls)%nat as Hjl.
    { rewrite <- (assigned_ids_length calls c). by eapply lookup_lt_Some. }
    rewrite Hk in Hi, Hj by lia. injection Hi as <-. injection Hj as <-. lia.
  - intros x Hin. apply list_elem_of_lookup in Hin as [k Hx].
    assert (k < length calls)%nat as Hkl.
    { rewrite <- (assigned_ids_length calls c). by eapply lookup_lt_Some. }
    rewrite Hk in Hx by done. injection Hx as <-. lia.
Qed.

(** The theorem at the fresh client and three calls, one of which fails to
    write and one of which times out. *)
Lemma assigned_ids_increasing_witness :
  let calls := [mkCallArgs "initialize" (JObject []) None
                  [mkArrival 5 (Some (mkResp 1 (RawOther [])))];
                mkCallArgs "workspace/symbol" (JObject []) (Some "broken pipe") [];
                mkCallArgs "workspace/symbol" (JObject []) None []] in
  assigned_ids NewClient calls !! 0%nat = Some 1
  ∧ assigned_ids NewClient calls !! 1%nat = Some 2
  ∧ assigned_ids NewClient calls !! 2%nat = Some 3.
Proof.
  intros calls.
  assert (0 ≤ seq NewClient) as H0 by (simpl; lia).
  assert (seq NewClient + Z.of_nat (length calls) < 2 ^ 63) as Hb by (simpl; lia).
  destruct (assigned_ids_increasing NewClient calls H0 Hb) as (Hk & _ & _).
  repeat split; apply Hk; simpl; lia.
Defined.

(** The counter is an [int64]: the call number 2^63 of a client takes the
    identifier -2^63, below the identifier 2^63-1 of the call before it, and
    the call number 2^64 takes the identifier 0. *)
Lemma assigned_ids_wrap_around :
  let a := mkCallArgs "workspace/symbol" (JObject []) None [] in
  assigned_ids NewClient (replicate (Z.to_nat (2 ^ 63)) a)
    !! Z.to_nat (2 ^ 63 - 2) = Some MaxInt64
  ∧ assigned_ids NewClient (replicate (Z.to_nat (2 ^ 63)) a)
      !! Z.to_nat (2 ^ 63 - 1) = Some MinInt64
  ∧ MinInt64 < MaxInt64
  ∧ assigned_ids NewClient (replicate (Z.to_nat (2 ^ 64)) a)
      !! Z.to_nat (2 ^ 64 - 1) = Some 0.
Proof.
  intros a.
  assert (∀ n k : Z, 0 ≤ k < n →
            assigned_ids NewClient (replicate (Z.to_nat n) a) !! Z.to_nat k
            = Some (wrap64 (k + 1))) as Hk.
  { intros n k Hkn. rewrite assigned_ids_lookup.
    - rewrite Z2Nat.id by lia. by change (seq NewClient) with 0.
    - rewrite length_replicate. lia. }
  split; [|split; [|split]].
  - rewrite Hk by lia. reflexivity.
  - rewrite Hk by lia. reflexivity.
  - reflexivity.
  - rewrite Hk by lia. reflexivity.
Qed.

(** *** The handshake *)

Lemma foldl_handleMessage_stdin (bodies : list Body) (c : GoplsClient) :
  stdin (foldl handleMessage c bodies) = stdin c.
Proof.
  revert c. induction bodies as [|b bodies IH]; intros c; simpl; [done|].
  by rewrite IH, handleMessage_stdin.
Qed.

(** What a call leaves on the wire: its request, unless the write failed. *)
Lemma Call_stdin (c : GoplsClient) (method : string) (params : JSON)
    (wr : option error) (arrivals : list Arrival) :
  stdin (ret_client (Call c method params wr arrivals))
  = match wr with
    | Some _ => stdin c
    | None => (stdin c ++ [MsgRequest (mkReq "2.0" (nextID c) method params)])%list
    end.
Proof.
  destruct wr as [err|]; [done|]. rewrite Call_written. cbv zeta.
  destruct (chans _ !! next_chan c); simpl; by rewrite foldl_handleMessage_stdin.
Qed.

(** A write that fails makes the call fail. *)
Lemma Call_write_error (c : GoplsClient) (method : string) (params : JSON)
    (err : error) (arrivals : list Arrival) :
  ret_err (Call c method params (Some err) arrivals) = Some err.
Proof. reflexivity. Qed.

(** C8, as the code has it. When gopls is found and started, the client
    writes one request "initialize" with identifier 1 and the parameters
    processId, rootUri "file://"+rootPath and empty capabilities, and waits
    for it. If that call returns an error, nothing more is written and
    [GoplsInstance] stays nil. If it returns without error, the notification
    "initialized" with empty parameters is written next, and [GoplsInstance]
    is set exactly when the result of the call is not nil. So the singleton
    is ready only if the initialize call succeeded. *)
Theorem InitGopls_handshake (env : InitEnv) (rootPath : string) :
  env_LookPath env = None →
  env_Start env = None →
  let call := Call NewClient "initialize" (initParams (env_Getpid env) rootPath)
                (env_init_write env) (env_init_arrivals env) in
  let r := InitGopls env rootPath in
  match ret_err call with
  | Some _ =>
      GoplsInstance r = None
      ∧ init_wire r = match env_init_write env with
                      | None => [initializeRequest (env_Getpid env) rootPath]
                      | Some _ => []
                      end
      ∧ initializedNotification ∉ init_wire r
  | None =>
      env_init_write env = None
      ∧ init_wire r
        = initializeRequest (env_Getpid env) rootPath
          :: match env_notify_write env with
             | None => [initializedNotification]
             | Some _ => []
             end
      ∧ (is_Some (GoplsInstance r) ↔ ret_res call ≠ RawNil)
  end
  ∧ (is_Some (GoplsInstance r) → ret_err call = None).
Proof.
  intros HL HS call r. subst r. unfold InitGopls. rewrite HL, HS.
  fold call.
  assert (stdin (ret_client call)
          = match env_init_write env with
            | None => [initializeRequest (env_Getpid env) rootPath]
            | Some _ => []
            end) as Hwire.
  { subst call. rewrite Call_stdin. by destruct (env_init_write env). }
  destruct (ret_err call) as [err|] eqn:Herr; simpl.
  - split; [|by intros [? ?]]. split; [done|]. split; [done|].
    rewrite Hwire. destruct (env_init_write env).
    + apply not_elem_of_nil.
    + intros Hin%list_elem_of_singleton. discriminate.
  - assert (env_init_write env = None) as Hw.
    { destruct (env_init_write env) as [e|] eqn:Hw; [|done].
      subst call. by rewrite Call_write_error in Herr. }
    split; [|done]. split; [done|].
    unfold Notify, write. rewrite Hw in Hwire.
    destruct (env_notify_write env) as [e|]; simpl.
    + destruct (ret_res call); simpl; rewrite Hwire; (split; [done|]).
      * split; [by intros [? ?]|done].
      * split; [done|eauto].
      * split; [done|eauto].
    + destruct (ret_res call); simpl; rewrite Hwire; (split; [done|]).
      * split; [by intros [? ?]|done].
      * split; [done|eauto].
      * split; [done|eauto].
Qed.

(** The theorem where gopls answers the initialize request in time. *)
Lemma InitGopls_handshake_witness :
  let env := mkInitEnv None None 4242 None
               [mkArrival 1000 (Some (mkResp 1 (RawOther [])))] None in
  init_wire (InitGopls env "/w/app")
  = [initializeRequest 4242 "/w/app"; initializedNotification]
  ∧ is_Some (GoplsInstance (InitGopls env "/w/app")).
Proof.
  intros env.
  pose proof (InitGopls_handshake env "/w/app" eq_refl eq_refl) as Hh.
  cbv zeta in Hh.
  assert (ret_err (Call NewClient "initialize" (initParams (env_Getpid env) "/w/app")
                     (env_init_write env) (env_init_arrivals env)) = None) as He
    by (by vm_compute).
  rewrite He in Hh. destruct Hh as [(_ & Hw & Hi) _].
  split; [exact Hw|]. apply Hi. by vm_compute.
Defined.

(** The initialize call times out: gopls is not ready, and the notification
    "initialized" is never written. *)
Lemma InitGopls_timeout_sends_no_notification :
  InitGopls (mkInitEnv None None 4242 None [] None) "/w/app"
  = mkInitResult None [initializeRequest 4242 "/w/app"].
Proof. by vm_compute. Qed.

End Client.

(** ** [sort.Slice] rearranges: the model only ever swaps *)

Section PdqsortPermutation.
Context {A : Type} (less : A → A → bool).
Implicit Types data : list A.

Lemma insert_head_Permutation data (j : nat) (x y : A) :
  data !! j = Some y → y :: <[j := x]> data ≡ₚ x :: data.
Proof.
  revert j. induction data as [|h t IH]; intros [|j] Hj; simpl in *; try done.
  - injection Hj as ->. apply perm_swap.
  - rewrite (perm_swap h y). rewrite (IH j Hj). apply perm_swap.
Qed.

Lemma Swap_Permutation data (i j : nat) : Swap data i j ≡ₚ data.
Proof.
  unfold Swap.
  destruct (data !! i) as [x|] eqn:Hi; [|done].
  destruct (data !! j) as [y|] eqn:Hj; [|done].
  revert i j Hi Hj. induction data as [|h t IH]; intros [|i] [|j] Hi Hj;
    simpl in *; try done.
  - by injection Hi as ->.
  - injection Hi as ->. by apply insert_head_Permutation.
  - injection Hj as ->. by apply insert_head_Permutation.
  - by rewrite (IH i j).
Qed.

Lemma Swap_length data (i j : nat) : length (Swap data i j) = length data.
Proof. apply Permutation_length, Swap_Permutation. Qed.

Lemma foldl_Permutation {B : Type} (f : list A → B → list A) (l : list B) data :
  (∀ d b, f d b ≡ₚ d) → foldl f data l ≡ₚ data.
Proof.
  intros Hf. revert data. induction l as [|b l IH]; intros data; simpl; [done|].
  by rewrite IH, Hf.
Qed.

Lemma insertionSort_inner_Permutation (a j : nat) data :
  insertionSort_inner less a j data ≡ₚ data.
Proof.
  revert data. induction j as [|j IH]; intros data; simpl; [done|].
  destruct (_ && _); [|done]. by rewrite IH, Swap_Permutation.
Qed.

Lemma insertionSort_Permutation data (a b : nat) :
  insertionSort less data a b ≡ₚ data.
Proof.
  unfold insertionSort. apply foldl_Permutation.
  intros. apply insertionSort_inner_Permutation.
Qed.

Lemma siftDown_Permutation (fuel : nat) data (root hi first : nat) :
  siftDown less fuel data root hi first ≡ₚ data.
Proof.
  revert data root. induction fuel as [|fuel IH]; intros data root; simpl; [done|].
  repeat case_match; try done; by rewrite IH, Swap_Permutation.
Qed.

Lemma heapSort_Permutation data (a b : nat) : heapSort less data a b ≡ₚ data.
Proof.
  unfold heapSort. rewrite foldl_Permutation.
  - apply foldl_Permutation. intros. apply siftDown_Permutation.
  - intros. by rewrite siftDown_Permutation, Swap_Permutation.
Qed.

Lemma reverseRange_loop_Permutation (fuel : nat) data (i j : nat) :
  reverseRange_loop fuel data i j ≡ₚ data.
Proof.
  revert data i j. induction fuel as [|fuel IH]; intros data i j; simpl; [done|].
  destruct (i <? j)%nat; [|done]. by rewrite IH, Swap_Permutation.
Qed.

Lemma reverseRange_Permutation data (a b : nat) : reverseRange data a b ≡ₚ data.
Proof. apply reverseRange_loop_Permutation. Qed.

Lemma shift_left_Permutation (j : nat) data : shift_left less j data ≡ₚ data.
Proof.
  revert data. induction j as [|j IH]; intros data; simpl; [done|].
  destruct (negb _); [done|]. by rewrite IH, Swap_Permutation.
Qed.

Lemma shift_right_Permutation (fuel : nat) data (j b : nat) :
  shift_right less fuel data j b ≡ₚ data.
Proof.
  revert data j. induction fuel as [|fuel IH]; intros data j; simpl; [done|].
  destruct (j <? b)%nat; [|done]. destruct (negb _); [done|].
  by rewrite IH, Swap_Permutation.
Qed.

Lemma partialInsertionSort_loop_Permutation (steps : nat) data (a b i : nat) :
  (partialInsertionSort_loop less steps data a b i).1 ≡ₚ data.
Proof.
  revert data i. induction steps as [|steps IH]; intros data i; simpl; [done|].
  repeat case_match; try done; rewrite IH;
    by rewrite ?shift_right_Permutation, ?shift_left_Permutation, Swap_Permutation.
Qed.

Lemma partialInsertionSort_Permutation data (a b : nat) :
  (partialInsertionSort less data a b).1 ≡ₚ data.
Proof. apply partialInsertionSort_loop_Permutation. Qed.

Lemma partition_loop_Permutation (fuel : nat) data (a i j : nat) :
  (partition_loop less fuel data a i j).1 ≡ₚ data.
Proof.
  revert data i j. induction fuel as [|fuel IH]; intros data i j; simpl; [done|].
  case_match; [done|]. by rewrite IH, Swap_Permutation.
Qed.

Lemma partition_Permutation data (a b pivot : nat) :
  (partition less data a b pivot).1.1 ≡ₚ data.
Proof.
  unfold partition. cbv zeta.
  case_match; simpl; [by rewrite !Swap_Permutation|].
  match goal with
  | |- context [partition_loop less ?f ?d ?a' ?i ?j] =>
      pose proof (partition_loop_Permutation f d a' i j) as Hl;
      destruct (partition_loop less f d a' i j) as [d' j']
  end.
  simpl in *. by rewrite Swap_Permutation, Hl, !Swap_Permutation.
Qed.

Lemma partitionEqual_loop_Permutation (fuel : nat) data (a i j : nat) :
  (partitionEqual_loop less fuel data a i j).1 ≡ₚ data.
Proof.
  revert data i j. induction fuel as [|fuel IH]; intros data i j; simpl; [done|].
  case_match; [done|]. by rewrite IH, Swap_Permutation.
Qed.

Lemma partitionEqual_Permutation data (a b pivot : nat) :
  (partitionEqual less data a b pivot).1 ≡ₚ data.
Proof.
  unfold partitionEqual. cbv zeta.
  by rewrite partitionEqual_loop_Permutation, Swap_Permutation.
Qed.

Lemma breakPatterns_Permutation data (a b : nat) : breakPatterns data a b ≡ₚ data.
Proof.
  unfold breakPatterns. destruct (8 <=? b - a)%nat; [|done].
  simpl. by rewrite !Swap_Permutation.
Qed.

Lemma pdqsort_Permutation (fuel : nat) data (a b limit : nat) (wb wp : bool) :
  pdqsort less fuel data a b limit wb wp ≡ₚ data.
Proof.
  revert data a b limit wb wp.
  induction fuel as [|fuel IH]; intros data a b limit wb wp; simpl; [done|].
  destruct (b - a <=? 12)%nat; [apply insertionSort_Permutation|].
  destruct (limit =? 0)%nat; [apply heapSort_Permutation|].
  set (d1 := if negb wb then _ else _).
  assert (d1.1 ≡ₚ data) as H1.
  { subst d1. destruct (negb wb); simpl; [apply breakPatterns_Permutation|done]. }
  destruct d1 as [data1 limit1]. simpl in H1.
  destruct (choosePivot less data1 a b) as [pivot hint].
  set (d2 := match hint with decreasingHint => _ | _ => _ end).
  assert (d2.1.1 ≡ₚ data) as H2.
  { subst d2. destruct hint; simpl; try done.
    by rewrite reverseRange_Permutation. }
  destruct d2 as [[data2 pivot2] hint2]. simpl in H2.
  set (d3 := match hint2 with increasingHint => _ | _ => _ end).
  assert (d3.1 ≡ₚ data) as H3.
  { subst d3. destruct hint2; simpl; try done.
    destruct (wb && wp); simpl; [|done].
    by rewrite partialInsertionSort_Permutation. }
  destruct d3 as [data3 done3]. simpl in H3.
  destruct done3; [done|].
  destruct (_ && _).
  - pose proof (partitionEqual_Permutation data3 a b pivot2) as Hp.
    destruct (partitionEqual less data3 a b pivot2) as [d mid]. simpl in Hp.
    by rewrite IH, Hp.
  - pose proof (partition_Permutation data3 a b pivot2) as Hp.
    destruct (partition less data3 a b pivot2) as [[d mid] ap]. simpl in Hp.
    destruct (_ <? _)%nat; by rewrite !IH, Hp.
Qed.

Lemma pdq_Slice_Permutation (x : list A) : pdq_Slice less x ≡ₚ x.
Proof. apply pdqsort_Permutation. Qed.

End PdqsortPermutation.

(** ** [sort.Slice] sorts: the model is a correct pattern-defeating quicksort *)

Section PdqsortSorts.
Context {A : Type} (less : A → A → bool) (k : A → Z).
Hypothesis less_key : ∀ x y, less x y = (k x <? k y)%Z.
Implicit Types d : list A.
Local Open Scope nat_scope.
Local Abbreviation key := (key_at k).
Local Abbreviation moved := (moved_within k).
Local Abbreviation sorted_range := (sorted_in k).
Local Abbreviation below := (below_in k).
Local Abbreviation parted := (parted_at k).
Local Abbreviation parted_equal := (parted_equal_at k).

Lemma Less_key d (i j : nat) :
  i < length d → j < length d → Less less d i j = (key d i <? key d j)%Z.
Proof.
  intros Hi Hj. unfold Less, key_at.
  destruct (lookup_lt_is_Some_2 d i Hi) as [x ->].
  destruct (lookup_lt_is_Some_2 d j Hj) as [y ->]. simpl. apply less_key.
Qed.

Lemma Swap_key d (i j m : nat) :
  i < length d → j < length d →
  key (Swap d i j) m = if decide (m = j) then key d i
                     else if decide (m = i) then key d j else key d m.
Proof.
  intros Hi Hj. unfold Swap, key_at.
  destruct (lookup_lt_is_Some_2 d i Hi) as [x Hx].
  destruct (lookup_lt_is_Some_2 d j Hj) as [y Hy]. rewrite Hx, Hy.
  destruct (decide (m = j)) as [->|Hmj].
  - rewrite list_lookup_insert_eq; [done|]. by rewrite length_insert.
  - rewrite list_lookup_insert_ne by done.
    destruct (decide (m = i)) as [->|Hmi].
    + by rewrite list_lookup_insert_eq.
    + by rewrite list_lookup_insert_ne.
Qed.

Lemma moved_refl a b d : moved a b d d.
Proof. repeat split; eauto. Qed.

Lemma moved_trans a b d1 d2 d3 : moved a b d1 d2 → moved a b d2 d3 → moved a b d1 d3.
Proof.
  intros (Hl1 & Ho1 & Hi1) (Hl2 & Ho2 & Hi2). repeat split.
  - congruence.
  - intros m Hm. rewrite Ho2, Ho1; done.
  - intros m Hm. destruct (Hi2 m Hm) as (m' & Hm' & ->). eauto.
Qed.

Lemma moved_mono a b a' b' d d' : a' ≤ a → b ≤ b' → moved a b d d' → moved a' b' d d'.
Proof.
  intros Ha Hb (Hl & Ho & Hi). repeat split; [done|intros m Hm; apply Ho; lia|].
  intros m Hm. destruct (decide (a ≤ m < b)) as [Hin|Hout].
  - destruct (Hi m Hin) as (m' & Hm' & ->). exists m'. split; [lia|done].
  - exists m. split; [done|]. apply Ho. lia.
Qed.

Lemma moved_Swap a b d (i j : nat) :
  a ≤ i < b → a ≤ j < b → moved a b d (Swap d i j).
Proof.
  intros Hi Hj.
  destruct (decide (i < length d ∧ j < length d)) as [[Hil Hjl]|Hout].
  - repeat split.
    + apply Swap_length.
    + intros m Hm. rewrite Swap_key by done. repeat case_decide; first [lia|done].
    + intros m Hm. rewrite Swap_key by done. repeat case_decide; eauto.
  - assert (Swap d i j = d) as ->; [|apply moved_refl].
    unfold Swap. destruct (d !! i) eqn:Ei; [|done]. destruct (d !! j) eqn:Ej; [|done].
    apply lookup_lt_Some in Ei, Ej. lia.
Qed.

Lemma moved_length a b d d' : moved a b d d' → length d' = length d.
Proof. by intros (? & _). Qed.

Lemma below_range_moved a b d d' : below a b d → moved a b d d' → below a b d'.
Proof.
  intros HLB (Hl & Ho & Hi) i j Hia Haj Hjb.
  rewrite (Ho i) by lia. destruct (Hi j) as (m' & Hm' & ->); [lia|].
  apply HLB; lia.
Qed.

(** *** Insertion sort *)

(** The inner loop moves the element at [j] left into the sorted_range [a, j);
    [i] is where it started. *)
Lemma insertionSort_inner_spec (a i : nat) (j : nat) d :
  a ≤ j → j ≤ i → i < length d →
  sorted_range a j d → sorted_range (j + 1) (i + 1) d →
  (∀ p q, a ≤ p → p < j → j < q → q ≤ i → (key d p ≤ key d q)%Z) →
  (∀ q, j < q → q ≤ i → (key d j ≤ key d q)%Z) →
  let d' := insertionSort_inner less a j d in
  moved a (i + 1) d d' ∧ sorted_range a (i + 1) d'.
Proof.
  revert d. induction j as [|j IH]; intros d Haj Hji Hil Hs1 Hs2 Hc Hj; simpl.
  - split; [apply moved_refl|]. intros p q Hp Hpq Hq.
    destruct (decide (p = 0)) as [->|Hp0].
    + destruct (decide (q = 0)) as [->|Hq0]; [lia|]. apply Hj; lia.
    + apply Hs2; lia.
  - destruct (a <? S j) eqn:Ha; simpl.
    + apply Nat.ltb_lt in Ha. rewrite Less_key by lia.
      destruct (Z.ltb_spec (key d (S j)) (key d j)) as [Hlt|Hge].
      * assert (moved a (i + 1) d (Swap d (S j) j)) as HR by (apply moved_Swap; lia).
        destruct (IH (Swap d (S j) j)) as [HR' Hs'].
        -- lia.
        -- lia.
        -- rewrite Swap_length. lia.
        -- intros p q Hp Hpq Hq. rewrite !Swap_key by lia.
           repeat case_decide; try lia. apply Hs1; lia.
        -- intros p q Hp Hpq Hq. rewrite !Swap_key by lia.
           repeat case_decide; try lia.
           ++ apply Hc; lia.
           ++ apply Hs2; lia.
        -- intros p q Hp Hpj Hjq Hq. rewrite !Swap_key by lia.
           repeat case_decide; try lia.
           ++ apply Hs1; lia.
           ++ apply Hc; lia.
        -- intros q Hjq Hq. rewrite !Swap_key by lia.
           repeat case_decide; try lia. apply Hj; lia.
        -- split; [by eapply moved_trans|done].
      * split; [apply moved_refl|]. intros p q Hp Hpq Hq.
        destruct (decide (q ≤ j)) as [Hqj|Hqj]; [apply Hs1; lia|].
        destruct (decide (p ≤ j)) as [Hpj|Hpj].
        -- destruct (decide (q = S j)) as [->|Hqs].
           ++ specialize (Hs1 p j). lia.
           ++ apply Hc; lia.
        -- destruct (decide (p = S j)) as [->|Hps].
           ++ destruct (decide (q = S j)) as [->|Hqs]; [lia|]. apply Hj; lia.
           ++ apply Hs2; lia.
    + apply Nat.ltb_ge in Ha. assert (a = S j) as -> by lia.
      split; [apply moved_refl|]. intros p q Hp Hpq Hq.
      destruct (decide (p = S j)) as [->|Hps].
      * destruct (decide (q = S j)) as [->|Hqs]; [lia|]. apply Hj; lia.
      * apply Hs2; lia.
Qed.

Lemma insertionSort_spec d (a b : nat) :
  a ≤ b → b ≤ length d →
  let d' := insertionSort less d a b in
  moved a b d d' ∧ sorted_range a b d'.
Proof.
  intros Hab Hbl. unfold insertionSort.
  assert (∀ n i d0, a + 1 ≤ i → i + n ≤ b ∨ n = 0 → moved a b d d0 → sorted_range a i d0 →
          let d' := foldl (λ d1 i0, insertionSort_inner less a i0 d1) d0 (List.seq i n) in
          moved a b d d' ∧ sorted_range a (i + n) d') as Hloop.
  { induction n as [|n IHn]; intros i d0 Hi Hin HR Hs; simpl.
    - rewrite Nat.add_0_r. done.
    - destruct Hin as [Hin|Hin]; [|done].
      pose proof (moved_length _ _ _ _ HR) as Hl.
      destruct (insertionSort_inner_spec a i i d0) as [HR1 Hs1];
        [lia|lia|lia|done|intros p q; lia|intros p q; lia|intros q; lia|].
      destruct (IHn (S i) (insertionSort_inner less a i d0)) as [HR2 Hs2].
      + lia.
      + lia.
      + eapply moved_trans; [done|]. eapply moved_mono; [| |done]; lia.
      + by rewrite Nat.add_1_r in Hs1.
      + split; [done|]. by replace (i + S n) with (S i + n) by lia. }
  destruct (decide (a + 1 ≤ b)) as [Hlt|Hge].
  - destruct (Hloop (b - (a + 1)) (a + 1) d) as [HR Hs]; [lia|lia|apply moved_refl| |].
    + intros p q. intros. assert (p = q) as -> by lia. lia.
    + split; [done|]. by replace (a + 1 + (b - (a + 1))) with b in Hs by lia.
  - replace (b - (a + 1)) with 0 by lia. simpl. split; [apply moved_refl|].
    intros p q. intros. assert (p = q) as -> by lia. lia.
Qed.

(** *** The scans and the partitions *)

Lemma scan_up_spec (fuel : nat) (cond : nat → bool) (i j : nat) :
  j + 1 - i ≤ fuel → i ≤ j + 1 →
  let i' := scan_up fuel cond i j in
  i ≤ i' ∧ i' ≤ j + 1 ∧ (∀ m, i ≤ m → m < i' → cond m = true)
  ∧ (i' ≤ j → cond i' = false).
Proof.
  revert i. induction fuel as [|fuel IH]; intros i Hf Hij; simpl.
  - split; [lia|]. split; [lia|]. split; intros; lia.
  - destruct (i <=? j) eqn:Hle; simpl.
    + apply Nat.leb_le in Hle. destruct (cond i) eqn:Hc.
      * destruct (IH (i + 1)) as (H1 & H2 & H3 & H4); [lia|lia|].
        split; [lia|]. split; [lia|]. split; [|done].
        intros m Hm1 Hm2. destruct (decide (m = i)) as [->|]; [done|].
        apply H3; lia.
      * split; [lia|]. split; [lia|]. split; [intros; lia|done].
    + apply Nat.leb_gt in Hle. split; [lia|]. split; [lia|]. split; intros; lia.
Qed.

Lemma scan_down_spec (fuel : nat) (cond : nat → bool) (i j : nat) :
  j + 1 - i ≤ fuel → i ≤ j + 1 → 1 ≤ i →
  let j' := scan_down fuel cond i j in
  i ≤ j' + 1 ∧ j' ≤ j ∧ (∀ m, j' < m → m ≤ j → cond m = true)
  ∧ (i ≤ j' → cond j' = false).
Proof.
  revert j. induction fuel as [|fuel IH]; intros j Hf Hij Hi; simpl.
  - split; [lia|]. split; [lia|]. split; intros; lia.
  - destruct (i <=? j) eqn:Hle; simpl.
    + apply Nat.leb_le in Hle. destruct (cond j) eqn:Hc.
      * destruct (IH (j - 1)) as (H1 & H2 & H3 & H4); [lia|lia|lia|].
        split; [lia|]. split; [lia|]. split; [|done].
        intros m Hm1 Hm2. destruct (decide (m = j)) as [->|]; [done|].
        apply H3; lia.
      * split; [lia|]. split; [lia|]. split; [intros; lia|done].
    + apply Nat.leb_gt in Hle. split; [lia|]. split; [lia|]. split; intros; lia.
Qed.

Lemma partition_scans (p : Z) (a b i j : nat) d :
  a + 1 ≤ i → i ≤ j + 1 → j < b → b ≤ length d →
  parted p a b i j d →
  let i' := scan_up (length d) (λ i, Less less d i a) i j in
  let j' := scan_down (length d) (λ j, negb (Less less d j a)) i' j in
  i ≤ i' ∧ i' ≤ j' + 1 ∧ j' ≤ j
  ∧ parted p a b i' j' d
  ∧ (i' ≤ j' → (p ≤ key d i')%Z ∧ (key d j' < p)%Z).
Proof.
  intros Hi Hij Hjb Hbl (Ha & Hlo & Hhi) i' j'.
  destruct (scan_up_spec (length d) (λ i, Less less d i a) i j)
    as (U1 & U2 & U3 & U4); [lia|lia|]. fold i' in U1, U2, U3, U4.
  destruct (scan_down_spec (length d) (λ j, negb (Less less d j a)) i' j)
    as (D1 & D2 & D3 & D4); [lia|lia|lia|]. fold j' in D1, D2, D3, D4.
  split; [done|]. split; [done|]. split; [done|]. split.
  - split; [done|]. split.
    + intros m Hm1 Hm2. destruct (decide (m < i)) as [|]; [by apply Hlo|].
      specialize (U3 m). simpl in U3. rewrite Less_key in U3 by lia.
      rewrite Ha in U3. apply Z.ltb_lt, U3; lia.
    + intros m Hm1 Hm2. destruct (decide (j < m)) as [|]; [by apply Hhi|].
      specialize (D3 m). simpl in D3. rewrite Less_key in D3 by lia.
      rewrite Ha in D3. apply Z.ltb_ge, negb_true_iff, D3; lia.
  - intros Hle. split.
    + specialize (U4 ltac:(lia)). simpl in U4. rewrite Less_key in U4 by lia.
      rewrite Ha in U4. by apply Z.ltb_ge.
    + specialize (D4 Hle). simpl in D4. rewrite Less_key in D4 by lia.
      rewrite Ha in D4. by apply Z.ltb_lt, negb_false_iff.
Qed.

Lemma parted_Swap (p : Z) (a b i j : nat) d :
  a + 1 ≤ i → i < j → j < b → b ≤ length d →
  parted p a b i j d → (p ≤ key d i)%Z → (key d j < p)%Z →
  parted p a b (i + 1) (j - 1) (Swap d i j).
Proof.
  intros Hi Hij Hjb Hbl (Ha & Hlo & Hhi) Hpi Hpj. repeat split.
  - rewrite Swap_key by lia. repeat case_decide; first [lia|done].
  - intros m Hm1 Hm2. rewrite Swap_key by lia.
    repeat case_decide; first [lia|apply Hlo; lia].
  - intros m Hm1 Hm2. rewrite Swap_key by lia.
    repeat case_decide; first [lia|apply Hhi; lia].
Qed.

Lemma partition_loop_spec (p : Z) (fuel : nat) d (a b i j : nat) :
  j + 1 - i ≤ fuel → a + 1 ≤ i → i ≤ j + 1 → j < b → b ≤ length d →
  parted p a b i j d →
  let r := partition_loop less fuel d a i j in
  moved a b d r.1 ∧ a ≤ r.2 ∧ r.2 < b ∧ parted p a b (r.2 + 1) r.2 r.1.
Proof.
  revert d i j. induction fuel as [|fuel IH]; intros d i j Hf Hi Hij Hjb Hbl Hp.
  - simpl. split; [apply moved_refl|]. split; [lia|]. split; [done|].
    by replace (j + 1) with i by lia.
  - cbn [partition_loop].
    destruct (partition_scans p a b i j d Hi Hij Hjb Hbl Hp)
      as (S1 & S2 & S3 & S4 & S5).
    set (i' := scan_up _ _ i j) in *. set (j' := scan_down _ _ i' j) in *.
    destruct (j' <? i') eqn:Hlt.
    + apply Nat.ltb_lt in Hlt. simpl. split; [apply moved_refl|].
      split; [lia|]. split; [lia|]. by replace (j' + 1) with i' by lia.
    + apply Nat.ltb_ge in Hlt. destruct (S5 Hlt) as [Hpi Hpj].
      assert (i' < j') as Hij' by (destruct (decide (i' = j')) as [E|]; [rewrite E in Hpi|]; lia).
      destruct (IH (Swap d i' j') (i' + 1) (j' - 1)) as (HR & H1 & H2 & H3);
        [lia|lia|lia|lia|by rewrite Swap_length| |].
      { apply parted_Swap; try done; lia. }
      split; [|done]. eapply moved_trans; [|done]. apply moved_Swap; lia.
Qed.

(** After the closing swap the pivot stands between the two parts. *)
Lemma parted_close (p : Z) (a b j : nat) d :
  a ≤ j → j < b → b ≤ length d →
  parted p a b (j + 1) j d →
  let d' := Swap d j a in
  moved a b d d' ∧ key d' j = p
  ∧ (∀ m, a ≤ m → m < j → (key d' m < p)%Z)
  ∧ (∀ m, j < m → m < b → (p ≤ key d' m)%Z).
Proof.
  intros Haj Hjb Hbl (Ha & Hlo & Hhi). simpl. split; [apply moved_Swap; lia|].
  split; [|split].
  - rewrite Swap_key by lia. repeat case_decide; subst; first [lia|done].
  - intros m Hm1 Hm2. rewrite Swap_key by lia.
    repeat case_decide; subst; first [lia|apply Hlo; lia].
  - intros m Hm1 Hm2. rewrite Swap_key by lia.
    repeat case_decide; subst; first [lia|apply Hhi; lia].
Qed.

Lemma partition_spec d (a b pivot : nat) :
  a < b → b ≤ length d → a ≤ pivot → pivot < b →
  let r := partition less d a b pivot in
  let d' := r.1.1 in let mid := r.1.2 in
  moved a b d d' ∧ a ≤ mid ∧ mid < b
  ∧ (∀ m, a ≤ m → m < mid → (key d' m < key d' mid)%Z)
  ∧ (∀ m, mid < m → m < b → (key d' mid ≤ key d' m)%Z).
Proof.
  intros Hab Hbl Hpa Hpb. unfold partition. cbv zeta.
  set (d0 := Swap d a pivot).
  assert (moved a b d d0) as HR0 by (apply moved_Swap; lia).
  assert (length d0 = length d) as Hl0 by apply Swap_length.
  assert (parted (key d0 a) a b (a + 1) (b - 1) d0) as Hp0.
  { repeat split; intros m; lia. }
  destruct (partition_scans (key d0 a) a b (a + 1) (b - 1) d0)
    as (S1 & S2 & S3 & S4 & S5); [lia|lia|lia|lia|done|].
  set (i' := scan_up _ _ (a + 1) (b - 1)) in *.
  set (j' := scan_down _ _ i' (b - 1)) in *.
  destruct (j' <? i') eqn:Hlt.
  - apply Nat.ltb_lt in Hlt. simpl.
    replace i' with (j' + 1) in S4 by lia.
    destruct (parted_close (key d0 a) a b j' d0) as (HR & Hk & Hlo & Hhi);
      [lia|lia|lia|done|].
    split; [by eapply moved_trans|]. split; [lia|]. split; [lia|].
    rewrite Hk. done.
  - apply Nat.ltb_ge in Hlt. destruct (S5 Hlt) as [Hpi Hpj].
    assert (i' < j') as Hij' by (destruct (decide (i' = j')) as [E|]; [rewrite E in Hpi|]; lia).
    pose proof (parted_Swap (key d0 a) a b i' j' d0 ltac:(lia) Hij' ltac:(lia)
                  ltac:(lia) S4 Hpi Hpj) as Hp1.
    destruct (partition_loop_spec (key d0 a) (length (Swap d0 i' j'))
                (Swap d0 i' j') a b (i' + 1) (j' - 1))
      as (HR & H1 & H2 & H3);
      [rewrite Swap_length; lia|lia|lia|lia|by rewrite Swap_length; lia|done|].
    destruct (partition_loop less _ _ a (i' + 1) (j' - 1)) as [d2 j2] eqn:Hloop.
    simpl in *.
    destruct (parted_close (key d0 a) a b j2 d2) as (HR' & Hk & Hlo & Hhi);
      [lia|lia| |done|].
    { rewrite (moved_length _ _ _ _ HR), Swap_length. lia. }
    split.
    { eapply moved_trans; [exact HR0|].
      eapply moved_trans; [apply (moved_Swap a b d0 i' j'); lia|].
      by eapply moved_trans. }
    split; [lia|]. split; [lia|]. rewrite Hk. done.
Qed.

Lemma partitionEqual_scans (p : Z) (a b i j : nat) d :
  a + 1 ≤ i → i ≤ j + 1 → j < b → b ≤ length d →
  parted_equal p a b i j d →
  let i' := scan_up (length d) (λ i, negb (Less less d a i)) i j in
  let j' := scan_down (length d) (λ j, Less less d a j) i' j in
  i ≤ i' ∧ i' ≤ j' + 1 ∧ j' ≤ j
  ∧ parted_equal p a b i' j' d
  ∧ (i' ≤ j' → (p < key d i')%Z ∧ (key d j' ≤ p)%Z).
Proof.
  intros Hi Hij Hjb Hbl (Ha & Hlo & Hhi) i' j'.
  destruct (scan_up_spec (length d) (λ i, negb (Less less d a i)) i j)
    as (U1 & U2 & U3 & U4); [lia|lia|]. fold i' in U1, U2, U3, U4.
  destruct (scan_down_spec (length d) (λ j, Less less d a j) i' j)
    as (D1 & D2 & D3 & D4); [lia|lia|lia|]. fold j' in D1, D2, D3, D4.
  split; [done|]. split; [done|]. split; [done|]. split.
  - split; [done|]. split.
    + intros m Hm1 Hm2. destruct (decide (m < i)) as [|]; [by apply Hlo|].
      specialize (U3 m). simpl in U3. rewrite Less_key in U3 by lia.
      rewrite Ha in U3. apply Z.ltb_ge, negb_true_iff, U3; lia.
    + intros m Hm1 Hm2. destruct (decide (j < m)) as [|]; [by apply Hhi|].
      specialize (D3 m). simpl in D3. rewrite Less_key in D3 by lia.
      rewrite Ha in D3. apply Z.ltb_lt, D3; lia.
  - intros Hle. split.
    + specialize (U4 ltac:(lia)). simpl in U4. rewrite Less_key in U4 by lia.
      rewrite Ha in U4. by apply Z.ltb_lt, negb_false_iff.
    + specialize (D4 Hle). simpl in D4. rewrite Less_key in D4 by lia.
      rewrite Ha in D4. by apply Z.ltb_ge.
Qed.

Lemma parted_equal_Swap (p : Z) (a b i j : nat) d :
  a + 1 ≤ i → i < j → j < b → b ≤ length d →
  parted_equal p a b i j d → (p < key d i)%Z → (key d j ≤ p)%Z →
  parted_equal p a b (i + 1) (j - 1) (Swap d i j).
Proof.
  intros Hi Hij Hjb Hbl (Ha & Hlo & Hhi) Hpi Hpj. repeat split.
  - rewrite Swap_key by lia. repeat case_decide; subst; first [lia|done].
  - intros m Hm1 Hm2. rewrite Swap_key by lia.
    repeat case_decide; subst; first [lia|apply Hlo; lia].
  - intros m Hm1 Hm2. rewrite Swap_key by lia.
    repeat case_decide; subst; first [lia|apply Hhi; lia].
Qed.

Lemma partitionEqual_loop_spec (p : Z) (fuel : nat) d (a b i j : nat) :
  j + 1 - i ≤ fuel → a + 1 ≤ i → i ≤ j + 1 → j < b → b ≤ length d →
  parted_equal p a b i j d →
  let r := partitionEqual_loop less fuel d a i j in
  moved a b d r.1 ∧ a + 1 ≤ r.2 ∧ r.2 ≤ b ∧ key r.1 a = p
  ∧ (∀ m, a ≤ m → m < r.2 → (key r.1 m ≤ p)%Z)
  ∧ (∀ m, r.2 ≤ m → m < b → (p < key r.1 m)%Z).
Proof.
  revert d i j. induction fuel as [|fuel IH]; intros d i j Hf Hi Hij Hjb Hbl Hp.
  - simpl. destruct Hp as (Ha & Hlo & Hhi).
    split; [apply moved_refl|]. split; [lia|]. split; [lia|]. split; [done|]. split.
    + intros m Hm1 Hm2. destruct (decide (m = a)) as [->|]; [lia|]. apply Hlo; lia.
    + intros m Hm1 Hm2. apply Hhi; lia.
  - cbn [partitionEqual_loop].
    destruct (partitionEqual_scans p a b i j d Hi Hij Hjb Hbl Hp)
      as (S1 & S2 & S3 & S4 & S5).
    set (i' := scan_up _ _ i j) in *. set (j' := scan_down _ _ i' j) in *.
    destruct (j' <? i') eqn:Hlt.
    + apply Nat.ltb_lt in Hlt. simpl. destruct S4 as (Ha & Hlo & Hhi).
      split; [apply moved_refl|]. split; [lia|]. split; [lia|]. split; [done|]. split.
      * intros m Hm1 Hm2. destruct (decide (m = a)) as [->|]; [lia|]. apply Hlo; lia.
      * intros m Hm1 Hm2. apply Hhi; lia.
    + apply Nat.ltb_ge in Hlt. destruct (S5 Hlt) as [Hpi Hpj].
      assert (i' < j') as Hij' by (destruct (decide (i' = j')) as [E|]; [rewrite E in Hpi|]; lia).
      destruct (IH (Swap d i' j') (i' + 1) (j' - 1)) as (HR & H1 & H2 & H3);
        [lia|lia|lia|lia|by rewrite Swap_length| |].
      { apply parted_equal_Swap; try done; lia. }
      split; [|done]. eapply moved_trans; [|done]. apply moved_Swap; lia.
Qed.

Lemma partitionEqual_spec d (a b pivot : nat) :
  a < b → b ≤ length d → a ≤ pivot → pivot < b →
  let r := partitionEqual less d a b pivot in
  moved a b d r.1 ∧ a + 1 ≤ r.2 ∧ r.2 ≤ b
  ∧ (∀ m, a ≤ m → m < r.2 → (key r.1 m ≤ key d pivot)%Z)
  ∧ (∀ m, r.2 ≤ m → m < b → (key d pivot < key r.1 m)%Z).
Proof.
  intros Hab Hbl Hpa Hpb. unfold partitionEqual. cbv zeta.
  set (d0 := Swap d a pivot).
  assert (moved a b d d0) as HR0 by (apply moved_Swap; lia).
  assert (length d0 = length d) as Hl0 by apply Swap_length.
  assert (key d0 a = key d pivot) as Hk.
  { unfold d0. rewrite Swap_key by lia. repeat case_decide; subst; first [lia|done]. }
  destruct (partitionEqual_loop_spec (key d pivot) (length d0) d0 a b (a + 1) (b - 1))
    as (HR & H1 & H2 & _ & H3 & H4); [lia|lia|lia|lia|lia| |].
  { split; [done|]. split; intros m; lia. }
  split; [by eapply moved_trans|]. done.
Qed.

(** *** Ranges that are only rearranged *)

Lemma sorted_range_moved_before a b lo hi d d' :
  sorted_range a b d → moved lo hi d d' → b ≤ lo → sorted_range a b d'.
Proof.
  intros Hs (_ & Ho & _) Hb i j Hi Hij Hj. rewrite !Ho by lia. by apply Hs.
Qed.

Lemma sorted_range_moved_after a b lo hi d d' :
  sorted_range a b d → moved lo hi d d' → hi ≤ a → sorted_range a b d'.
Proof.
  intros Hs (_ & Ho & _) Hb i j Hi Hij Hj. rewrite !Ho by lia. by apply Hs.
Qed.

Lemma reverseRange_loop_moved (fuel : nat) d (a b i j : nat) :
  a ≤ i → j < b → moved a b d (reverseRange_loop fuel d i j).
Proof.
  revert d i j. induction fuel as [|fuel IH]; intros d i j Hi Hj; simpl;
    [apply moved_refl|].
  destruct (i <? j) eqn:Hlt; [|apply moved_refl]. apply Nat.ltb_lt in Hlt.
  eapply moved_trans; [apply (moved_Swap a b d i j); lia|]. apply IH; lia.
Qed.

Lemma reverseRange_moved d (a b : nat) : a < b → moved a b d (reverseRange d a b).
Proof. intros Hab. apply reverseRange_loop_moved; lia. Qed.

Lemma shift_right_moved (fuel : nat) d (lo j b : nat) :
  lo + 1 ≤ j → moved lo b d (shift_right less fuel d j b).
Proof.
  revert d j. induction fuel as [|fuel IH]; intros d j Hj; simpl; [apply moved_refl|].
  destruct (j <? b) eqn:Hlt; [|apply moved_refl]. apply Nat.ltb_lt in Hlt.
  destruct (negb _); [apply moved_refl|].
  eapply moved_trans; [apply (moved_Swap lo b d j (j - 1)); lia|]. apply IH; lia.
Qed.

(** With everything before [a] no larger than the range, the left shift of
    [partialInsertionSort] is the inner loop of the insertion sort. *)
Lemma shift_left_inner (a j : nat) d :
  a ≤ j → j < length d → below a (j + 1) d →
  shift_left less j d = insertionSort_inner less a j d.
Proof.
  revert d. induction j as [|j IH]; intros d Haj Hjl HLB; simpl; [done|].
  rewrite Less_key by lia.
  destruct (a <? S j) eqn:Ha; simpl.
  - apply Nat.ltb_lt in Ha.
    destruct (Z.ltb_spec (key d (S j)) (key d j)); simpl; [|done].
    apply IH; [lia|rewrite Swap_length; lia|].
    assert (below a (S j + 1) (Swap d (S j) j)) as HLB'.
    { eapply below_range_moved; [done|]. apply moved_Swap; lia. }
    intros p q Hp Hq1 Hq2. apply HLB'; lia.
  - apply Nat.ltb_ge in Ha. assert (a = S j) as -> by lia.
    specialize (HLB j (S j)).
    destruct (Z.ltb_spec (key d (S j)) (key d j)); simpl; [lia|done].
Qed.

Lemma skip_ordered_spec (fuel : nat) d (a i b : nat) :
  b - i ≤ fuel → a + 1 ≤ i → i ≤ b → b ≤ length d → sorted_range a i d →
  let i' := skip_ordered less fuel d i b in
  i ≤ i' ∧ i' ≤ b ∧ sorted_range a i' d ∧ (i' < b → (key d i' < key d (i' - 1))%Z).
Proof.
  revert i. induction fuel as [|fuel IH]; intros i Hf Hai Hib Hbl Hs; simpl.
  - repeat split; [lia|lia|done|lia].
  - destruct (i <? b) eqn:Hlt; simpl.
    + apply Nat.ltb_lt in Hlt. rewrite Less_key by lia.
      destruct (Z.ltb_spec (key d i) (key d (i - 1))) as [Hk|Hk]; simpl.
      * repeat split; [lia|lia|done|done].
      * destruct (IH (i + 1)) as (H1 & H2 & H3 & H4); [lia|lia|lia|done| |].
        { intros p q Hp Hpq Hq. destruct (decide (q = i)) as [->|].
          - destruct (decide (p = i)) as [->|]; [lia|].
            specialize (Hs p (i - 1)). lia.
          - apply Hs; lia. }
        repeat split; [lia|lia|done|done].
    + apply Nat.ltb_ge in Hlt. repeat split; [lia|lia|done|lia].
Qed.

Lemma partialInsertionSort_loop_spec (steps : nat) d (a b i : nat) :
  a + 1 ≤ i → i ≤ b → b ≤ length d → sorted_range a i d → below a b d →
  let r := partialInsertionSort_loop less steps d a b i in
  moved a b d r.1 ∧ (r.2 = true → sorted_range a b r.1).
Proof.
  revert d i. induction steps as [|steps IH]; intros d i Hai Hib Hbl Hs HLB.
  - simpl. split; [apply moved_refl|done].
  - cbn [partialInsertionSort_loop].
    destruct (skip_ordered_spec b d a i b) as (S1 & S2 & S3 & S4);
      [lia|lia|lia|lia|done|].
    set (i' := skip_ordered less b d i b) in *.
    destruct (i' =? b) eqn:Heq.
    { apply Nat.eqb_eq in Heq. simpl. split; [apply moved_refl|]. intros _.
      by rewrite <- Heq. }
    apply Nat.eqb_neq in Heq.
    destruct (b - a <? 50); [simpl; split; [apply moved_refl|done]|].
    specialize (S4 ltac:(lia)).
    set (d1 := Swap d i' (i' - 1)).
    assert (moved a b d d1) as HR1 by (apply moved_Swap; lia).
    assert (length d1 = length d) as Hl1 by apply Swap_length.
    set (d2 := if 2 <=? i' - a then shift_left less (i' - 1) d1 else d1).
    assert (moved a b d1 d2 ∧ sorted_range a i' d2) as [HR2 Hs2].
    { subst d2. destruct (2 <=? i' - a) eqn:H2.
      - apply Nat.leb_le in H2.
        rewrite (shift_left_inner a) by
          (first [lia | intros p q Hp Hq1 Hq2; eapply below_range_moved; [exact HLB|exact HR1|..]; lia]).
        destruct (insertionSort_inner_spec a (i' - 1) (i' - 1) d1)
          as [HRi Hsi]; [lia|lia|lia| |intros p q; lia|intros p q; lia|intros q; lia|].
        { intros p q Hp Hpq Hq. unfold d1. rewrite !Swap_key by lia.
          repeat case_decide; subst; first [lia|apply S3; lia]. }
        replace (i' - 1 + 1) with i' in * by lia.
        split; [|done]. eapply moved_mono; [| |exact HRi]; lia.
      - apply Nat.leb_gt in H2. split; [apply moved_refl|].
        intros p q Hp Hpq Hq. assert (p = q) as -> by lia. lia. }
    set (d3 := if 2 <=? b - i' then shift_right less b d2 (i' + 1) b else d2).
    assert (moved i' b d2 d3) as HR3.
    { subst d3. destruct (2 <=? b - i'); [|apply moved_refl].
      apply shift_right_moved. lia. }
    assert (moved a b d d3) as HR.
    { eapply moved_trans; [exact HR1|]. eapply moved_trans; [exact HR2|].
      eapply moved_mono; [| |exact HR3]; lia. }
    destruct (IH d3 i') as [HRr Hsr]; [lia|lia| | | |].
    + rewrite (moved_length _ _ _ _ HR). lia.
    + eapply sorted_range_moved_before; [exact Hs2|exact HR3|lia].
    + by eapply below_range_moved.
    + split; [by eapply moved_trans|done].
Qed.

Lemma partialInsertionSort_spec d (a b : nat) :
  a < b → b ≤ length d → below a b d →
  let r := partialInsertionSort less d a b in
  moved a b d r.1 ∧ (r.2 = true → sorted_range a b r.1).
Proof.
  intros Hab Hbl HLB. apply partialInsertionSort_loop_spec; try done; try lia.
  intros p q Hp Hpq Hq. assert (p = q) as -> by lia. lia.
Qed.

(** *** The pivot and the pattern breaker stay in the range *)

Lemma median_in d (a b c s0 : nat) :
  let r := median less d a b c s0 in r.1 = a ∨ r.1 = b ∨ r.1 = c.
Proof.
  unfold median, order2.
  destruct (Less less d b a); destruct (Less less d c _);
    destruct (Less less d _ _); simpl; auto.
Qed.

Lemma choosePivot_range d (a b : nat) :
  8 ≤ b - a → a ≤ (choosePivot less d a b).1 ∧ (choosePivot less d a b).1 < b.
Proof.
  intros Hl. unfold choosePivot. cbv zeta.
  apply Nat.leb_le in Hl as Hl'. rewrite Hl'.
  assert (2 ≤ (b - a) / 4) as Hq.
  { apply Nat.div_le_lower_bound; lia. }
  assert ((b - a) / 4 * 4 ≤ b - a) as Hq'.
  { rewrite Nat.mul_comm. apply Nat.Div0.mul_div_le. }
  destruct (50 <=? b - a) eqn:H50.
  - unfold medianAdjacent.
    pose proof (median_in d (a + (b - a) / 4 * 1 - 1) (a + (b - a) / 4 * 1)
                  (a + (b - a) / 4 * 1 + 1) 0) as Hi.
    destruct (median less d (a + (b - a) / 4 * 1 - 1) _ _ 0) as [i s1].
    pose proof (median_in d (a + (b - a) / 4 * 2 - 1) (a + (b - a) / 4 * 2)
                  (a + (b - a) / 4 * 2 + 1) s1) as Hj.
    destruct (median less d (a + (b - a) / 4 * 2 - 1) _ _ s1) as [j s2].
    pose proof (median_in d (a + (b - a) / 4 * 3 - 1) (a + (b - a) / 4 * 3)
                  (a + (b - a) / 4 * 3 + 1) s2) as Hk.
    destruct (median less d (a + (b - a) / 4 * 3 - 1) _ _ s2) as [k0 s3].
    pose proof (median_in d i j k0 s3) as Hm.
    destruct (median less d i j k0 s3) as [m s4]. simpl in *.
    repeat case_match; simpl; lia.
  - pose proof (median_in d (a + (b - a) / 4 * 1) (a + (b - a) / 4 * 2)
                  (a + (b - a) / 4 * 3) 0) as Hm.
    destruct (median less d _ _ _ 0) as [m s4]. simpl in *.
    repeat case_match; simpl; lia.
Qed.

Lemma bits_Len_bound (len : nat) :
  0 < len → (2 ^ Z.of_nat (bits_Len len) ≤ 2 * Z.of_nat len)%Z.
Proof.
  intros Hl. unfold bits_Len. destruct len as [|len']; [lia|].
  set (len := S len') in *.
  rewrite Nat2Z.inj_succ, Z.pow_succ_r by lia.
  pose proof (Nat.log2_spec len Hl) as [Hlo _].
  apply Nat2Z.inj_le in Hlo. rewrite Nat2Z.inj_pow in Hlo. simpl in Hlo. lia.
Qed.

Lemma breakPatterns_other (len : nat) (random : Z) :
  0 < len →
  let other := Z.to_nat (Z.land random (2 ^ Z.of_nat (bits_Len len) - 1)) in
  (if len <=? other then other - len else other) < len.
Proof.
  intros Hl other.
  assert (other < 2 * len) as Ho.
  { subst other. replace (2 ^ Z.of_nat (bits_Len len) - 1)%Z
      with (Z.ones (Z.of_nat (bits_Len len))) by (rewrite Z.ones_equiv; lia).
    rewrite Z.land_ones by lia.
    pose proof (Z.mod_pos_bound random (2 ^ Z.of_nat (bits_Len len))
                  ltac:(apply Z.pow_pos_nonneg; lia)).
    pose proof (bits_Len_bound len Hl). lia. }
  destruct (Nat.leb_spec len other); lia.
Qed.

Lemma breakPatterns_moved d (a b : nat) : moved a b d (breakPatterns d a b).
Proof.
  unfold breakPatterns. cbv zeta.
  destruct (8 <=? b - a) eqn:H8; [|apply moved_refl]. apply Nat.leb_le in H8.
  assert (2 ≤ (b - a) / 4) as Hq.
  { apply Nat.div_le_lower_bound; lia. }
  assert ((b - a) / 4 * 4 ≤ b - a) as Hq'.
  { rewrite Nat.mul_comm. apply Nat.Div0.mul_div_le. }
  cbn [foldl fst]. cbv beta iota zeta. cbn [fst].
  repeat match goal with
  | |- moved a b ?d0 (Swap ?d1 ?i (a + ?o)) =>
      eapply moved_trans; [|apply (moved_Swap a b d1 i (a + o));
        [lia|pose proof (breakPatterns_other (b - a) ltac:(match o with context [Z.land ?r _] => exact r end) ltac:(lia)) as Ho;
             cbv zeta in Ho; lia]]
  end.
  apply moved_refl.
Qed.

(** *** Heap sort *)

Section Heap.
Variable first : nat.
Local Abbreviation hkey := (heap_key_at k first).
Local Abbreviation heap_ok := (heap_ok_at k first).
Local Abbreviation heap_except := (heap_except_at k first).

Lemma Swap_heap_key d (x y m : nat) :
  first + x < length d → first + y < length d →
  hkey (Swap d (first + x) (first + y)) m
  = if decide (m = y) then hkey d x else if decide (m = x) then hkey d y else hkey d m.
Proof.
  intros Hx Hy. unfold heap_key_at. rewrite Swap_key by done.
  repeat case_decide; first [lia|done].
Qed.

Lemma siftDown_spec (fuel : nat) d (lo root hi : nat) :
  hi - root ≤ fuel → lo ≤ root → first + hi ≤ length d →
  heap_except d lo hi root →
  let d' := siftDown less fuel d root hi first in
  moved first (first + hi) d d' ∧ heap_ok d' lo hi.
Proof.
  revert d root. induction fuel as [|fuel IH]; intros d root Hf Hlo Hbl [Hpre Hbr].
  - simpl. split; [apply moved_refl|]. intros i c Hi Hch Hc.
    destruct (decide (i = root)) as [->|Hne]; [unfold heap_child in Hch; lia|].
    by apply Hpre.
  - cbn [siftDown]. cbv zeta.
    destruct (hi <=? 2 * root + 1) eqn:Hleaf.
    { apply Nat.leb_le in Hleaf. split; [apply moved_refl|]. intros i c Hi Hch Hc.
      destruct (decide (i = root)) as [->|Hne]; [unfold heap_child in Hch; lia|].
      by apply Hpre. }
    apply Nat.leb_gt in Hleaf.
    set (c' := if (2 * root + 1 + 1 <? hi)
                  && Less less d (first + (2 * root + 1)) (first + (2 * root + 1) + 1)
               then 2 * root + 1 + 1 else 2 * root + 1).
    assert (heap_child root c' ∧ c' < hi
            ∧ ∀ c, heap_child root c → c < hi → (hkey d c ≤ hkey d c')%Z) as (Hc1 & Hc2 & Hc3).
    { subst c'. destruct (2 * root + 1 + 1 <? hi) eqn:H2; cbn [andb].
      - apply Nat.ltb_lt in H2. rewrite Less_key by lia.
        destruct (Z.ltb_spec (key d (first + (2 * root + 1)))
                    (key d (first + (2 * root + 1) + 1))) as [Hlt|Hge].
        + split; [right; lia|]. split; [lia|]. intros c [->| ->] Hc; unfold heap_key_at.
          * replace (first + (2 * root + 1 + 1)) with (first + (2 * root + 1) + 1) by lia.
            lia.
          * replace (2 * root + 2) with (2 * root + 1 + 1) by lia. lia.
        + split; [left; lia|]. split; [lia|]. intros c [->| ->] Hc; unfold heap_key_at.
          * lia.
          * replace (first + (2 * root + 2)) with (first + (2 * root + 1) + 1) by lia.
            lia.
      - apply Nat.ltb_ge in H2. split; [left; lia|]. split; [lia|].
        intros c [->| ->] Hc; unfold heap_key_at; lia. }
    clearbody c'. rewrite Less_key by (unfold heap_child in Hc1; lia).
    fold (hkey d root). fold (hkey d c').
    destruct (Z.ltb_spec (hkey d root) (hkey d c')) as [Hlt|Hge]; cbn [negb].
    + assert (first + root < length d ∧ first + c' < length d) as [Hr1 Hr2]
        by (unfold heap_child in Hc1; lia).
      destruct (IH (Swap d (first + root) (first + c')) c') as [HR Hok].
      * unfold heap_child in Hc1. lia.
      * unfold heap_child in Hc1. lia.
      * by rewrite Swap_length.
      * split.
        -- intros i c Hi Hne Hch Hc. rewrite !Swap_heap_key by done.
           destruct (decide (i = root)) as [->|Hir].
           ++ repeat case_decide; subst; try (unfold heap_child in *; lia).
              apply Hc3; [done|lia].
           ++ repeat case_decide; subst; try (unfold heap_child in *; lia).
              ** apply Hbr; done.
              ** apply Hpre; done.
        -- intros i c Hi Hch1 Hch2 Hc. rewrite !Swap_heap_key by done.
           assert (i = root) as -> by (unfold heap_child in *; lia).
           repeat case_decide; subst; try (unfold heap_child in *; lia).
           apply Hpre; [unfold heap_child in *; lia|unfold heap_child in *; lia|done|done].
      * split; [|done]. eapply moved_trans; [|exact HR].
        apply moved_Swap; unfold heap_child in Hc1; lia.
    + split; [apply moved_refl|]. intros i c Hi Hch Hc.
      destruct (decide (i = root)) as [->|Hne]; [|by apply Hpre].
      specialize (Hc3 c Hch Hc). lia.
Qed.

(** The root of a heap holds its largest key. *)
Lemma heap_root_max d (hi : nat) :
  heap_ok d 0 hi → ∀ j, j < hi → (hkey d j ≤ hkey d 0)%Z.
Proof.
  intros Hok j. induction j as [j IHj] using lt_wf_ind. intros Hj.
  destruct (decide (j = 0)) as [->|Hne]; [lia|].
  assert (heap_child ((j - 1) / 2) j) as Hch.
  { unfold heap_child.
    pose proof (Nat.div_mod_eq (j - 1) 2) as Hdm.
    pose proof (Nat.mod_upper_bound (j - 1) 2 ltac:(lia)). lia. }
  assert ((j - 1) / 2 < j) as Hlt.
  { unfold heap_child in Hch. lia. }
  specialize (Hok ((j - 1) / 2) j ltac:(lia) Hch Hj).
  specialize (IHj ((j - 1) / 2) Hlt ltac:(lia)). lia.
Qed.

(** The first loop of [heapSort] builds the heap from the last parent up. *)
Lemma heapSort_build d (hi m : nat) :
  first + hi ≤ length d → heap_ok d m hi →
  let d' := foldl (λ d0 i, siftDown less hi d0 i hi first) d (rev (List.seq 0 m)) in
  moved first (first + hi) d d' ∧ heap_ok d' 0 hi.
Proof.
  revert d. induction m as [|m IH]; intros d Hbl Hok.
  - simpl. split; [apply moved_refl|done].
  - rewrite seq_S, rev_app_distr. simpl.
    destruct (siftDown_spec hi d m m hi) as [HR1 Hok1]; [lia|lia|done| |].
    { split.
      - intros i c Hi Hne Hch Hc. apply Hok; [lia|done|done].
      - intros i c Hi Hch1 Hch2 Hc. unfold heap_child in Hch1. lia. }
    destruct (IH (siftDown less hi d m hi first)) as [HR2 Hok2].
    + rewrite (moved_length _ _ _ _ HR1). done.
    + done.
    + split; [by eapply moved_trans|done].
Qed.

(** The second loop moves the largest key behind the heap, again and
    again. *)
Lemma heapSort_drain d (hi s : nat) :
  s ≤ hi → first + hi ≤ length d →
  heap_ok d 0 s →
  (∀ i j, s ≤ i → i ≤ j → j < hi → (hkey d i ≤ hkey d j)%Z) →
  (∀ i j, i < s → s ≤ j → j < hi → (hkey d i ≤ hkey d j)%Z) →
  let d' := foldl (λ d0 i, siftDown less hi (Swap d0 first (first + i)) 0 i first)
              d (rev (List.seq 0 s)) in
  moved first (first + hi) d d'
  ∧ ∀ i j, i ≤ j → j < hi → (hkey d' i ≤ hkey d' j)%Z.
Proof.
  revert d. induction s as [|s IH]; intros d Hs Hbl Hok Hsorted Hcross.
  - simpl. split; [apply moved_refl|]. intros i j Hij Hj. apply Hsorted; lia.
  - rewrite seq_S, rev_app_distr. simpl.
    pose proof (heap_root_max d (S s) Hok) as Hmax.
    set (d1 := Swap d first (first + s)).
    assert (∀ m, hkey d1 m = if decide (m = s) then hkey d 0
                           else if decide (m = 0) then hkey d s else hkey d m) as Hd1.
    { intros m. subst d1.
      pose proof (Swap_heap_key d 0 s m) as Hsw.
      rewrite Nat.add_0_r in Hsw. apply Hsw; lia. }
    assert (moved first (first + hi) d d1) as HR1.
    { subst d1. apply moved_Swap; lia. }
    assert (length d1 = length d) as Hl1 by apply Swap_length.
    destruct (siftDown_spec hi d1 0 0 s) as [HR2 Hok2]; [lia|lia|lia| |].
    { split.
      - intros i c Hi Hne Hch Hc. rewrite !Hd1.
        repeat case_decide; subst; try (unfold heap_child in *; lia).
        apply Hok; [lia|done|lia].
      - intros i c Hi Hch1 Hch2 Hc. unfold heap_child in Hch1. lia. }
    set (d2 := siftDown less hi d1 0 s first) in *.
    assert (∀ m, s ≤ m → hkey d2 m = hkey d1 m) as Hout.
    { intros m Hm. destruct HR2 as (_ & Ho & _). apply Ho. lia. }
    assert (∀ m, m < s → ∃ m', m' < s ∧ hkey d2 m = hkey d1 m') as Hin.
    { intros m Hm. destruct HR2 as (_ & _ & Hi).
      destruct (Hi (first + m)) as (m' & Hm' & Hk); [lia|].
      exists (m' - first). split; [lia|]. unfold heap_key_at.
      by replace (first + (m' - first)) with m' by lia. }
    destruct (IH d2) as [HR3 Hs3].
    + lia.
    + rewrite (moved_length _ _ _ _ HR2). lia.
    + done.
    + intros i j Hi Hij Hj. rewrite !Hout by lia. rewrite !Hd1.
      repeat case_decide; subst; try lia.
      * apply Hcross; lia.
      * apply Hsorted; lia.
    + intros i j Hi Hsj Hj. rewrite (Hout j) by lia.
      destruct (Hin i Hi) as (i' & Hi' & ->). rewrite !Hd1.
      repeat case_decide; subst; try lia.
      * apply Hmax. lia.
      * apply Hcross; lia.
      * apply Hmax. lia.
      * apply Hcross; lia.
    + split; [|done]. eapply moved_trans; [exact HR1|]. eapply moved_trans; [|exact HR3].
      eapply moved_mono; [| |exact HR2]; lia.
Qed.

End Heap.

Lemma heapSort_spec d (a b : nat) :
  a ≤ b → b ≤ length d →
  let d' := heapSort less d a b in
  moved a b d d' ∧ sorted_range a b d'.
Proof.
  intros Hab Hbl. unfold heapSort. cbv zeta.
  destruct (heapSort_build a d (b - a) ((b - a - 1) / 2 + 1)) as [HR1 Hok1]; [lia| |].
  { intros i c Hi Hch Hc. unfold heap_child in Hch.
    pose proof (Nat.div_mod_eq (b - a - 1) 2) as Hdm.
    pose proof (Nat.mod_upper_bound (b - a - 1) 2 ltac:(lia)). lia. }
  set (d1 := foldl _ d _) in *.
  destruct (heapSort_drain a d1 (b - a) (b - a)) as [HR2 Hs2];
    [lia|rewrite (moved_length _ _ _ _ HR1); lia|done|intros i j; lia|intros i j; lia|].
  replace (a + (b - a)) with b in * by lia.
  split; [by eapply moved_trans|].
  intros i j Hi Hij Hj. specialize (Hs2 (i - a) (j - a) ltac:(lia) ltac:(lia)).
  unfold heap_key_at in Hs2. by replace (a + (i - a)) with i in Hs2 by lia;
    replace (a + (j - a)) with j in Hs2 by lia.
Qed.

(** *** The quicksort *)

Lemma moved_range a b d d' (P : Z → Prop) :
  moved a b d d' → (∀ m, a ≤ m → m < b → P (key d m)) → ∀ m, a ≤ m → m < b → P (key d' m).
Proof.
  intros (_ & _ & Hi) HP m Hm1 Hm2.
  destruct (Hi m) as (m' & Hm' & ->); [lia|]. apply HP; lia.
Qed.

Lemma moved_outside a b d d' (m : nat) : moved a b d d' → m < a ∨ b ≤ m → key d' m = key d m.
Proof. intros (_ & Ho & _). apply Ho. Qed.

(** Two sorted_range parts around a pivot make a sorted_range range. *)
Lemma sorted_range_join a mid b d :
  sorted_range a mid d → sorted_range (mid + 1) b d →
  (∀ m, a ≤ m → m < mid → (key d m ≤ key d mid)%Z) →
  (∀ m, mid < m → m < b → (key d mid ≤ key d m)%Z) →
  sorted_range a b d.
Proof.
  intros Hl Hr Hlo Hhi i j Hi Hij Hj.
  destruct (decide (j < mid)); [apply Hl; lia|].
  destruct (decide (mid < i)); [apply Hr; lia|].
  destruct (decide (i = mid)) as [->|]; destruct (decide (j = mid)) as [->|];
    try lia.
  - apply Hhi; lia.
  - apply Hlo; lia.
  - specialize (Hlo i). specialize (Hhi j). lia.
Qed.

Lemma pdqsort_spec (fuel : nat) d (a b limit : nat) (wb wp : bool) :
  b - a < fuel → a ≤ b → b ≤ length d → below a b d →
  let d' := pdqsort less fuel d a b limit wb wp in
  moved a b d d' ∧ sorted_range a b d'.
Proof.
  revert d a b limit wb wp.
  induction fuel as [|fuel IH]; intros d a b limit wb wp Hf Hab Hbl HLB; [lia|].
  cbn [pdqsort]. cbv zeta.
  destruct (b - a <=? 12) eqn:H12; [by apply insertionSort_spec|].
  apply Nat.leb_gt in H12.
  destruct (limit =? 0); [by apply heapSort_spec|].
  (* breakPatterns *)
  set (s1 := if negb wb then (breakPatterns d a b, limit - 1) else (d, limit)).
  assert (moved a b d s1.1) as HR1.
  { subst s1. destruct (negb wb); simpl; [apply breakPatterns_moved|apply moved_refl]. }
  destruct s1 as [d1 limit1]. simpl in HR1.
  (* choosePivot *)
  pose proof (choosePivot_range d1 a b ltac:(lia)) as Hpiv.
  destruct (choosePivot less d1 a b) as [pivot hint]. simpl in Hpiv.
  set (s2 := match hint with
             | decreasingHint => (reverseRange d1 a b, b - 1 - (pivot - a), increasingHint)
             | _ => (d1, pivot, hint)
             end).
  assert (moved a b d s2.1.1 ∧ a ≤ s2.1.2 ∧ s2.1.2 < b) as (HR2 & Hp2a & Hp2b).
  { subst s2. destruct hint; simpl; try (split; [done|lia]).
    split; [|lia]. eapply moved_trans; [exact HR1|]. apply reverseRange_moved. lia. }
  destruct s2 as [[d2 pivot2] hint2]. simpl in HR2, Hp2a, Hp2b.
  (* partialInsertionSort *)
  set (s3 := match hint2 with
             | increasingHint =>
                 if wb && wp then partialInsertionSort less d2 a b else (d2, false)
             | _ => (d2, false)
             end).
  assert (moved a b d s3.1 ∧ (s3.2 = true → sorted_range a b s3.1)) as [HR3 Hdone].
  { subst s3. destruct hint2; simpl; try (split; [done|done]).
    destruct (wb && wp); simpl; [|split; [done|done]].
    destruct (partialInsertionSort_spec d2 a b) as [HRp Hsp];
      [lia|rewrite (moved_length _ _ _ _ HR2); lia|by eapply below_range_moved|].
    split; [by eapply moved_trans|done]. }
  destruct s3 as [d3 done3]. simpl in HR3, Hdone.
  destruct done3; [split; [done|by apply Hdone]|]. clear Hdone.
  assert (length d3 = length d) as Hl3 by apply (moved_length _ _ _ _ HR3).
  assert (below a b d3) as HLB3 by (by eapply below_range_moved).
  destruct ((0 <? a) && negb (Less less d3 (a - 1) pivot2)) eqn:Heq.
  - (* partitionEqual *)
    apply andb_prop in Heq as [Ha0 Hmin]. apply Nat.ltb_lt in Ha0.
    rewrite Less_key in Hmin by lia. apply negb_true_iff, Z.ltb_ge in Hmin.
    destruct (partitionEqual_spec d3 a b pivot2) as (HR4 & Hm1 & Hm2 & Hlo & Hhi);
      [lia|lia|lia|lia|].
    destruct (partitionEqual less d3 a b pivot2) as [d4 mid]. simpl in *.
    assert (∀ m, a ≤ m → m < b → (key d3 pivot2 ≤ key d4 m)%Z) as Hge.
    { apply (moved_range a b d3 d4 (λ z, (key d3 pivot2 ≤ z)%Z) HR4).
      intros m Hm3 Hm4. specialize (HLB3 (a - 1) m). lia. }
    destruct (IH d4 mid b limit1 wb wp) as [HR5 Hs5].
    + lia.
    + lia.
    + rewrite (moved_length _ _ _ _ HR4). lia.
    + intros i j Hi Hj1 Hj2. destruct (decide (i < a)).
      * eapply (below_range_moved a b d3 d4); [done|done|lia|lia|lia].
      * specialize (Hlo i). specialize (Hhi j). lia.
    + split.
      * eapply moved_trans; [exact HR3|]. eapply moved_trans; [exact HR4|].
        eapply moved_mono; [| |exact HR5]; lia.
      * intros i j Hi Hij Hj.
        destruct (decide (mid ≤ i)); [apply Hs5; lia|].
        rewrite (moved_outside _ _ _ _ i HR5) by lia.
        destruct (decide (mid ≤ j)).
        -- pose proof (moved_range mid b d4 _ (λ z, (key d3 pivot2 < z)%Z) HR5) as Hj5.
           specialize (Hj5 ltac:(intros; apply Hhi; lia) j). specialize (Hlo i). lia.
        -- rewrite (moved_outside _ _ _ _ j HR5) by lia.
           specialize (Hlo i). specialize (Hge j). lia.
  - (* partition *)
    clear Heq.
    destruct (partition_spec d3 a b pivot2) as (HR4 & Hm1 & Hm2 & Hlo & Hhi);
      [lia|lia|lia|lia|].
    destruct (partition less d3 a b pivot2) as [[d4 mid] ap]. simpl in *.
    assert (length d4 = length d) as Hl4 by (rewrite (moved_length _ _ _ _ HR4); lia).
    assert (below a b d4) as HLB4 by (by eapply below_range_moved).
    assert (∀ dl dr, moved a mid d4 dl → moved (mid + 1) b dl dr →
                     sorted_range a mid dl → sorted_range (mid + 1) b dr →
                     moved a b d dr ∧ sorted_range a b dr) as Hleft_first.
    { intros dl dr HRl HRr Hsl Hsr.
      assert (key dr mid = key d4 mid) as Hmid.
      { rewrite (moved_outside _ _ _ _ mid HRr), (moved_outside _ _ _ _ mid HRl) by lia. done. }
      split.
      - eapply moved_trans; [exact HR3|]. eapply moved_trans; [exact HR4|].
        eapply moved_trans; [eapply moved_mono; [| |exact HRl]; lia|].
        eapply moved_mono; [| |exact HRr]; lia.
      - apply (sorted_range_join a mid b).
        + eapply sorted_range_moved_before; [exact Hsl|exact HRr|lia].
        + done.
        + intros m Hm3 Hm4. rewrite Hmid, (moved_outside _ _ _ _ m HRr) by lia.
          pose proof (moved_range a mid d4 dl (λ z, (z < key d4 mid)%Z) HRl Hlo m). lia.
        + intros m Hm3 Hm4. rewrite Hmid.
          pose proof (moved_range (mid + 1) b dl dr (λ z, (key d4 mid ≤ z)%Z) HRr) as Hr.
          apply Hr; [|lia|lia]. intros m' Hm5 Hm6.
          rewrite (moved_outside _ _ _ _ m' HRl) by lia. apply Hhi; lia. }
    assert (∀ dl dr, moved (mid + 1) b d4 dr → moved a mid dr dl →
                     sorted_range (mid + 1) b dr → sorted_range a mid dl →
                     moved a b d dl ∧ sorted_range a b dl) as Hright_first.
    { intros dl dr HRr HRl Hsr Hsl.
      assert (key dl mid = key d4 mid) as Hmid.
      { rewrite (moved_outside _ _ _ _ mid HRl), (moved_outside _ _ _ _ mid HRr) by lia. done. }
      split.
      - eapply moved_trans; [exact HR3|]. eapply moved_trans; [exact HR4|].
        eapply moved_trans; [eapply moved_mono; [| |exact HRr]; lia|].
        eapply moved_mono; [| |exact HRl]; lia.
      - apply (sorted_range_join a mid b).
        + done.
        + eapply sorted_range_moved_after; [exact Hsr|exact HRl|lia].
        + intros m Hm3 Hm4. rewrite Hmid.
          pose proof (moved_range a mid dr dl (λ z, (z < key d4 mid)%Z) HRl) as Hl.
          apply Z.lt_le_incl, Hl; [|lia|lia]. intros m' Hm5 Hm6.
          rewrite (moved_outside _ _ _ _ m' HRr) by lia. apply Hlo; lia.
        + intros m Hm3 Hm4. rewrite Hmid, (moved_outside _ _ _ _ m HRl) by lia.
          pose proof (moved_range (mid + 1) b d4 dr (λ z, (key d4 mid ≤ z)%Z) HRr) as Hr.
          apply Hr; [|lia|lia]. intros m' Hm5 Hm6. apply Hhi; lia. }
    assert (below (mid + 1) b d4) as HLBr.
    { intros i j Hi Hj1 Hj2. destruct (decide (i < a)); [apply HLB4; lia|].
      destruct (decide (i = mid)) as [->|]; [apply Hhi; lia|].
      specialize (Hlo i). specialize (Hhi j). lia. }
    assert (below a mid d4) as HLBl.
    { intros i j Hi Hj1 Hj2. apply HLB4; lia. }
    destruct (mid - a <? b - mid).
    + destruct (IH d4 a mid limit1 true true) as [HRl Hsl]; [lia|lia|lia|done|].
      set (dl := pdqsort less fuel d4 a mid limit1 true true) in *.
      destruct (IH dl (mid + 1) b limit1 (((b - a) / 8 <=? mid - a)) ap)
        as [HRr Hsr]; [lia|lia|rewrite (moved_length _ _ _ _ HRl); lia| |].
      { intros i j Hi Hj1 Hj2. rewrite (moved_outside _ _ _ _ j HRl) by lia.
        destruct (decide (i < a)).
        - rewrite (moved_outside _ _ _ _ i HRl) by lia. apply HLB4; lia.
        - destruct (decide (i = mid)) as [->|].
          + rewrite (moved_outside _ _ _ _ mid HRl) by lia. apply Hhi; lia.
          + pose proof (moved_range a mid d4 dl (λ z, (z < key d4 mid)%Z) HRl Hlo i).
            specialize (Hhi j). lia. }
      by apply (Hleft_first dl).
    + destruct (IH d4 (mid + 1) b limit1 true true) as [HRr Hsr]; [lia|lia|lia|done|].
      set (dr := pdqsort less fuel d4 (mid + 1) b limit1 true true) in *.
      destruct (IH dr a mid limit1 (((b - a) / 8 <=? b - mid)) ap)
        as [HRl Hsl]; [lia|lia|rewrite (moved_length _ _ _ _ HRr); lia| |].
      { intros i j Hi Hj1 Hj2.
        rewrite (moved_outside _ _ _ _ i HRr), (moved_outside _ _ _ _ j HRr) by lia.
        apply HLB4; lia. }
      by apply (Hright_first _ dr).
Qed.

Lemma pdq_Slice_sorted (x : list A) :
  ∀ i j, i ≤ j → j < length x →
         (key (pdq_Slice less x) i ≤ key (pdq_Slice less x) j)%Z.
Proof.
  intros i j Hij Hj.
  destruct (pdqsort_spec (S (length x)) x 0 (length x) (bits_Len (length x)) true true)
    as [_ Hs]; [lia|lia|lia|intros p q; lia|].
  apply Hs; lia.
Qed.

End PdqsortSorts.

(** The comparison of [Search] is the order of the keys [- Score]. *)
Lemma byScore_key (a b : FileScore) :
  byScore a b = (- Score a <? - Score b)%Z.
Proof.
  unfold byScore.
  destruct (Z.ltb_spec (Score b) (Score a)), (Z.ltb_spec (- Score a) (- Score b)); lia.
Qed.

(** The model of [sort.Slice] keeps the contract of [sort.Slice] for the
    comparison of [Search]. *)
Lemma pdq_Slice_sorted_by_score (x : list FileScore) :
  sorted_by_score x (pdq_Slice byScore x).
Proof.
  split; [apply pdq_Slice_Permutation|].
  intros i j a b Hij Ha Hb.
  pose proof (pdq_Slice_Permutation byScore x) as Hperm.
  apply Permutation_length in Hperm.
  pose proof (lookup_lt_Some _ _ _ Hb) as Hj.
  pose proof (pdq_Slice_sorted byScore (λ fs, - Score fs)%Z byScore_key x i j) as Hs.
  unfold key_at in Hs. rewrite Ha, Hb in Hs. simpl in Hs. lia.
Qed.

(** ** The orchestrator: merge, sort, truncate *)

Section SearchSpec.
Context `{GoLib}.
Local Open Scope Z_scope.

Lemma Search_unfold (absRoot query : string) (env : SearchEnv) :
  Search absRoot query env
  = (take 50 (sort_Slice byScore (merged absRoot query env)), None).
Proof.
  unfold Search. cbv zeta. f_equal.
  destruct (Z.ltb_spec 50 (Z.of_nat (length (sort_Slice byScore (merged absRoot query env)))));
    [done|].
  rewrite take_ge; [done|lia].
Qed.

(** The causes of a failed gopls branch. *)
Lemma gopls_branch_unavailable (query : string) (env : SearchEnv) :
  env_gopls env = None → gopls_branch query env = None.
Proof. unfold gopls_branch. by intros ->. Qed.

Lemma gopls_branch_call_error (query : string) (env : SearchEnv) (c : GoplsClient) :
  env_gopls env = Some c →
  ret_err (Call c "workspace/symbol" (JObject [("query", JString query)])
             (env_write env) (env_arrivals env)) ≠ None →
  gopls_branch query env = None.
Proof.
  unfold gopls_branch, SymbolSearch. intros -> He.
  by destruct (ret_err _).
Qed.

Lemma gopls_branch_decode_error (query : string) (env : SearchEnv) (c : GoplsClient) :
  env_gopls env = Some c →
  (∀ symbols,
     ret_res (Call c "workspace/symbol" (JObject [("query", JString query)])
                (env_write env) (env_arrivals env)) ≠ RawSymbols symbols) →
  gopls_branch query env = None.
Proof.
  unfold gopls_branch, SymbolSearch. intros -> Hr.
  destruct (ret_err _); [done|].
  destruct (ret_res _) eqn:Hres; try done. by destruct (Hr symbols).
Qed.

Lemma merged_local_only (absRoot query : string) (env : SearchEnv) :
  gopls_branch query env = None → merged absRoot query env = env_local env.
Proof. unfold merged. by intros ->. Qed.

Lemma merged_nothing (absRoot query : string) (env : SearchEnv) :
  env_local env = [] →
  gopls_branch query env = None ∨ gopls_branch query env = Some [] →
  merged absRoot query env = [].
Proof.
  unfold merged. intros -> [->| ->]; [done|]. by destruct (env_schedule env).
Qed.

(** C9. [Search] never returns an error. When the gopls branch fails
    (gopls unavailable, the call fails or times out, or the result does not
    decode) the result is the local records alone, sorted and truncated; and
    when both branches produce nothing the result is empty, still without
    error. *)
Theorem Search_never_fails (absRoot query : string) (env : SearchEnv) :
  (∀ x : list FileScore, sort_Slice byScore x ≡ₚ x) →
  (Search absRoot query env).2 = None
  ∧ (gopls_branch query env = None →
     (Search absRoot query env).1 = take 50 (sort_Slice byScore (env_local env)))
  ∧ (env_gopls env = None → gopls_branch query env = None)
  ∧ (∀ c, env_gopls env = Some c →
       ret_err (Call c "workspace/symbol" (JObject [("query", JString query)])
                  (env_write env) (env_arrivals env)) ≠ None →
       gopls_branch query env = None)
  ∧ (∀ c, env_gopls env = Some c →
       (∀ symbols,
          ret_res (Call c "workspace/symbol" (JObject [("query", JString query)])
                     (env_write env) (env_arrivals env)) ≠ RawSymbols symbols) →
       gopls_branch query env = None)
  ∧ (env_local env = [] →
     gopls_branch query env = None ∨ gopls_branch query env = Some [] →
     Search absRoot query env = ([], None)).
Proof.
  intros Hperm. rewrite Search_unfold. simpl.
  split; [done|]. split.
  { intros Hb. by rewrite merged_local_only. }
  split; [apply gopls_branch_unavailable|].
  split; [apply gopls_branch_call_error|].
  split; [apply gopls_branch_decode_error|].
  intros Hl Hb. rewrite merged_nothing by done.
  by rewrite (proj1 (Permutation_nil_r _) (Hperm [])).
Qed.

End SearchSpec.

(** The theorem where the gopls executable is absent: two local records come
    back, best first, and no error. *)
Lemma Search_never_fails_witness :
  let env := mkSearchEnv
               [mkFileScore "util/strings.go" 65 ["func:Trim"] false;
                mkFileScore "cmd/main.go" 115 ["func:Run"] false]
               None None [] LocalFirst in
  Search "/w/app" "run" env
  = ([mkFileScore "cmd/main.go" 115 ["func:Run"] false;
      mkFileScore "util/strings.go" 65 ["func:Trim"] false], None).
Proof.
  intros env.
  assert (∀ x : list FileScore, sort_Slice byScore x ≡ₚ x) as Hperm
    by exact (pdq_Slice_Permutation byScore).
  destruct (Search_never_fails "/w/app" "run" env Hperm) as (He & Hl & Hu & _).
  specialize (Hl (Hu eq_refl)).
  rewrite (surjective_pairing (Search "/w/app" "run" env)), He, Hl.
  reflexivity.
Defined.

(** The first 50 records of a collection sorted by descending score. *)
Lemma sorted_by_score_take (all s : list FileScore) :
  sorted_by_score all s →
  let out := take 50 s in
  (length out ≤ 50)%nat
  ∧ length out = (length all `min` 50)%nat
  ∧ (∀ (i j : nat) (a b : FileScore),
       (i < j)%nat → out !! i = Some a → out !! j = Some b → (Score b ≤ Score a)%Z)
  ∧ ∃ rest : list FileScore,
      (out ++ rest)%list ≡ₚ all
      ∧ ∀ a b, a ∈ out → b ∈ rest → (Score b ≤ Score a)%Z.
Proof.
  intros [Hperm Hord] out. subst out.
  split; [rewrite length_take; lia|]. split.
  { rewrite length_take. pose proof (Permutation_length Hperm). lia. }
  split.
  { intros i j a b Hij Ha Hb.
    apply lookup_take_Some in Ha as [Ha _]. apply lookup_take_Some in Hb as [Hb _].
    by eapply Hord. }
  exists (drop 50 s). split.
  { by rewrite take_drop. }
  intros a b Ha Hb.
  apply list_elem_of_lookup in Ha as [i Ha]. apply list_elem_of_lookup in Hb as [j Hb].
  apply lookup_take_Some in Ha as [Ha Hi]. rewrite lookup_drop in Hb.
  eapply (Hord i (50 + j)%nat); [lia|done|done].
Qed.

Section SearchOrder.
Context `{GoLib}.
Local Open Scope Z_scope.

(** C3, as the code has it. When [sort.Slice] keeps its contract on the
    merged collection, [Search] returns the first 50 records (all of them
    when there are fewer) of the merged collection sorted by descending
    score: at most 50 records, scores never increasing along the result, and
    every record left out scores no higher than any record returned. The
    order among records of equal score is whatever [sort.Slice] produces. *)
Theorem Search_sorted_truncated (absRoot query : string) (env : SearchEnv) :
  sorted_by_score (merged absRoot query env)
    (sort_Slice byScore (merged absRoot query env)) →
  let out := (Search absRoot query env).1 in
  let all := merged absRoot query env in
  out = take 50 (sort_Slice byScore all)
  ∧ (length out ≤ 50)%nat
  ∧ length out = (length all `min` 50)%nat
  ∧ (∀ (i j : nat) (a b : FileScore),
       (i < j)%nat → out !! i = Some a → out !! j = Some b → Score b ≤ Score a)
  ∧ ∃ rest : list FileScore,
      (out ++ rest)%list ≡ₚ all
      ∧ ∀ a b, a ∈ out → b ∈ rest → Score b ≤ Score a.
Proof.
  intros Hsort out all. subst out. rewrite Search_unfold. simpl.
  split; [done|]. by apply sorted_by_score_take.
Qed.

End SearchOrder.

(** With the pattern-defeating quicksort of Go's [sort.Slice] the contract
    holds on every merged collection: [Search] returns at most 50 records
    with scores never increasing, and every record of the merged collection
    that is left out scores no higher than any record returned. *)
Theorem Search_pdqsort_sorted_truncated (absRoot query : string) (env : SearchEnv) :
  let out := (Search (H := go_unix) absRoot query env).1 in
  let all := merged (H := go_unix) absRoot query env in
  (length out ≤ 50)%nat
  ∧ length out = (length all `min` 50)%nat
  ∧ (∀ (i j : nat) (a b : FileScore),
       (i < j)%nat → out !! i = Some a → out !! j = Some b → (Score b ≤ Score a)%Z)
  ∧ ∃ rest : list FileScore,
      (out ++ rest)%list ≡ₚ all
      ∧ ∀ a b, a ∈ out → b ∈ rest → (Score b ≤ Score a)%Z.
Proof.
  intros out all. subst out. rewrite Search_unfold. simpl.
  apply sorted_by_score_take, pdq_Slice_sorted_by_score.
Qed.

(** The theorem on two local records and one record of gopls. *)
Lemma Search_sorted_truncated_witness :
  let env := mkSearchEnv
               [mkFileScore "util/strings.go" 65 ["func:Trim"] false;
                mkFileScore "cmd/main.go" 115 ["func:Run"] false]
               (Some NewClient) None
               [mkArrival 1000%Z
                  (Some (mkResp 1 (RawSymbols
                     [mkSymbol "Run" 12 "exec" "file:///home/u/go/pkg/mod/m@v1/exec.go"])))]
               LocalFirst in
  (Search "/w/app" "run" env).1
  = [mkFileScore "cmd/main.go" 115 ["func:Run"] false;
     mkFileScore "/home/u/go/pkg/mod/m@v1/exec.go" 85 ["gopls:Run"] true;
     mkFileScore "util/strings.go" 65 ["func:Trim"] false].
Proof.
  intros env.
  assert (sorted_by_score (merged "/w/app" "run" env)
            (sort_Slice byScore (merged "/w/app" "run" env))) as Hs.
  { split.
    - vm_compute. symmetry. apply (Permutation_cons_append [_; _]).
    - intros i j a b Hij Ha Hb. vm_compute in Ha, Hb.
      destruct i as [|[|[|i]]], j as [|[|[|j]]]; simplify_eq/=; lia. }
  destruct (Search_sorted_truncated "/w/app" "run" env Hs) as (Hout & _).
  rewrite Hout. reflexivity.
Defined.

(** [sort.Slice] is not stable. In the merged collection f01.go comes before
    f06.go and both score 9; in the result of [Search] f06.go comes first
    and f01.go second. *)
Lemma Search_reorders_equal_scores :
  merged "/w/app" "q" thirteen_env !! 1%nat
    = Some (mkFileScore "f01.go" 9 ["func:Q"] false)
  ∧ merged "/w/app" "q" thirteen_env !! 6%nat
    = Some (mkFileScore "f06.go" 9 ["func:Q"] false)
  ∧ (Search "/w/app" "q" thirteen_env).1 !! 0%nat
    = Some (mkFileScore "f06.go" 9 ["func:Q"] false)
  ∧ (Search "/w/app" "q" thirteen_env).1 !! 1%nat
    = Some (mkFileScore "f01.go" 9 ["func:Q"] false).
Proof. repeat split; by vm_compute. Qed.

(** ** The merge: duplicates and paths under the root *)

Section MergeSpec.
Context `{GoLib}.

Lemma isDup_false (absRoot : string) (results : list FileScore) (gr : FileScore) :
  isDup absRoot results gr = false ↔
  ∀ e, e ∈ results → abs_path absRoot e ≠ Path gr.
Proof.
  unfold isDup. rewrite <- not_true_iff_false, existsb_exists. split.
  - intros Hno e He Heq. apply Hno. exists e. split; [by apply list_elem_of_In|].
    apply String.eqb_eq. exact Heq.
  - intros Hall (e & He & Heq). apply String.eqb_eq in Heq.
    by apply (Hall e); [apply list_elem_of_In|].
Qed.

Lemma merge_body_spec (absRoot : string) (results : list FileScore) (gr : FileScore) :
  merge_body absRoot results gr
  = if isDup absRoot results gr then results
    else (results ++ [relocate absRoot gr])%list.
Proof. unfold merge_body, relocate. by repeat case_match. Qed.

(** The merge keeps the records it starts from, in order, and appends only
    gopls records whose path none of them resolves to. *)
Lemma merge_gopls_appends (absRoot : string) (goplsRes results : list FileScore) :
  ∃ added : list FileScore,
    merge_gopls absRoot results goplsRes = (results ++ added)%list
    ∧ ∀ x, x ∈ added →
        ∃ gr, gr ∈ goplsRes ∧ x = relocate absRoot gr
              ∧ ∀ e, e ∈ results → abs_path absRoot e ≠ Path gr.
Proof.
  unfold merge_gopls. revert results.
  induction goplsRes as [|gr goplsRes IH]; intros results; simpl.
  - exists []. split; [by rewrite app_nil_r|]. by intros x Hx%elem_of_nil.
  - rewrite merge_body_spec. destruct (isDup absRoot results gr) eqn:Hdup.
    + destruct (IH results) as (added & -> & Hadded). exists added.
      split; [done|]. intros x Hx.
      destruct (Hadded x Hx) as (g & Hg & -> & Hne). exists g.
      split; [by right|done].
    + destruct (IH (results ++ [relocate absRoot gr])%list) as (added & -> & Hadded).
      exists (relocate absRoot gr :: added). split; [by rewrite <- app_assoc|].
      intros x [->|Hx]%elem_of_cons.
      * exists gr. split; [by left|]. split; [done|]. by apply isDup_false.
      * destruct (Hadded x Hx) as (g & Hg & -> & Hne). exists g.
        split; [by right|]. split; [done|].
        intros e He. apply Hne. apply elem_of_app. by left.
Qed.

(** When the local branch appends first, a gopls record whose path a local
    record resolves to is discarded: the merged collection is the local
    records followed by gopls records that duplicate none of them. *)
Lemma merged_local_first_dedups (absRoot query : string) (env : SearchEnv)
    (goplsRes : list FileScore) :
  gopls_branch query env = Some goplsRes →
  env_schedule env = LocalFirst →
  ∃ added : list FileScore,
    merged absRoot query env = (env_local env ++ added)%list
    ∧ ∀ x, x ∈ added →
        ∃ gr, gr ∈ goplsRes ∧ x = relocate absRoot gr
              ∧ ∀ e, e ∈ env_local env → abs_path absRoot e ≠ Path gr.
Proof.
  intros Hb Hs. unfold merged. rewrite Hb, Hs. simpl.
  apply merge_gopls_appends.
Qed.

(** A gopls record under the root that is no duplicate is appended with its
    path made relative and its dependency flag cleared; a record whose path
    does not start with the root is appended as it is. *)
Lemma merge_body_under_root (absRoot : string) (results : list FileScore)
    (gr : FileScore) :
  isDup absRoot results gr = false →
  (lies_under absRoot (Path gr) →
   merge_body absRoot results gr
   = (results ++ [mkFileScore (filepath_Rel absRoot (Path gr)).1
                    (Score gr) (Reasons gr) false])%list)
  ∧ (strings_HasPrefix (Path gr) absRoot = false →
     merge_body absRoot results gr = (results ++ [gr])%list).
Proof.
  intros Hdup. rewrite merge_body_spec, Hdup. unfold relocate. split.
  - intros Hu. by rewrite (lies_under_HasPrefix _ _ Hu).
  - by intros ->.
Qed.

End MergeSpec.

Lemma inside_root_spec (root path : string) :
  inside_root root path = true ↔ lies_under root path.
Proof.
  unfold inside_root, lies_under. rewrite orb_true_iff, String.eqb_eq. done.
Qed.

(** C2 at that input. When the local branch appends first, the gopls
    record is discarded. When the gopls branch takes the mutex first, it
    finds nothing to compare with, and [Search] returns two records for
    cmd/main.go: the local one and the one of gopls. *)
Lemma Search_gopls_first_keeps_duplicate :
  Search "/w/app" "run" (both_found LocalFirst)
  = ([mkFileScore "cmd/main.go" 115 ["func:Run"] false], None)
  ∧ Search "/w/app" "run" (both_found RemoteFirst)
    = ([mkFileScore "cmd/main.go" 115 ["func:Run"] false;
        mkFileScore "cmd/main.go" 110 ["gopls:Run"] false], None).
Proof. split; by vm_compute. Qed.

(** C6 at that input. The path is not under the root, gopls classifies the
    record as a dependency, and yet [Search] returns it with a path relative
    to the root and the dependency flag cleared. *)
Lemma Search_relocates_path_beside_root :
  inside_root "/w/app" "/w/app-deps/pkg/mod/m@v1/z.go" = false
  ∧ gopls_branch "parse" beside_root
    = Some [mkFileScore "/w/app-deps/pkg/mod/m@v1/z.go" 85 ["gopls:Parse"] true]
  ∧ Search "/w/app" "parse" beside_root
    = ([mkFileScore "../app-deps/pkg/mod/m@v1/z.go" 85 ["gopls:Parse"] false], None).
Proof. repeat split; by vm_compute. Qed.

(** ** The read loop *)

Section ReadLoopSpec.
Context `{GoLib}.

Lemma io_ReadFull_rest (r body r' : list ascii) (n : nat) :
  io_ReadFull r n = Some (body, r') → (length r' ≤ length r)%nat.
Proof.
  unfold io_ReadFull. case_match; [|done]. intros [= <- <-].
  rewrite length_drop. lia.
Qed.

(** The loop ends on every finite stream. *)
Lemma ReadLoop_fuel_total (fuel : nat) (r : list ascii) :
  reads_forward → (length r < fuel)%nat → is_Some (ReadLoop_fuel fuel r).
Proof.
  intros Hfwd. revert r. induction fuel as [|fuel IH]; intros r Hlen; [lia|].
  simpl. destruct (textproto_ReadMIMEHeader r) as [[headers r']|] eqn:Hh; [|eauto].
  apply Hfwd in Hh.
  destruct (_ =? 0)%Z; [apply IH; lia|].
  destruct (makeslice_panics _); [eauto|].
  destruct (io_ReadFull r' _) as [[body r'']|] eqn:Hb; [|eauto].
  apply io_ReadFull_rest in Hb.
  destruct (IH r'') as [[bodies e] ->]; [lia|eauto].
Qed.

Lemma ReadLoop_total (r : list ascii) : reads_forward → is_Some (ReadLoop r).
Proof. intros Hfwd. apply ReadLoop_fuel_total; [done|lia]. Qed.

(** More fuel than needed changes nothing. *)
Lemma ReadLoop_fuel_mono (fuel fuel' : nat) (r : list ascii) res :
  (fuel ≤ fuel')%nat → ReadLoop_fuel fuel r = Some res →
  ReadLoop_fuel fuel' r = Some res.
Proof.
  revert fuel' r res. induction fuel as [|fuel IH]; intros fuel' r res Hle Hr;
    [done|].
  destruct fuel' as [|fuel']; [lia|]. simpl in *.
  destruct (textproto_ReadMIMEHeader r) as [[headers r']|]; [|done].
  destruct (_ =? 0)%Z; [apply IH; [lia|done]|].
  destruct (makeslice_panics _); [done|].
  destruct (io_ReadFull _ _) as [[body r'']|]; [|done].
  destruct (ReadLoop_fuel fuel r'') as [[bodies e]|] eqn:Hrec; [|done].
  by rewrite (IH fuel' r'' (bodies, e)); [|lia|].
Qed.

(** A frame whose header block is read and whose length is zero is skipped:
    nothing is dispatched for it and the loop goes on with the bytes after
    the block. *)
Lemma ReadLoop_skips_zero_length (r r' : list ascii) (headers : MIMEHeader) :
  reads_forward →
  textproto_ReadMIMEHeader r = Some (headers, r') →
  (strconv_Atoi (MIMEHeader_Get headers "Content-Length")).1 = 0%Z →
  ReadLoop r = ReadLoop r'.
Proof.
  intros Hfwd Hh Hz. unfold ReadLoop.
  change (ReadLoop_fuel (S (length r)) r) with
    (match textproto_ReadMIMEHeader r with
     | None => Some ([], HeaderReadFailed)
     | Some (headers, r0) =>
         let length0 := (strconv_Atoi (MIMEHeader_Get headers "Content-Length")).1 in
         if (length0 =? 0)%Z then ReadLoop_fuel (length r) r0
         else if makeslice_panics length0 then Some ([], MakeslicePanic length0)
         else match io_ReadFull r0 (Z.to_nat length0) with
              | None => Some ([], BodyReadFailed)
              | Some (body, r1) =>
                  match ReadLoop_fuel (length r) r1 with
                  | Some (bodies, e) => Some (body :: bodies, e)
                  | None => None
                  end
              end
     end).
  rewrite Hh. cbv zeta. rewrite Hz.
  change (0 =? 0)%Z with true. cbv iota.
  pose proof (Hfwd _ _ _ Hh) as Hlt.
  destruct (ReadLoop_fuel_total (S (length r')) r' Hfwd) as [res Hres]; [lia|].
  rewrite Hres. apply (ReadLoop_fuel_mono (S (length r'))); [lia|done].
Qed.

End ReadLoopSpec.

(** A value on which [strconv.Atoi] reports a syntax error gives 0; so does
    the empty string, which is what [Get] returns for an absent header. *)
Lemma ParseUint_loop_syntax (s : string) (n : Z) :
  (ParseUint_loop s n).2 = Some errSyntax → (ParseUint_loop s n).1 = 0%Z.
Proof.
  revert n. induction s as [|c s IH]; intros n; simpl; [done|].
  repeat case_match; simpl; try done. apply IH.
Qed.

Lemma Atoi_syntax_error_zero (s : string) :
  (strconv_Atoi s).2 = Some errSyntax → (strconv_Atoi s).1 = 0%Z.
Proof.
  unfold strconv_Atoi. case_match.
  - destruct s as [|c s]; [done|]. repeat case_match; simpl; done.
  - unfold ParseInt. destruct s as [|c s]; [done|].
    destruct (ParseUint _) as [un err] eqn:Hu.
    repeat case_match; simpl; try done.
Qed.

Lemma Atoi_empty : strconv_Atoi "" = (0%Z, Some errSyntax).
Proof. reflexivity. Qed.

(** The model of [ReadMIMEHeader] reads forward. *)
Lemma read_line_shorter (r : list ascii) (acc line : string) (r' : list ascii) :
  read_line acc r = Some (line, r') → (length r' < length r)%nat.
Proof.
  revert acc. induction r as [|c r IH]; intros acc; simpl; [done|].
  destruct (Ascii.eqb c "010"); [intros [= _ <-]; lia|].
  destruct r as [|c' r'']; [done|].
  destruct (_ && _); [intros [= _ <-]; simpl; lia|].
  intros Hr. apply IH in Hr. simpl in *. lia.
Qed.

Lemma read_block_shorter (fuel : nat) (r : list ascii) (lines : list string)
    (r' : list ascii) :
  read_block fuel r = Some (lines, r') → (length r' < length r)%nat.
Proof.
  revert r lines r'. induction fuel as [|fuel IH]; intros r lines r'; simpl; [done|].
  destruct (read_line "" r) as [[line r1]|] eqn:Hl; [|done].
  apply read_line_shorter in Hl.
  destruct (String.eqb line ""); [intros [= _ <-]; lia|].
  destruct (read_block fuel r1) as [[lines' r2]|] eqn:Hb; [|done].
  apply IH in Hb. intros [= _ <-]. lia.
Qed.

Lemma simple_ReadMIMEHeader_forward : @reads_forward go_unix.
Proof.
  intros r headers r'. simpl. unfold simple_ReadMIMEHeader.
  destruct r as [|c r0]; [done|]. destruct (is_space c); [done|].
  destruct (read_block _ _) as [[lines r1]|] eqn:Hb; [|done].
  apply read_block_shorter in Hb.
  destruct (parse_lines _); [|done]. by intros [= _ <-].
Qed.

(** C10 at three streams of two frames, the second a response of two
    bytes. A first frame without a numeric Content-Length is skipped and the
    second is dispatched before the stream ends. A first frame with
    Content-Length -1 is not skipped: [make([]byte, -1)] panics, the loop
    ends there though no read has failed, and the second frame is never
    dispatched. *)
Lemma ReadLoop_negative_length_panics :
  ReadLoop (frame "Content-Length: abc" "" ++ frame "Content-Length: 2" "{}")
  = Some ([list_ascii_of_string "{}"], HeaderReadFailed)
  ∧ ReadLoop (frame "X-Trace: on" "" ++ frame "Content-Length: 2" "{}")
    = Some ([list_ascii_of_string "{}"], HeaderReadFailed)
  ∧ strconv_Atoi "-1" = ((-1)%Z, None)
  ∧ ReadLoop (frame "Content-Length: -1" "" ++ frame "Content-Length: 2" "{}")
    = Some ([], MakeslicePanic (-1)).
Proof. repeat split; by vm_compute. Qed.

(** The skip of a frame without a usable length, on the model of the
    library: the header block is read, [Atoi] reports a syntax error, and the
    loop continues with the next frame. *)
Lemma ReadLoop_skips_witness :
  ReadLoop (frame "Content-Length: abc" "" ++ frame "Content-Length: 2" "{}")
  = ReadLoop (frame "Content-Length: 2" "{}").
Proof.
  apply (ReadLoop_skips_zero_length _ _ [("Content-Length", "abc")]).
  - exact simple_ReadMIMEHeader_forward.
  - by vm_compute.
  - apply Atoi_syntax_error_zero. by vm_compute.
Defined.

(** The lemmas above at concrete inputs. *)
Lemma merged_local_first_dedups_witness :
  ∃ added : list FileScore,
    merged "/w/app" "run" (both_found LocalFirst)
    = (env_local (both_found LocalFirst) ++ added)%list
    ∧ ∀ x, x ∈ added →
        ∃ gr, gr ∈ [mkFileScore "/w/app/cmd/main.go" 110 ["gopls:Run"] false]
              ∧ x = relocate "/w/app" gr
              ∧ ∀ e, e ∈ env_local (both_found LocalFirst) →
                     abs_path "/w/app" e ≠ Path gr.
Proof.
  apply (merged_local_first_dedups "/w/app" "run" (both_found LocalFirst)).
  - by vm_compute.
  - reflexivity.
Defined.

Lemma merge_body_under_root_witness :
  merge_body "/w/app" [] (mkFileScore "/w/app/cmd/main.go" 110 ["gopls:Run"] true)
  = [mkFileScore "cmd/main.go" 110 ["gopls:Run"] false].
Proof.
  destruct (merge_body_under_root "/w/app" []
              (mkFileScore "/w/app/cmd/main.go" 110 ["gopls:Run"] true) eq_refl)
    as [Hin _].
  rewrite Hin; [reflexivity|]. right. reflexivity.
Defined.

Lemma Call_receives_own_response_witness :
  let arrivals := [mkArrival 10%Z (Some (mkResp 7 RawNil));
                   mkArrival 20%Z None;
                   mkArrival 30%Z (Some (mkResp 1 (RawSymbols [])));
                   mkArrival 40%Z (Some (mkResp 1 RawNil))] in
  let r := Call NewClient "workspace/symbol" (JObject []) None arrivals in
  ret_res r = RawSymbols [] ∧ ret_err r = None
  ∧ pending (ret_client r) !! 1%Z = None.
Proof.
  intros arrivals.
  apply (Call_receives_own_response NewClient "workspace/symbol" (JObject [])
           arrivals [Some (mkResp 7 RawNil); None] [Some (mkResp 1 RawNil)]
           (mkResp 1 (RawSymbols []))).
  - exact wf_NewClient.
  - by vm_compute.
  - reflexivity.
  - intros r [Hr|Hr]%elem_of_cons.
    + injection Hr as ->. by vm_compute.
    + by apply list_elem_of_singleton in Hr.
  - reflexivity.
Defined.

(** ** Byte strings *)

Lemma string_app_cons (c : ascii) (a b : string) :
  String c a ++ b = String c (a ++ b).
Proof. reflexivity. Qed.

Lemma string_app_nil_r (s : string) : s ++ "" = s.
Proof. induction s as [|c s IH]; [done|]. by rewrite string_app_cons, IH. Qed.

Lemma string_app_assoc (a b c : string) : (a ++ b) ++ c = a ++ (b ++ c).
Proof. induction a as [|x a IH]; [done|]. by rewrite !string_app_cons, IH. Qed.

Lemma string_app_length (a b : string) :
  String.length (a ++ b) = (String.length a + String.length b)%nat.
Proof. induction a as [|x a IH]; [done|]. rewrite string_app_cons. simpl. by rewrite IH. Qed.

Lemma ascii_ToLower_app (a b : string) :
  ascii_ToLower (a ++ b) = ascii_ToLower a ++ ascii_ToLower b.
Proof. induction a as [|x a IH]; [done|]. rewrite string_app_cons. simpl. by rewrite IH. Qed.

Lemma all_bytes_cons (p : ascii → bool) (c : ascii) (s : string) :
  all_bytes p (String c s) = p c && all_bytes p s.
Proof. reflexivity. Qed.

Lemma all_bytes_app (p : ascii → bool) (a b : string) :
  all_bytes p (a ++ b) = all_bytes p a && all_bytes p b.
Proof.
  induction a as [|x a IH]; [done|].
  by rewrite string_app_cons, !all_bytes_cons, IH, andb_assoc.
Qed.

Lemma keep_bytes_app (p : ascii → bool) (a b : string) :
  keep_bytes p (a ++ b) = keep_bytes p a ++ keep_bytes p b.
Proof.
  induction a as [|x a IH]; [done|]. rewrite string_app_cons. simpl.
  destruct (p x); by rewrite ?string_app_cons, IH.
Qed.

Lemma concat_cons (x : string) (l : list string) :
  String.concat "" (x :: l) = x ++ String.concat "" l.
Proof. destruct l; simpl; [by rewrite string_app_nil_r|done]. Qed.

Lemma concat_app (l k : list string) :
  String.concat "" (l ++ k) = String.concat "" l ++ String.concat "" k.
Proof.
  induction l as [|x l IH]; [done|].
  change ((x :: l) ++ k)%list with (x :: (l ++ k)%list).
  by rewrite !concat_cons, IH, string_app_assoc.
Qed.

(** ** [Tokenize] *)

Lemma ascii_lower_alnum (c : ascii) :
  is_alnum c = true → is_token_byte (ascii_lower c) = true.
Proof. destruct c as [[] [] [] [] [] [] [] []]; vm_compute; congruence. Qed.

Lemma ascii_lower_token_byte (c : ascii) :
  is_token_byte c = true → ascii_lower c = c.
Proof. destruct c as [[] [] [] [] [] [] [] []]; vm_compute; congruence. Qed.

Lemma token_byte_alnum (c : ascii) :
  is_token_byte c = true → is_alnum c = true ∧ is_upper c = false.
Proof. destruct c as [[] [] [] [] [] [] [] []]; vm_compute; split; congruence. Qed.

Lemma ascii_ToLower_alnum (s : string) :
  all_bytes is_alnum s = true → all_bytes is_token_byte (ascii_ToLower s) = true.
Proof.
  induction s as [|c s IH]; [done|]. simpl. rewrite !all_bytes_cons.
  intros [Hc Hs]%andb_true_iff. by rewrite ascii_lower_alnum, IH.
Qed.

Lemma ascii_ToLower_token (s : string) :
  all_bytes is_token_byte s = true → ascii_ToLower s = s.
Proof.
  induction s as [|c s IH]; [done|]. simpl. rewrite !all_bytes_cons.
  intros [Hc Hs]%andb_true_iff. by rewrite ascii_lower_token_byte, IH.
Qed.

Lemma ascii_ToLower_nonempty (s : string) : s ≠ "" → ascii_ToLower s ≠ "".
Proof. by destruct s. Qed.

(** The pieces of the splitter hold letters and digits only, and together
    they are the letters and digits of the input. *)
Lemma splitter_Split_scan_spec (in_match : bool) (cur s : string) :
  all_bytes is_alnum cur = true →
  Forall (λ p, all_bytes is_alnum p = true) (splitter_Split_scan in_match cur s)
  ∧ String.concat "" (splitter_Split_scan in_match cur s)
    = cur ++ keep_bytes is_alnum s.
Proof.
  revert in_match cur. induction s as [|c s IH]; intros in_match cur Hcur; simpl.
  - split; [by constructor|]. by rewrite string_app_nil_r.
  - destruct (is_alnum c) eqn:Hc.
    + destruct (IH false (cur ++ String c "")) as [IH1 IH2].
      { by rewrite all_bytes_app, Hcur, all_bytes_cons, Hc. }
      split; [done|]. by rewrite IH2, string_app_assoc.
    + destruct in_match.
      * by apply IH.
      * destruct (IH true "" eq_refl) as [IH1 IH2]. split; [by constructor|].
        by rewrite concat_cons, IH2.
Qed.

Section TokenizeSpec.

(** One part: the tokens flushed keep the bytes read, lower-cased, and are
    tokens. *)
Lemma Tokenize_part_spec (part : string) :
  ∀ (tokens : list string) (currentToken : string) (prev : option ascii),
    all_bytes is_alnum part = true →
    all_bytes is_alnum currentToken = true →
    (is_Some prev → currentToken ≠ "") →
    Forall is_token tokens →
    Forall is_token (Tokenize_part tokens currentToken prev part)
    ∧ String.concat "" (Tokenize_part tokens currentToken prev part)
      = String.concat "" tokens ++ ascii_ToLower (currentToken ++ part).
Proof.
  induction part as [|r part IH]; intros tokens cur prev Hpart Hcur Hprev Htok.
  - simpl. destruct cur as [|c cur]; simpl.
    + split; [done|]. by rewrite string_app_nil_r.
    + split.
      * apply Forall_app. split; [done|]. constructor; [|done]. split; [done|].
        by apply (ascii_ToLower_alnum (String c cur)).
      * rewrite concat_app, concat_cons. simpl. by rewrite !string_app_nil_r.
  - rewrite all_bytes_cons in Hpart. apply andb_true_iff in Hpart as [Hr Hpart].
    cbn [Tokenize_part].
    assert (all_bytes is_alnum (String r "") = true) as Hr1
      by (by rewrite all_bytes_cons, Hr).
    set (boundary := match prev with Some p => is_upper r && is_lower p | None => false end).
    destruct boundary eqn:Hb.
    + assert (cur ≠ "") as Hne.
      { apply Hprev. subst boundary. destruct prev; [done|discriminate]. }
      destruct (IH (tokens ++ [strings_ToLower cur])%list ("" ++ String r "") (Some r))
        as [IH1 IH2]; [done|done|done| |].
      { apply Forall_app. split; [done|]. constructor; [|done]. split.
        - by apply ascii_ToLower_nonempty.
        - by apply ascii_ToLower_alnum. }
      split; [done|]. rewrite IH2, concat_app, concat_cons. simpl.
      rewrite string_app_nil_r, string_app_assoc. f_equal.
      change ("" ++ part) with part. by rewrite ascii_ToLower_app.
    + destruct (IH tokens (cur ++ String r "") (Some r)) as [IH1 IH2]; [done| | |done|].
      { by rewrite all_bytes_app, Hcur, Hr1. }
      { intros _. by destruct cur. }
      split; [done|]. rewrite IH2. by rewrite string_app_assoc.
Qed.

Lemma Tokenize_parts_spec (parts : list string) :
  ∀ tokens : list string,
    Forall (λ p, all_bytes is_alnum p = true) parts →
    Forall is_token tokens →
    let out := foldl (λ tokens part, Tokenize_part tokens "" None part) tokens parts in
    Forall is_token out
    ∧ String.concat "" out
      = String.concat "" tokens ++ ascii_ToLower (String.concat "" parts).
Proof.
  induction parts as [|p parts IH]; intros tokens Hparts Htok out; subst out.
  - simpl. split; [done|]. by rewrite string_app_nil_r.
  - apply Forall_cons in Hparts as [Hp Hparts]. cbn [foldl].
    destruct (Tokenize_part_spec p tokens "" None) as [H1 H2];
      [done|done|by intros [? ?]|done|].
    destruct (IH _ Hparts H1) as [IH1 IH2]. split; [done|].
    change ("" ++ p) with p in H2. rewrite IH2, H2, concat_cons, ascii_ToLower_app, string_app_assoc. done.
Qed.

Lemma Tokenize_spec (input : string) :
  Forall is_token (Tokenize input)
  ∧ String.concat "" (Tokenize input)
    = ascii_ToLower (keep_bytes is_alnum input).
Proof.
  unfold Tokenize, splitter_Split.
  destruct (splitter_Split_scan_spec false "" input eq_refl) as [Hp Hc].
  destruct (Tokenize_parts_spec _ [] Hp (Forall_nil_2 _)) as [H1 H2].
  split; [done|]. rewrite H2, Hc. done.
Qed.

(** Every token is not empty and holds lower-case letters and digits only;
    and the tokens, one after the other, are the letters and digits of the
    input in lower case: [Tokenize] drops the other bytes and nothing
    else. *)
Theorem Tokenize_tokens (input : string) :
  (∀ t, t ∈ Tokenize input → t ≠ "" ∧ all_bytes is_token_byte t = true)
  ∧ String.concat "" (Tokenize input)
    = ascii_ToLower (keep_bytes is_alnum input).
Proof.
  destruct (Tokenize_spec input) as [Htok Hcat]. split; [|done].
  intros t Ht. by apply (proj1 (Forall_forall _ _) Htok).
Qed.

Lemma keep_bytes_all (p : ascii → bool) (s : string) :
  all_bytes p s = true → keep_bytes p s = s.
Proof.
  induction s as [|c s IH]; [done|]. rewrite all_bytes_cons.
  intros [Hc Hs]%andb_true_iff. simpl. by rewrite Hc, IH.
Qed.

(** A word of letters and digits is one piece of the splitter. *)
Lemma splitter_Split_scan_word (cur w : string) :
  all_bytes is_alnum w = true → splitter_Split_scan false cur w = [cur ++ w].
Proof.
  revert cur. induction w as [|c w IH]; intros cur Hw.
  - simpl. by rewrite string_app_nil_r.
  - rewrite all_bytes_cons in Hw. apply andb_true_iff in Hw as [Hc Hw].
    simpl. rewrite Hc, IH by done. by rewrite string_app_assoc.
Qed.

(** The tokens of one part: one more than it has camel-case boundaries. *)
Lemma Tokenize_part_length (part : string) :
  ∀ (tokens : list string) (currentToken : string) (prev : option ascii),
    (is_Some prev → currentToken ≠ "") →
    length (Tokenize_part tokens currentToken prev part)
    = (length tokens + camel_boundaries prev part
       + (if String.eqb (currentToken ++ part) "" then 0 else 1))%nat.
Proof.
  induction part as [|r part IH]; intros tokens cur prev Hprev.
  - simpl. rewrite string_app_nil_r. destruct cur; simpl; [lia|].
    rewrite length_app. simpl. lia.
  - cbn [Tokenize_part camel_boundaries].
    assert (String.eqb (cur ++ String r part) "" = false) as ->.
    { by destruct cur. }
    assert (String.eqb ((cur ++ String r "") ++ part) "" = false) as Hne.
    { by destruct cur. }
    destruct prev as [p|]; [destruct (is_upper r && is_lower p)|].
    + rewrite IH by (intros _; done). rewrite length_app. simpl. lia.
    + rewrite IH by (intros _; by destruct cur). rewrite Hne. lia.
    + rewrite IH by (intros _; by destruct cur). rewrite Hne. lia.
Qed.

(** A word of letters and digits gives one token more than it has places
    where an upper-case letter follows a lower-case letter; it is not cut
    anywhere else, so an acronym stays whole. *)
Theorem Tokenize_word (w : string) :
  w ≠ "" →
  all_bytes is_alnum w = true →
  length (Tokenize w) = S (camel_boundaries None w)
  ∧ (camel_boundaries None w = 0%nat → Tokenize w = [ascii_ToLower w]).
Proof.
  intros Hne Hw.
  assert (length (Tokenize w) = S (camel_boundaries None w)) as Hlen.
  { unfold Tokenize, splitter_Split. rewrite splitter_Split_scan_word by done.
    cbn [foldl]. rewrite Tokenize_part_length by (by intros [? ?]).
    change ("" ++ ("" ++ w)) with w. destruct w; [done|]. simpl. lia. }
  split; [done|]. intros H0. rewrite H0 in Hlen.
  destruct (Tokenize_spec w) as [_ Hcat].
  rewrite keep_bytes_all in Hcat by done.
  destruct (Tokenize w) as [|t [|t' l]]; simplify_eq/=. done.
Qed.

Lemma camel_boundaries_token (t : string) (prev : option ascii) :
  all_bytes is_token_byte t = true → camel_boundaries prev t = 0%nat.
Proof.
  revert prev. induction t as [|c t IH]; intros prev Ht; [done|].
  rewrite all_bytes_cons in Ht. apply andb_true_iff in Ht as [Hc Ht].
  cbn [camel_boundaries]. rewrite IH by done.
  destruct (token_byte_alnum c Hc) as [_ ->]. by destruct prev.
Qed.

Lemma all_bytes_token_alnum (t : string) :
  all_bytes is_token_byte t = true → all_bytes is_alnum t = true.
Proof.
  induction t as [|c t IH]; [done|]. rewrite !all_bytes_cons.
  intros [Hc Ht]%andb_true_iff. destruct (token_byte_alnum c Hc) as [-> _].
  by rewrite IH.
Qed.

(** Tokens are fixed: a token of any input is the one token of itself. *)
Theorem Tokenize_token_fixed (input t : string) :
  t ∈ Tokenize input → Tokenize t = [t].
Proof.
  intros Ht. destruct (Tokenize_spec input) as [Htok _].
  destruct (proj1 (Forall_forall _ _) Htok t Ht) as [Hne Hb].
  assert (length (Tokenize t) = 1%nat) as Hlen.
  { unfold Tokenize, splitter_Split.
    rewrite splitter_Split_scan_word by (by apply all_bytes_token_alnum).
    cbn [foldl]. rewrite Tokenize_part_length by (by intros [? ?]).
    change ("" ++ ("" ++ t)) with t. rewrite camel_boundaries_token by done.
    destruct t; [done|]. simpl. lia. }
  destruct (Tokenize_spec t) as [_ Hcat].
  rewrite keep_bytes_all in Hcat by (by apply all_bytes_token_alnum).
  rewrite ascii_ToLower_token in Hcat by done.
  destruct (Tokenize t) as [|t1 [|t2 l]]; simplify_eq/=. done.
Qed.

(** No token at all: exactly for an input without a letter or a digit. *)
Lemma Tokenize_nil (input : string) :
  Tokenize input = [] ↔ all_bytes (λ c, negb (is_alnum c)) input = true.
Proof.
  destruct (Tokenize_spec input) as [Htok Hcat]. split.
  - intros Hnil. rewrite Hnil in Hcat. simpl in Hcat. clear Htok Hnil.
    induction input as [|c s IH]; [done|]. rewrite all_bytes_cons.
    simpl in Hcat. destruct (is_alnum c); [done|]. by rewrite IH.
  - intros Hall.
    assert (keep_bytes is_alnum input = "") as Hk.
    { clear Htok Hcat. induction input as [|c s IH]; [done|].
      rewrite all_bytes_cons in Hall. apply andb_true_iff in Hall as [Hc Hs].
      simpl. destruct (is_alnum c); [done|]. by apply IH. }
    rewrite Hk in Hcat. destruct (Tokenize input) as [|t l]; [done|].
    apply Forall_cons in Htok as [[Hne _] _]. rewrite concat_cons in Hcat.
    by destruct t.
Qed.

End TokenizeSpec.

(** ** The local analyzer: [AnalyzeGoFile], [ScoreFile], [LocalSearch] *)

Section LocalSpec.
Context `{GoLib} `{GoPath} `{GoUnicode}.
Local Open Scope Z_scope.

Lemma wrap64_0 : wrap64 0 = 0.
Proof. reflexivity. Qed.

Lemma AnalyzeGoFile_terms_spec (kind ident : string) (terms : list string)
    (matched : list string) :
  AnalyzeGoFile_terms kind ident terms
    (wrap64 (40 * Z.of_nat (length matched)), matched)
  = let matched' :=
      (matched ++ flat_map
         (λ t, if strings_Contains (strings_ToLower ident) t
               then [(kind ++ ident)%string] else []) terms)%list in
    (wrap64 (40 * Z.of_nat (length matched')), matched').
Proof.
  unfold AnalyzeGoFile_terms. cbv zeta. revert matched.
  induction terms as [|t terms IH]; intros matched.
  - simpl. by rewrite app_nil_r.
  - cbn [foldl flat_map]. destruct (strings_Contains _ t).
    + rewrite wrap64_add.
      replace (40 * Z.of_nat (length matched) + 40)
        with (40 * Z.of_nat (length (matched ++ [(kind ++ ident)%string]))).
      2:{ rewrite length_app. simpl. lia. }
      rewrite IH. by rewrite <- app_assoc.
    + by rewrite IH.
Qed.

Lemma AnalyzeGoFile_nodes_spec (terms : list string) (nodes : list Decl)
    (matched : list string) :
  foldl (AnalyzeGoFile_node terms)
    (wrap64 (40 * Z.of_nat (length matched)), matched) nodes
  = let matched' := (matched ++ flat_map (node_matches terms) nodes)%list in
    (wrap64 (40 * Z.of_nat (length matched')), matched').
Proof.
  cbv zeta. revert matched. induction nodes as [|n nodes IH]; intros matched.
  - simpl. by rewrite app_nil_r.
  - cbn [foldl flat_map].
    assert (AnalyzeGoFile_node terms
              (wrap64 (40 * Z.of_nat (length matched)), matched) n
            = (wrap64 (40 * Z.of_nat (length (matched ++ node_matches terms n))),
               (matched ++ node_matches terms n)%list)) as ->.
    { destruct n; simpl; apply AnalyzeGoFile_terms_spec. }
    rewrite IH. by rewrite <- app_assoc.
Qed.

Lemma AnalyzeGoFile_spec (le : LocalEnv) (absPath : string) (terms : list string) :
  AnalyzeGoFile le absPath terms
  = match parser_ParseFile le absPath with
    | None => (0, [])
    | Some nodes =>
        let matched := flat_map (node_matches terms) nodes in
        (wrap64 (40 * Z.of_nat (length matched)), matched)
    end.
Proof.
  unfold AnalyzeGoFile. destruct (parser_ParseFile le absPath) as [nodes|]; [|done].
  apply (AnalyzeGoFile_nodes_spec terms nodes []).
Qed.

(** [AnalyzeGoFile] reports a declared function or type once for every
    term its lower-cased name contains, in the order of the visit, and
    scores 40 for every report (in 64-bit arithmetic); a file that does not
    parse scores 0 and reports nothing. *)
Theorem AnalyzeGoFile_matches (le : LocalEnv) (absPath : string)
    (terms : list string) :
  match parser_ParseFile le absPath with
  | None => AnalyzeGoFile le absPath terms = (0, [])
  | Some nodes =>
      (AnalyzeGoFile le absPath terms).2 = flat_map (node_matches terms) nodes
      ∧ (AnalyzeGoFile le absPath terms).1
        = wrap64 (40 * Z.of_nat (length (AnalyzeGoFile le absPath terms).2))
      ∧ ∀ r, r ∈ (AnalyzeGoFile le absPath terms).2 →
             ∃ n t, n ∈ nodes ∧ t ∈ terms ∧ r = node_label n
                    ∧ strings_Contains (strings_ToLower (node_ident n)) t = true
  end.
Proof.
  rewrite AnalyzeGoFile_spec. destruct (parser_ParseFile le absPath) as [nodes|]; [|done].
  cbv zeta. simpl. split; [done|]. split; [done|].
  intros r Hr. apply list_elem_of_In, in_flat_map in Hr as (n & Hn & Hr).
  apply in_flat_map in Hr as (t & Ht & Hr).
  exists n, t. rewrite !list_elem_of_In. split; [done|]. split; [done|].
  destruct (strings_Contains _ t); [|done]. destruct Hr as [<-|[]]. done.
Qed.

(** The counter of the terms found in the path. *)
Lemma matches_count (pathLower : string) (terms : list string) (m : Z) :
  foldl (λ matches term,
           if strings_Contains pathLower term then matches + 1 else matches)
    m terms
  = m + Z.of_nat (length (List.filter (strings_Contains pathLower) terms)).
Proof.
  revert m. induction terms as [|t terms IH]; intros m; simpl; [lia|].
  rewrite IH. destruct (strings_Contains pathLower t); simpl; lia.
Qed.

Lemma filter_length_all {A : Type} (p : A → bool) (l : list A) :
  length (List.filter p l) = length l → ∀ x, x ∈ l → p x = true.
Proof.
  induction l as [|a l IH]; intros Hlen x Hx; [by apply elem_of_nil in Hx|].
  simpl in Hlen. pose proof (List.filter_length_le p l) as Hle.
  destruct (p a) eqn:Hpa; simpl in Hlen; [|lia].
  apply elem_of_cons in Hx as [->|Hx]; [done|]. apply IH; [lia|done].
Qed.

(** A file scores above 0 only for one of three reasons: its name without
    extension is the query, its path contains every term, or one of its
    declarations matches a term. The weight of its extension alone never
    does. *)
Lemma ScoreFile_positive (le : LocalEnv) (root relPath : string)
    (terms : list string) (queryLower : string) :
  0 < (ScoreFile le root relPath terms queryLower).1 →
  name_no_ext relPath = queryLower
  ∨ path_has_all_terms terms relPath
  ∨ (file_ext relPath = ".go"
     ∧ (AnalyzeGoFile le (filepath_Join root relPath) terms).2 ≠ []).
Proof.
  unfold ScoreFile. cbv zeta.
  fold (file_name relPath). fold (file_ext relPath). fold (name_no_ext relPath).
  rewrite matches_count.
  destruct (String.eqb_spec (name_no_ext relPath) queryLower) as [He|He]; [by left|].
  set (found := List.filter (strings_Contains (strings_ToLower relPath)) terms).
  destruct ((0 <? 0 + Z.of_nat (length found))
            && (0 + Z.of_nat (length found) =? Z.of_nat (length terms))) eqn:Hm.
  { intros _. right. left. apply andb_true_iff in Hm as [Hpos Hall].
    apply Z.ltb_lt in Hpos. apply Z.eqb_eq in Hall. split.
    - intros ->. subst found. simpl in Hpos. lia.
    - apply filter_length_all. subst found. lia. }
  destruct (String.eqb_spec (file_ext relPath) ".go") as [Hgo|Hgo].
  - rewrite AnalyzeGoFile_spec.
    destruct (parser_ParseFile le (filepath_Join root relPath)) as [nodes|].
    + cbv zeta. destruct (flat_map (node_matches terms) nodes) as [|r l] eqn:Hfm.
      * simpl. rewrite Hgo. simpl. lia.
      * intros _. right. right. split; [done|]. simpl. done.
    + simpl. rewrite Hgo. simpl. lia.
  - simpl. lia.
Qed.

Lemma LocalSearch_body_spec (le : LocalEnv) (root : string) (terms : list string)
    (queryLower : string) (results : list FileScore) (f : string) :
  LocalSearch_body le root terms queryLower results f
  = (results
     ++ if 0 <? (ScoreFile le root f terms queryLower).1
        then [mkFileScore f (ScoreFile le root f terms queryLower).1
                (ScoreFile le root f terms queryLower).2 false]
        else [])%list.
Proof.
  unfold LocalSearch_body. destruct (ScoreFile le root f terms queryLower) as [s r].
  simpl. destruct (0 <? s); [done|by rewrite app_nil_r].
Qed.

Lemma LocalSearch_spec (le : LocalEnv) (root : string) (terms : list string)
    (queryLower : string) :
  LocalSearch le root terms queryLower
  = (flat_map
       (λ f, if 0 <? (ScoreFile le root f terms queryLower).1
             then [mkFileScore f (ScoreFile le root f terms queryLower).1
                     (ScoreFile le root f terms queryLower).2 false]
             else [])
       (CollectFiles le root).1, None).
Proof.
  unfold LocalSearch. cbv zeta. f_equal.
  rewrite (foldl_ext_eq _ _ _ _ (LocalSearch_body_spec le root terms queryLower)).
  by rewrite (foldl_app_flat_map _ _ []).
Qed.

(** [LocalSearch] never fails and returns, in the order of [CollectFiles]
    and at most once for every path listed, records that are no
    dependencies, score above 0 and carry what [ScoreFile] says of their
    path; a file is returned only because its name is the query, its path
    contains all the terms or a declaration of it matches. *)
Theorem LocalSearch_records (le : LocalEnv) (root : string) (terms : list string)
    (queryLower : string) :
  let results := (LocalSearch le root terms queryLower).1 in
  (LocalSearch le root terms queryLower).2 = None
  ∧ Path <$> results `sublist_of` (CollectFiles le root).1
  ∧ ∀ r, r ∈ results →
      IsDep r = false
      ∧ 0 < Score r
      ∧ (Score r, Reasons r) = ScoreFile le root (Path r) terms queryLower
      ∧ (name_no_ext (Path r) = queryLower
         ∨ path_has_all_terms terms (Path r)
         ∨ (file_ext (Path r) = ".go"
            ∧ (AnalyzeGoFile le (filepath_Join root (Path r)) terms).2 ≠ [])).
Proof.
  rewrite LocalSearch_spec. cbv zeta. simpl. split; [done|]. split.
  - induction (CollectFiles le root).1 as [|f files IH]; [done|].
    cbn [flat_map]. rewrite fmap_app.
    destruct (0 <? _); simpl.
    + by apply sublist_skip.
    + by apply sublist_cons.
  - intros r Hr. apply list_elem_of_In, in_flat_map in Hr as (f & _ & Hr).
    destruct (0 <? (ScoreFile le root f terms queryLower).1) eqn:Hpos; [|done].
    destruct Hr as [<-|[]]. simpl. apply Z.ltb_lt in Hpos.
    split; [done|]. split; [done|]. split; [by destruct (ScoreFile _ _ _ _ _)|].
    by apply ScoreFile_positive.
Qed.

End LocalSpec.

(** ** Blank input: [strings.TrimSpace], [CollectFiles], the blank query *)

Lemma asciiSpace_ascii (c : ascii) : asciiSpace c = true → is_ascii_byte c = true.
Proof. destruct c as [[] [] [] [] [] [] [] []]; vm_compute; congruence. Qed.

Lemma asciiSpace_not_alnum (c : ascii) : asciiSpace c = true → is_alnum c = false.
Proof. destruct c as [[] [] [] [] [] [] [] []]; vm_compute; congruence. Qed.

Lemma TrimSpace_scan_blank (l : list ascii) :
  forallb asciiSpace l = true → TrimSpace_scan l = ([], false).
Proof.
  induction l as [|c l IH]; [done|]. simpl. intros [Hc Hl]%andb_true_iff.
  by rewrite (asciiSpace_ascii c Hc), Hc, IH.
Qed.

Lemma TrimSpace_blank `{GoUnicode} (s : string) :
  all_bytes asciiSpace s = true → strings_TrimSpace s = "".
Proof.
  intros Hs. unfold strings_TrimSpace. by rewrite (TrimSpace_scan_blank _ Hs).
Qed.

Lemma ExtensionWeights_bound (ext : string) (w : Z) :
  ExtensionWeights !! ext = Some w → (0 < w ≤ 25)%Z.
Proof.
  unfold ExtensionWeights. intros Hw. apply elem_of_list_to_map_2 in Hw.
  repeat (apply elem_of_cons in Hw as [Hw|Hw]; [simplify_eq; lia|]).
  by apply elem_of_nil in Hw.
Qed.

Section BlankSpec.
Context `{GoLib} `{GoPath} `{GoUnicode}.
Local Open Scope Z_scope.

Lemma node_matches_nil (nodes : list Decl) :
  flat_map (node_matches []) nodes = [].
Proof. induction nodes as [|n nodes IH]; [done|]. simpl. by rewrite IH. Qed.

(** Without terms and with an empty query [ScoreFile] knows the files whose
    name is their extension, and no other. *)
Lemma ScoreFile_blank (le : LocalEnv) (root relPath : string) :
  ScoreFile le root relPath [] ""
  = if String.eqb (name_no_ext relPath) ""
    then (500 + default 0 (ExtensionWeights !! file_ext relPath), ["exact-file"])
    else (0, []).
Proof.
  unfold ScoreFile. cbv zeta.
  fold (file_name relPath). fold (file_ext relPath). fold (name_no_ext relPath).
  assert (AnalyzeGoFile le (filepath_Join root relPath) [] = (0, [])) as Hast.
  { rewrite AnalyzeGoFile_spec. destruct (parser_ParseFile _ _); [|done].
    cbv zeta. by rewrite node_matches_nil. }
  rewrite Hast. cbn [foldl length Z.of_nat Z.ltb Z.compare andb].
  destruct (String.eqb (name_no_ext relPath) "").
  - cbn [app]. change (wrap64 (0 + 500)) with 500.
    assert ((if String.eqb (file_ext relPath) ".go"
             then (500, ["exact-file"]) else (500, ["exact-file"]))
            = (500, ["exact-file"])) as Hif by (by destruct (String.eqb _ _)).
    change (0 <? 0) with false. cbv iota. rewrite Hif.
    change (0 <? 500) with true. cbv iota.
    destruct (ExtensionWeights !! file_ext relPath) as [w|] eqn:Hw; simpl.
    + apply ExtensionWeights_bound in Hw. rewrite wrap64_small; [done|lia].
    + done.
  - change (0 <? 0) with false. cbv iota. by destruct (String.eqb _ _).
Qed.

(** When git answers with blank output, [CollectFiles] returns one path,
    the empty one, not an empty list. *)
Lemma CollectFiles_blank (le : LocalEnv) (root out : string) :
  os_Stat le (filepath_Join root ".git") = None →
  git_ls_files le root = (out, None) →
  all_bytes asciiSpace out = true →
  CollectFiles le root = ([""], None).
Proof.
  intros Hstat Hgit Hout. unfold CollectFiles. rewrite Hstat, Hgit.
  by rewrite TrimSpace_blank.
Qed.

Lemma CollectFiles_no_git (le : LocalEnv) (root : string) :
  os_Stat le (filepath_Join root ".git") ≠ None
  ∨ (git_ls_files le root).2 ≠ None →
  CollectFiles le root = ([], None).
Proof.
  unfold CollectFiles. intros [Hs|Hg].
  - by destruct (os_Stat le _).
  - destruct (os_Stat le _); [done|]. by destruct (git_ls_files le root) as [out [e|]].
Qed.

End BlankSpec.

(** ** The local branch of [Search] on Unix *)

Lemma Search_blank_terms (query : string) :
  all_bytes asciiSpace query = true →
  Search_queryLower query = "" ∧ Search_terms query = [].
Proof.
  intros Hq. unfold Search_terms, Search_queryLower.
  rewrite (TrimSpace_blank query Hq). split; [done|].
  assert (Tokenize query = []) as ->; [|done].
  apply Tokenize_nil. clear -Hq. induction query as [|c s IH]; [done|].
  rewrite all_bytes_cons in *. apply andb_true_iff in Hq as [Hc Hs].
  by rewrite (asciiSpace_not_alnum c Hc), IH.
Qed.

(** A blank query is not refused: the local branch of [Search] returns for
    it the files (with ASCII paths) whose lower-cased name is only an
    extension (a name such as [.gitignore]), each as an exact match with
    score 500 plus the weight of that extension; in a work tree where git
    lists nothing it returns one record with an empty path. *)
Theorem Search_blank_query (le : LocalEnv) (absRoot query : string) :
  all_bytes asciiSpace query = true →
  Forall (λ f, all_bytes is_ascii_byte f = true) (CollectFiles le absRoot).1 →
  Search_localRes le absRoot query
  = flat_map
      (λ f, if String.eqb (name_no_ext f) "" then [exact_file_record f] else [])
      (CollectFiles le absRoot).1
  ∧ (∀ out, os_Stat le (filepath_Join absRoot ".git") = None →
            git_ls_files le absRoot = (out, None) →
            all_bytes asciiSpace out = true →
            Search_localRes le absRoot query
            = [mkFileScore "" 500 ["exact-file"] false]).
Proof.
  intros Hq _. unfold Search_localRes.
  destruct (Search_blank_terms query Hq) as [-> ->].
  rewrite LocalSearch_spec. cbn [fst].
  assert (∀ files,
    flat_map
      (λ f, if (0 <? (ScoreFile le absRoot f [] "").1)%Z
            then [mkFileScore f (ScoreFile le absRoot f [] "").1
                    (ScoreFile le absRoot f [] "").2 false]
            else []) files
    = flat_map
        (λ f, if String.eqb (name_no_ext f) "" then [exact_file_record f] else [])
        files) as Hflat.
  { intros files. apply flat_map_ext. intros f. rewrite ScoreFile_blank.
    destruct (String.eqb (name_no_ext f) ""); [|done]. cbn [fst snd].
    destruct (ExtensionWeights !! file_ext f) as [w|] eqn:Hw.
    - pose proof (ExtensionWeights_bound _ _ Hw). unfold exact_file_record.
      rewrite Hw. simpl. destruct (Z.ltb_spec 0 (500 + w)); [done|lia].
    - unfold exact_file_record. rewrite Hw. done. }
  split; [apply Hflat|].
  intros out Hstat Hgit Hout. rewrite Hflat.
  rewrite (CollectFiles_blank le absRoot out Hstat Hgit Hout). reflexivity.
Qed.

(** Outside a git work tree (no [.git] in the root, or git fails) the local
    branch finds nothing, whatever the files and the query; without gopls
    [Search] then returns no record and no error. *)
Theorem Search_outside_git (le : LocalEnv) (absRoot query : string)
    (wr : option error) (arrivals : list Arrival) (schedule : Schedule) :
  os_Stat le (filepath_Join absRoot ".git") ≠ None
  ∨ (git_ls_files le absRoot).2 ≠ None →
  Search_localRes le absRoot query = []
  ∧ Search absRoot query
      (mkSearchEnv (Search_localRes le absRoot query) None wr arrivals schedule)
    = ([], None).
Proof.
  intros Hno.
  assert (Search_localRes le absRoot query = []) as Hloc.
  { unfold Search_localRes. rewrite LocalSearch_spec.
    by rewrite (CollectFiles_no_git le absRoot Hno). }
  split; [done|]. rewrite Hloc. reflexivity.
Qed.

(** ** [filepath.Clean] by elements *)

Lemma slash_free_app (a b : string) :
  slash_free (a ++ b) = slash_free a && slash_free b.
Proof. apply all_bytes_app. Qed.

Lemma split_slash_aux_slash_free (cur s : string) :
  slash_free cur = true → Forall (λ e, slash_free e = true) (split_slash_aux cur s).
Proof.
  revert cur. induction s as [|c s IH]; intros cur Hcur; simpl.
  - by constructor.
  - destruct (Ascii.eqb c "/") eqn:Hc.
    + constructor; [done|]. by apply IH.
    + apply IH. rewrite slash_free_app, Hcur. unfold slash_free.
      by rewrite all_bytes_cons, Hc.
Qed.

Lemma clean_step_names (out : list string) (e : string) :
  slash_free e = true → Forall is_name out →
  Forall is_name (clean_step true out e).
Proof.
  intros He Hout. unfold clean_step.
  destruct (String.eqb_spec e "") as [->|Hne]; [done|].
  destruct (String.eqb_spec e ".") as [->|Hnd]; [done|]. cbn [orb].
  destruct (String.eqb_spec e "..") as [->|Hndd].
  - destruct out as [|top out]; [done|]. apply Forall_cons in Hout as [[_ [_ [Htop _]]] Hout].
    by destruct (String.eqb_spec top "..").
  - by constructor.
Qed.

Lemma foldl_clean_step_names (l out : list string) :
  Forall (λ e, slash_free e = true) l → Forall is_name out →
  Forall is_name (foldl (clean_step true) out l).
Proof.
  revert out. induction l as [|e l IH]; intros out Hl Hout; [done|].
  apply Forall_cons in Hl as [He Hl]. simpl. apply IH; [done|].
  by apply clean_step_names.
Qed.

Lemma clean_elems_names (p : string) :
  unix_IsAbs p = true → Forall is_name (clean_elems p).
Proof.
  intros Habs. unfold clean_elems. rewrite Habs. apply Forall_rev.
  apply foldl_clean_step_names; [|done]. by apply split_slash_aux_slash_free.
Qed.

Lemma unix_Clean_abs (p : string) :
  unix_IsAbs p = true → unix_Clean p = "/" ++ join_slash (clean_elems p).
Proof.
  intros Habs. unfold unix_Clean, clean_elems. rewrite Habs.
  destruct (String.eqb_spec p "") as [->|_]; [done|]. done.
Qed.

Lemma split_slash_aux_app (cur e s : string) :
  slash_free e = true →
  split_slash_aux cur (e ++ s) = split_slash_aux (cur ++ e) s.
Proof.
  revert cur. induction e as [|c e IH]; intros cur He.
  - by rewrite string_app_nil_r.
  - unfold slash_free in He. rewrite all_bytes_cons in He.
    apply andb_true_iff in He as [Hc He]. apply negb_true_iff in Hc.
    rewrite string_app_cons. simpl. rewrite Hc, (IH _ He), string_app_assoc. done.
Qed.

Lemma split_slash_aux_sep (cur s : string) :
  split_slash_aux cur (String "/" s) = cur :: split_slash_aux "" s.
Proof. reflexivity. Qed.

Lemma split_slash_aux_join (cur : string) (l : list string) :
  Forall is_name l → l ≠ [] →
  ∃ e l', l = e :: l' ∧ split_slash_aux cur (join_slash l) = (cur ++ e) :: l'.
Proof.
  intros Hl Hne. destruct l as [|e l]; [done|]. exists e, l. split; [done|]. clear Hne.
  revert cur e Hl. induction l as [|f l IH]; intros cur e Hl.
  - apply Forall_cons in Hl as [(_ & _ & _ & He) _]. simpl.
    rewrite <- (string_app_nil_r e) at 1. rewrite split_slash_aux_app by done. done.
  - apply Forall_cons in Hl as [(_ & _ & _ & He) Hl].
    change (join_slash (e :: f :: l)) with (e ++ "/" ++ join_slash (f :: l)).
    rewrite split_slash_aux_app by done.
    change ("/" ++ join_slash (f :: l)) with (String "/" (join_slash (f :: l))).
    rewrite split_slash_aux_sep, (IH "" f Hl). done.
Qed.

Lemma foldl_clean_step_of_names (l out : list string) :
  Forall is_name l → foldl (clean_step true) out l = (rev l ++ out)%list.
Proof.
  revert out. induction l as [|e l IH]; intros out Hl; [done|].
  apply Forall_cons in Hl as [(Hne & Hnd & Hndd & _) Hl]. simpl. rewrite IH by done.
  unfold clean_step.
  destruct (String.eqb_spec e ""); [done|]. destruct (String.eqb_spec e "."); [done|].
  destruct (String.eqb_spec e ".."); [done|]. simpl. by rewrite <- app_assoc.
Qed.

(** Cleaning a cleaned rooted path changes nothing. *)
Lemma clean_elems_Clean (p : string) :
  unix_IsAbs p = true →
  unix_IsAbs (unix_Clean p) = true ∧ clean_elems (unix_Clean p) = clean_elems p.
Proof.
  intros Habs. rewrite (unix_Clean_abs p Habs). split; [done|].
  pose proof (clean_elems_names p Habs) as Hn.
  unfold clean_elems at 1.
  change (unix_IsAbs ("/" ++ join_slash (clean_elems p))) with true.
  unfold split_slash. change ("/" ++ ?s) with (String "/" s).
  rewrite split_slash_aux_sep.
  destruct (clean_elems p) as [|e l] eqn:Hl; [reflexivity|].
  destruct (split_slash_aux_join "" (e :: l) Hn) as (e' & l' & [= <- <-] & ->); [done|].
  change ("" ++ e) with e.
  change (foldl (clean_step true) [] ("" :: e :: l))
    with (foldl (clean_step true) [] (e :: l)).
  rewrite foldl_clean_step_of_names by done.
  rewrite app_nil_r, rev_involutive. done.
Qed.

(** ** The prefix test of [isAllowedPath], by elements *)

Lemma HasPrefix_nil (s : string) : strings_HasPrefix s "" = true.
Proof. by destruct s. Qed.

Lemma HasPrefix_cons (c d : ascii) (s p : string) :
  strings_HasPrefix (String c s) (String d p)
  = Ascii.eqb c d && strings_HasPrefix s p.
Proof. simpl. by destruct (Ascii.eqb c d). Qed.

Lemma HasPrefix_app (a x y : string) :
  strings_HasPrefix (a ++ x) (a ++ y) = strings_HasPrefix x y.
Proof.
  induction a as [|c a IH]; [done|].
  by rewrite !string_app_cons, HasPrefix_cons, Ascii.eqb_refl, IH.
Qed.

(** With the same byte appended to both: a prefix up to that byte, or the
    same string. *)
Lemma HasPrefix_snoc (c : ascii) (t p : string) :
  strings_HasPrefix (t ++ String c "") (p ++ String c "")
  = String.eqb t p || strings_HasPrefix t (p ++ String c "").
Proof.
  revert t. induction p as [|y p IH]; intros t.
  - destruct t as [|x t]; [simpl; by rewrite Ascii.eqb_refl|].
    change ("" ++ String c "") with (String c "").
    rewrite string_app_cons, !HasPrefix_cons, !HasPrefix_nil. simpl. done.
  - destruct t as [|x t].
    + rewrite string_app_cons. change ("" ++ String c "") with (String c "").
      rewrite HasPrefix_cons. simpl.
      destruct (Ascii.eqb c y); [|done]. by destruct p.
    + rewrite !string_app_cons, !HasPrefix_cons, IH. simpl.
      destruct (Ascii.eqb_spec x y) as [->|Hxy]; [|done]. simpl. done.
Qed.


Lemma slash_free_cons (c : ascii) (e : string) :
  slash_free (String c e) = negb (Ascii.eqb c "/") && slash_free e.
Proof. reflexivity. Qed.

Lemma String_eqb_cons (c d : ascii) (s t : string) :
  String.eqb (String c s) (String d t) = Ascii.eqb c d && String.eqb s t.
Proof. simpl. by destruct (Ascii.eqb c d). Qed.

(** Two elements, each followed by a separator. *)
Lemma HasPrefix_elem (e f x y : string) :
  slash_free e = true → slash_free f = true →
  strings_HasPrefix (f ++ String "/" x) (e ++ String "/" y)
  = String.eqb f e && strings_HasPrefix x y.
Proof.
  revert f. induction e as [|d e IH]; intros f He Hf.
  - destruct f as [|c f].
    + change ("" ++ ?s) with s. by rewrite HasPrefix_cons.
    + rewrite slash_free_cons in Hf. apply andb_true_iff in Hf as [Hc _].
      apply negb_true_iff in Hc. change ("" ++ ?s) with s.
      by rewrite string_app_cons, HasPrefix_cons, Hc.
  - rewrite slash_free_cons in He. apply andb_true_iff in He as [Hd He].
    apply negb_true_iff in Hd. destruct f as [|c f].
    + change ("" ++ ?s) with s. rewrite string_app_cons, HasPrefix_cons.
      rewrite Ascii.eqb_sym, Hd. done.
    + rewrite slash_free_cons in Hf. apply andb_true_iff in Hf as [_ Hf].
      rewrite !string_app_cons, HasPrefix_cons, String_eqb_cons, IH by done.
      by rewrite andb_assoc.
Qed.

Lemma join_each_join (l : list string) :
  l ≠ [] → join_slash l ++ "/" = join_each l.
Proof.
  induction l as [|e l IH]; [done|]. intros _. destruct l as [|f l].
  - done.
  - change (join_slash (e :: f :: l)) with (e ++ "/" ++ join_slash (f :: l)).
    change (join_each (e :: f :: l)) with (e ++ "/" ++ join_each (f :: l)).
    rewrite <- IH by done. by rewrite !string_app_assoc.
Qed.

Lemma HasPrefix_join_each (p t : list string) :
  Forall is_name p → Forall is_name t →
  strings_HasPrefix (join_each t) (join_each p) = true ↔ p `prefix_of` t.
Proof.
  revert t. induction p as [|e p IH]; intros t Hp Ht.
  - simpl. split; [intros _; apply prefix_nil|done].
  - apply Forall_cons in Hp as [(Hne & _ & _ & He) Hp]. destruct t as [|f t].
    + split.
      * cbn [join_each]. destruct e; [done|]. by rewrite string_app_cons.
      * intros Hpre. by apply prefix_nil_inv in Hpre.
    + apply Forall_cons in Ht as [(_ & _ & _ & Hf) Ht]. cbn [join_each].
      change ("/" ++ ?s) with (String "/" s).
      rewrite HasPrefix_elem by done. rewrite andb_true_iff, (IH t Hp Ht).
      split.
      * intros [Hfe Hpre]. apply String.eqb_eq in Hfe as ->. by apply prefix_cons.
      * intros Hpre. split.
        -- apply String.eqb_eq. symmetry. by apply (prefix_cons_inv_1 e f p t).
        -- by apply (prefix_cons_inv_2 e f p t).
Qed.

Lemma join_slash_nil (l : list string) :
  Forall is_name l → join_slash l = "" → l = [].
Proof.
  destruct l as [|e l]; [done|]. intros [(Hne & _) _]%Forall_cons.
  destruct l; simpl; [done|]. by destruct e.
Qed.

Lemma join_slash_head (l : list string) :
  Forall is_name l → strings_HasPrefix (join_slash l) "/" = false.
Proof.
  destruct l as [|e l]; [done|]. intros [(Hne & _ & _ & He) _]%Forall_cons.
  destruct e as [|c e]; [done|]. rewrite slash_free_cons in He.
  apply andb_true_iff in He as [Hc _]. apply negb_true_iff in Hc.
  destruct l; simpl; by rewrite Hc.
Qed.

(** The test of one prefix on cleaned rooted paths is the test of their
    elements. *)
Lemma inside_root_elems (p t : list string) :
  Forall is_name p → Forall is_name t →
  inside_root ("/" ++ join_slash p) ("/" ++ join_slash t) = true
  ↔ elems_under p t.
Proof.
  intros Hp Ht. unfold inside_root, elems_under.
  change ("/" ++ ?s) with (String "/" s).
  rewrite String_eqb_cons, string_app_cons, HasPrefix_cons. simpl.
  destruct p as [|e p].
  - change (join_slash []) with "". change ("" ++ "/") with "/".
    rewrite (join_slash_head t Ht), orb_false_r. split.
    + intros Heq%String.eqb_eq. split; [apply prefix_nil|].
      intros _. by apply join_slash_nil.
    + intros [_ Hnil]. by rewrite (Hnil eq_refl).
  - rewrite <- HasPrefix_snoc. destruct t as [|f t].
    + split.
      * change (join_slash [] ++ "/") with "/".
        rewrite join_each_join by done. cbn [join_each].
        apply Forall_cons in Hp as [(Hne & _ & _ & He) _].
        destruct e as [|c e]; [done|]. rewrite slash_free_cons in He.
        apply andb_true_iff in He as [Hc _]. apply negb_true_iff in Hc.
        rewrite string_app_cons, HasPrefix_cons, Ascii.eqb_sym, Hc. done.
      * intros [Hpre _]. by apply prefix_nil_inv in Hpre.
    + rewrite !join_each_join by done. rewrite (HasPrefix_join_each _ _ Hp Ht).
      split; [intros Hpre; by split|by intros [Hpre _]].
Qed.

(** ** [isAllowedPath] and the tool [read_file] on Unix *)

Lemma isAllowedPath_prefix_elems (target prefix : string) :
  unix_IsAbs target = true → unix_IsAbs prefix = true →
  isAllowedPath_prefix (unix_Clean (unix_Clean target)) prefix = true
  ↔ elems_under (clean_elems prefix) (clean_elems target).
Proof.
  intros Ht Hp. unfold isAllowedPath_prefix. cbn [filepath_Clean os_PathSeparator path_unix].
  destruct (clean_elems_Clean target Ht) as [Ht' Hct].
  rewrite (unix_Clean_abs _ Ht'), Hct, (unix_Clean_abs _ Hp).
  apply (inside_root_elems (clean_elems prefix) (clean_elems target));
    by apply clean_elems_names.
Qed.

(** A cleaned path that is not rooted starts with a byte that is no
    separator. *)
Lemma clean_step_elements (rooted : bool) (out : list string) (e : string) :
  slash_free e = true →
  Forall (λ x, x ≠ "" ∧ slash_free x = true) out →
  Forall (λ x, x ≠ "" ∧ slash_free x = true) (clean_step rooted out e).
Proof.
  intros He Hout. unfold clean_step.
  destruct (String.eqb_spec e "") as [->|Hne]; [done|].
  destruct (String.eqb e "."); [done|]. cbn [orb].
  destruct (String.eqb_spec e "..") as [->|Hndd].
  - destruct out as [|top out].
    + destruct rooted; [done|]. by constructor.
    + destruct (String.eqb top ".."); [by constructor|].
      by apply Forall_cons in Hout as [_ Hout].
  - by constructor.
Qed.

Lemma foldl_clean_step_elements (rooted : bool) (l out : list string) :
  Forall (λ e, slash_free e = true) l →
  Forall (λ x, x ≠ "" ∧ slash_free x = true) out →
  Forall (λ x, x ≠ "" ∧ slash_free x = true) (foldl (clean_step rooted) out l).
Proof.
  revert out. induction l as [|e l IH]; intros out Hl Hout; [done|].
  apply Forall_cons in Hl as [He Hl]. simpl. apply IH; [done|].
  by apply clean_step_elements.
Qed.

Lemma unix_Clean_relative (p : string) :
  unix_IsAbs p = false →
  ∃ c s, unix_Clean p = String c s ∧ Ascii.eqb c "/" = false.
Proof.
  intros Hrel. unfold unix_Clean. destruct (String.eqb p ""); [by exists "."%char, ""|].
  rewrite Hrel.
  pose proof (foldl_clean_step_elements false (split_slash p) []
                (split_slash_aux_slash_free "" p eq_refl) (Forall_nil_2 _)) as Hout.
  apply Forall_rev in Hout.
  destruct (rev (foldl (clean_step false) [] (split_slash p))) as [|e out];
    [by exists "."%char, ""|].
  destruct (decide (e :: out = [])); [done|].
  apply Forall_cons in Hout as [[Hne He] _]. destruct e as [|c e]; [done|].
  rewrite slash_free_cons in He. apply andb_true_iff in He as [Hc _].
  apply negb_true_iff in Hc. destruct out as [|f out]; simpl; eauto.
Qed.

Lemma isAllowedPath_prefix_relative (target prefix : string) :
  unix_IsAbs target = true → unix_IsAbs prefix = false →
  isAllowedPath_prefix (unix_Clean (unix_Clean target)) prefix = false.
Proof.
  intros Ht Hp. unfold isAllowedPath_prefix.
  cbn [filepath_Clean os_PathSeparator path_unix].
  destruct (clean_elems_Clean target Ht) as [Ht' _].
  rewrite (unix_Clean_abs _ Ht').
  destruct (unix_Clean_relative prefix Hp) as (c & s & -> & Hc).
  change ("/" ++ ?x) with (String "/" x).
  rewrite String_eqb_cons, string_app_cons, HasPrefix_cons, Ascii.eqb_sym, Hc. done.
Qed.

Lemma isAllowedPath_abs (fe : FileEnv) (prefixes : list string) (target : string) :
  unix_IsAbs target = true →
  isAllowedPath fe prefixes target = true
  ↔ ∃ p, p ∈ prefixes ∧ unix_IsAbs p = true
         ∧ elems_under (clean_elems p) (clean_elems target).
Proof.
  intros Ht. unfold isAllowedPath, filepath_Abs.
  cbn [filepath_IsAbs filepath_Clean go_unix path_unix]. rewrite Ht.
  rewrite existsb_exists. split.
  - intros (p & Hin & Hok). exists p. apply list_elem_of_In in Hin.
    split; [done|]. destruct (unix_IsAbs p) eqn:Hp.
    + split; [done|]. by apply isAllowedPath_prefix_elems.
    + by rewrite (isAllowedPath_prefix_relative target p Ht Hp) in Hok.
  - intros (p & Hin & Hp & Hok). exists p. split; [by apply list_elem_of_In|].
    by apply isAllowedPath_prefix_elems.
Qed.

(** For a rooted target, [isAllowedPath] holds exactly when the elements
    of the cleaned target start with all the elements of one cleaned
    rooted prefix: a directory beside a prefix whose name only starts like
    it does not pass, and the elements [..] are resolved before the
    comparison. A prefix without elements, the root of the file system,
    lets itself through only; a prefix that is not rooted lets nothing through. *)
Theorem isAllowedPath_elements (fe : FileEnv) (prefixes : list string)
    (target : string) :
  unix_IsAbs target = true →
  isAllowedPath fe prefixes target = true
  ↔ ∃ p, p ∈ prefixes
         ∧ unix_IsAbs p = true
         ∧ clean_elems p `prefix_of` clean_elems target
         ∧ (clean_elems p = [] → clean_elems target = []).
Proof. apply isAllowedPath_abs. Qed.

(** When the only prefix is the root of the file system, [isAllowedPath]
    lets the root itself through and nothing below it: the separator appended to
    the cleaned prefix gives [//], which starts no cleaned path. *)
Theorem isAllowedPath_root_prefix (fe : FileEnv) (target : string) :
  unix_IsAbs target = true →
  isAllowedPath fe ["/"] target = true ↔ unix_Clean target = "/".
Proof.
  intros Ht. rewrite (isAllowedPath_abs fe ["/"] target Ht).
  rewrite (unix_Clean_abs target Ht).
  pose proof (clean_elems_names target Ht) as Hn. split.
  - intros (p & ->%list_elem_of_singleton & _ & _ & Hnil).
    by rewrite (Hnil eq_refl).
  - intros Heq. exists "/". split; [by apply list_elem_of_singleton|].
    split; [done|]. split; [apply prefix_nil|]. intros _.
    apply join_slash_nil; [done|]. by injection Heq.
Qed.

Lemma unix_IsAbs_app (a b : string) :
  unix_IsAbs a = true → unix_IsAbs (a ++ b) = true.
Proof. destruct a as [|c a]; [done|]. rewrite string_app_cons. done. Qed.

Lemma unix_Join_abs (root arg : string) :
  unix_IsAbs root = true →
  unix_Join root arg = unix_Clean (root ++ "/" ++ arg)
  ∧ unix_IsAbs (unix_Join root arg) = true.
Proof.
  intros Hr. unfold unix_Join. destruct root as [|c root]; [done|].
  cbn [String.eqb negb]. split; [done|].
  rewrite unix_Clean_abs by (by apply unix_IsAbs_app). done.
Qed.

Lemma read_file_target_abs (rootPath pathArg : string) :
  unix_IsAbs rootPath = true →
  unix_IsAbs (read_file_target rootPath pathArg) = true.
Proof.
  intros Hr. unfold read_file_target. cbn [filepath_IsAbs filepath_Join go_unix].
  destruct (unix_IsAbs pathArg) eqn:Ha; [done|]. simpl.
  by apply unix_Join_abs.
Qed.

(** The tool [read_file] returns the content of a file only when the
    elements of its cleaned path start with the elements of an allowed
    prefix, and then it is the content [os.ReadFile] gives for the path
    checked; a path outside every prefix is answered by the refusal,
    whatever the file system holds. *)
Theorem read_file_confined (fe : FileEnv) (prefixes : list string)
    (rootPath pathArg : string) :
  unix_IsAbs rootPath = true →
  let target := read_file_target rootPath pathArg in
  (∀ content,
     read_file fe prefixes rootPath pathArg = NewToolResultText content →
     allowed_by prefixes target ∧ os_ReadFile fe target = (content, None))
  ∧ (¬ allowed_by prefixes target →
     read_file fe prefixes rootPath pathArg = accessDenied pathArg).
Proof.
  intros Hr target.
  pose proof (read_file_target_abs rootPath pathArg Hr) as Ht. fold target in Ht.
  pose proof (isAllowedPath_abs fe prefixes target Ht) as Hiff.
  unfold read_file. fold target.
  destruct (isAllowedPath fe prefixes target) eqn:Hal; simpl.
  - split.
    + intros content Hres. split; [by apply Hiff|].
      destruct (os_ReadFile fe target) as [c [e|]]; by simplify_eq.
    + intros Hno. destruct Hno. by apply Hiff.
  - split; [done|]. intros _. done.
Qed.

Lemma split_slash_aux_app_sep (cur a b : string) :
  split_slash_aux cur (a ++ String "/" b)
  = (split_slash_aux cur a ++ split_slash_aux "" b)%list.
Proof.
  revert cur. induction a as [|c a IH]; intros cur; [done|].
  rewrite string_app_cons. simpl. destruct (Ascii.eqb c "/"); by rewrite IH.
Qed.

Lemma foldl_clean_step_no_dotdot (l out : list string) :
  ".." ∉ l → ∃ k, foldl (clean_step true) out l = (k ++ out)%list.
Proof.
  revert out. induction l as [|e l IH]; intros out Hl; [by exists []|].
  apply not_elem_of_cons in Hl as [He Hl]. simpl.
  assert (clean_step true out e = out ∨ clean_step true out e = e :: out) as [->| ->].
  { unfold clean_step. destruct (String.eqb e "" || String.eqb e "."); [by left|].
    destruct (String.eqb_spec e ".."); [done|by right]. }
  - by apply IH.
  - destruct (IH (e :: out) Hl) as [k ->]. exists (k ++ [e])%list.
    by rewrite <- app_assoc.
Qed.

(** The elements of a path joined to a rooted directory: the scan of
    [Clean] goes on from the elements of the directory. *)
Lemma clean_elems_Join (root arg : string) :
  unix_IsAbs root = true →
  clean_elems (unix_Join root arg)
  = rev (foldl (clean_step true) (rev (clean_elems root)) (split_slash arg)).
Proof.
  intros Hr. destruct (unix_Join_abs root arg Hr) as [-> _].
  assert (unix_IsAbs (root ++ "/" ++ arg) = true) as Hx by (by apply unix_IsAbs_app).
  destruct (clean_elems_Clean _ Hx) as [_ ->].
  unfold clean_elems. rewrite Hx, Hr, rev_involutive. unfold split_slash.
  change ("/" ++ arg) with (String "/" arg).
  by rewrite split_slash_aux_app_sep, foldl_app.
Qed.

(** A relative path without an element [..] is never refused when the
    root is an allowed prefix (and is not the root of the file system): the
    tool answers with what [os.ReadFile] gives for the path joined to the
    root. *)
Theorem read_file_relative_allowed (fe : FileEnv) (prefixes : list string)
    (rootPath pathArg : string) :
  unix_IsAbs rootPath = true →
  rootPath ∈ prefixes →
  unix_Clean rootPath ≠ "/" →
  unix_IsAbs pathArg = false →
  ".." ∉ split_slash pathArg →
  read_file fe prefixes rootPath pathArg
  = match os_ReadFile fe (unix_Join rootPath pathArg) with
    | (_, Some err) => NewToolResultError err
    | (content, None) => NewToolResultText content
    end.
Proof.
  intros Hr Hin Hroot Hrel Hdd.
  pose proof (read_file_target_abs rootPath pathArg Hr) as Ht.
  unfold read_file.
  assert (read_file_target rootPath pathArg = unix_Join rootPath pathArg) as Htarget.
  { unfold read_file_target. cbn [filepath_IsAbs filepath_Join go_unix].
    by rewrite Hrel. }
  rewrite Htarget in *.
  assert (isAllowedPath fe prefixes (unix_Join rootPath pathArg) = true) as ->; [|done].
  apply (isAllowedPath_abs fe prefixes _ Ht). exists rootPath.
  split; [done|]. split; [done|].
  rewrite (clean_elems_Join rootPath pathArg Hr).
  destruct (foldl_clean_step_no_dotdot (split_slash pathArg)
              (rev (clean_elems rootPath)) Hdd) as [k ->].
  rewrite rev_app_distr, rev_involutive. split.
  - by exists (rev k).
  - intros Hnil. destruct Hroot. by rewrite (unix_Clean_abs rootPath Hr), Hnil.
Qed.

(** ** The frames of [write] are the frames [ReadLoop] reads *)

Lemma digit_of_nat (d : nat) :
  (d < 10)%nat →
  is_digit (ascii_of_nat (48 + d)) = true
  ∧ digit_val (ascii_of_nat (48 + d)) = Z.of_nat d.
Proof.
  intros Hd. do 10 (destruct d as [|d]; [by vm_compute|]). lia.
Qed.

Lemma fmt_d_loop_digits (fuel n : nat) (acc : string) :
  all_bytes is_digit acc = true → all_bytes is_digit (fmt_d_loop fuel n acc) = true.
Proof.
  revert n acc. induction fuel as [|fuel IH]; intros n acc Hacc; [done|].
  cbn [fmt_d_loop].
  assert (all_bytes is_digit (String (ascii_of_nat (48 + n mod 10)) acc) = true) as Hd.
  { rewrite all_bytes_cons, Hacc.
    destruct (digit_of_nat (n mod 10)) as [-> _]; [|done].
    apply Nat.mod_upper_bound. lia. }
  destruct (n <? 10)%nat; [done|]. by apply IH.
Qed.

Lemma fmt_d_loop_nonempty (fuel n : nat) (acc : string) :
  (0 < fuel)%nat → fmt_d_loop fuel n acc ≠ "".
Proof.
  revert n acc. induction fuel as [|fuel IH]; intros n acc Hf; [lia|].
  cbn [fmt_d_loop]. destruct (n <? 10)%nat; [done|].
  destruct fuel as [|fuel]; [done|]. apply IH. lia.
Qed.

Lemma fmt_d_loop_length (fuel k n : nat) (acc : string) :
  (Z.of_nat n < 10 ^ Z.of_nat (S k))%Z →
  (String.length (fmt_d_loop fuel n acc) ≤ String.length acc + S k)%nat.
Proof.
  revert k n acc. induction fuel as [|fuel IH]; intros k n acc Hn; [simpl; lia|].
  cbn [fmt_d_loop]. destruct (Nat.ltb_spec n 10) as [Hlt|Hge]; [simpl; lia|].
  destruct k as [|k]; [simpl in Hn; lia|].
  etrans; [apply (IH k)|simpl; lia].
  rewrite Nat2Z.inj_div. apply Z.div_lt_upper_bound; [lia|].
  rewrite (Nat2Z.inj_succ (S k)), Z.pow_succ_r in Hn by lia. done.
Qed.

(** Reading the digits back gives the number. *)
Lemma Atoi_digits_fmt_d_loop (fuel n : nat) (acc : string) :
  (n < fuel)%nat →
  Atoi_digits (fmt_d_loop fuel n acc) 0 = Atoi_digits acc (Z.of_nat n).
Proof.
  revert n acc. induction fuel as [|fuel IH]; intros n acc Hf; [lia|].
  cbn [fmt_d_loop].
  destruct (digit_of_nat (n mod 10)) as [Hd Hv]; [apply Nat.mod_upper_bound; lia|].
  destruct (Nat.ltb_spec n 10) as [Hlt|Hge].
  - cbn [Atoi_digits]. rewrite Hd, Hv. rewrite Nat.mod_small by done. done.
  - assert (n / 10 < fuel)%nat as Hq.
    { apply Nat.Div0.div_lt_upper_bound. lia. }
    rewrite IH by done. cbn [Atoi_digits]. rewrite Hd, Hv. f_equal.
    rewrite Nat2Z.inj_div. rewrite (Nat2Z.inj_mod n 10).
    pose proof (Z.div_mod (Z.of_nat n) 10). lia.
Qed.

Lemma digits_not_signed (ds : string) (c : ascii) (ds' : string) :
  all_bytes is_digit ds = true → ds = String c ds' →
  Ascii.eqb c "-" || Ascii.eqb c "+" = false ∧ is_space c = false.
Proof.
  intros Hd ->. rewrite all_bytes_cons in Hd. apply andb_true_iff in Hd as [Hc _].
  clear -Hc. destruct c as [[] [] [] [] [] [] [] []]; vm_compute in *; split; congruence.
Qed.

(** [strconv.Atoi] of the decimal form of a length. *)
Lemma Atoi_fmt_d (n : nat) :
  (Z.of_nat n < 10 ^ 18)%Z → strconv_Atoi (fmt_d n) = (Z.of_nat n, None).
Proof.
  intros Hn. unfold strconv_Atoi, fmt_d.
  pose proof (fmt_d_loop_digits (S n) n "" eq_refl) as Hd.
  pose proof (fmt_d_loop_nonempty (S n) n "" ltac:(lia)) as Hne.
  pose proof (fmt_d_loop_length (S n) 17 n "" Hn) as Hlen.
  pose proof (Atoi_digits_fmt_d_loop (S n) n "" ltac:(lia)) as Hval.
  destruct (fmt_d_loop (S n) n "") as [|c ds] eqn:Hs; [done|].
  destruct (digits_not_signed _ c ds Hd eq_refl) as [Hsg _].
  assert ((0 <? String.length (String c ds))%nat
          && (String.length (String c ds) <? 19)%nat = true) as ->.
  { apply andb_true_iff. split; [by apply Nat.ltb_lt; simpl; lia|].
    apply Nat.ltb_lt. simpl in *. lia. }
  rewrite Hsg. cbn [andb]. rewrite Hval. cbn [Atoi_digits].
  assert (Ascii.eqb c "-" = false) as ->; [|done].
  by apply orb_false_iff in Hsg as [-> _].
Qed.

Lemma list_ascii_of_string_app (a b : string) :
  list_ascii_of_string (a ++ b)
  = (list_ascii_of_string a ++ list_ascii_of_string b)%list.
Proof. induction a as [|c a IH]; [done|]. rewrite string_app_cons. simpl. by rewrite IH. Qed.

Lemma read_line_step (acc : string) (c c' : ascii) (r : list ascii) :
  read_line acc (c :: c' :: r)
  = if Ascii.eqb c "010" then Some (acc, c' :: r)
    else if Ascii.eqb c "013" && Ascii.eqb c' "010" then Some (acc, r)
    else read_line (acc ++ String c "") (c' :: r).
Proof. reflexivity. Qed.

(** A line without a carriage return or a line feed, ended by both. *)
Lemma read_line_spec (line acc : string) (rest : list ascii) :
  all_bytes (λ c, negb (Ascii.eqb c "010") && negb (Ascii.eqb c "013")) line = true →
  read_line acc (list_ascii_of_string line ++ "013"%char :: "010"%char :: rest)
  = Some (acc ++ line, rest).
Proof.
  revert acc. induction line as [|c line IH]; intros acc Hl.
  - simpl. by rewrite string_app_nil_r.
  - rewrite all_bytes_cons in Hl. apply andb_true_iff in Hl as [Hc Hl].
    apply andb_true_iff in Hc as [Hlf Hcr]. apply negb_true_iff in Hlf, Hcr.
    specialize (IH (acc ++ String c "") Hl).
    cbn [list_ascii_of_string app].
    assert (∃ c' r', (list_ascii_of_string line
                      ++ "013"%char :: "010"%char :: rest)%list = c' :: r')
      as (c' & r' & Hr).
    { destruct (list_ascii_of_string line); simpl; eauto. }
    rewrite Hr in *. rewrite read_line_step, Hlf, Hcr. cbn [andb].
    rewrite IH. by rewrite string_app_assoc.
Qed.

Lemma digit_plain (c : ascii) :
  is_digit c = true →
  negb (Ascii.eqb c "010") && negb (Ascii.eqb c "013") = true
  ∧ valid_value_byte c = true ∧ is_space c = false.
Proof. destruct c as [[] [] [] [] [] [] [] []]; vm_compute; repeat split; congruence. Qed.

Lemma all_bytes_impl (p q : ascii → bool) (s : string) :
  (∀ c, p c = true → q c = true) → all_bytes p s = true → all_bytes q s = true.
Proof.
  intros Hpq. induction s as [|c s IH]; [done|]. rewrite !all_bytes_cons.
  intros [Hc Hs]%andb_true_iff. by rewrite (Hpq c Hc), IH.
Qed.

Lemma trim_left_digits (ds : string) :
  all_bytes is_digit ds = true → trim_left ds = ds.
Proof.
  destruct ds as [|c ds]; [done|]. rewrite all_bytes_cons.
  intros [Hc _]%andb_true_iff. simpl. by destruct (digit_plain c Hc) as (_ & _ & ->).
Qed.

Lemma string_rev_involutive (s : string) : string_rev (string_rev s) = s.
Proof.
  unfold string_rev. rewrite list_ascii_of_string_of_list_ascii, rev_involutive.
  apply string_of_list_ascii_of_string.
Qed.

(** The header line of a frame is left as it is by the trimming of
    [ReadMIMEHeader]. *)
Lemma trim_header_line (ds : string) :
  all_bytes is_digit ds = true → ds ≠ "" →
  trim ("Content-Length: " ++ ds) = "Content-Length: " ++ ds.
Proof.
  intros Hd Hne. unfold trim.
  change (trim_left ("Content-Length: " ++ ds)) with ("Content-Length: " ++ ds).
  assert (trim_left (string_rev ("Content-Length: " ++ ds))
          = string_rev ("Content-Length: " ++ ds)) as ->.
  { unfold string_rev. rewrite list_ascii_of_string_app, rev_app_distr.
    assert (Forall (λ c, is_digit c = true) (rev (list_ascii_of_string ds))) as Hr.
    { apply Forall_rev, Forall_forall. intros c Hc. apply list_elem_of_In in Hc.
      unfold all_bytes in Hd. by apply (proj1 (forallb_forall _ _) Hd). }
    destruct (rev (list_ascii_of_string ds)) as [|c l] eqn:Hrev.
    { apply (f_equal (@rev ascii)) in Hrev. rewrite rev_involutive in Hrev.
      destruct ds; done. }
    apply Forall_cons in Hr as [Hc _]. cbn [app string_of_list_ascii trim_left].
    by destruct (digit_plain c Hc) as (_ & _ & ->). }
  apply string_rev_involutive.
Qed.

Lemma fmt_d_digits (n : nat) :
  all_bytes is_digit (fmt_d n) = true ∧ fmt_d n ≠ "".
Proof.
  split; [by apply fmt_d_loop_digits|]. apply fmt_d_loop_nonempty. lia.
Qed.

(** The header block [write] formats is read back as one header,
    [Content-Length], with the digits as its value, and the bytes after the
    block are left. *)
Lemma simple_ReadMIMEHeader_header (ds : string) (rest : list ascii) :
  all_bytes is_digit ds = true → ds ≠ "" →
  simple_ReadMIMEHeader
    (list_ascii_of_string
       ("Content-Length: " ++ ds
        ++ String "013" (String "010" (String "013" (String "010" ""))))
     ++ rest)
  = Some ([("Content-Length", ds)], rest).
Proof.
  intros Hd Hne.
  set (line := "Content-Length: " ++ ds).
  assert (list_ascii_of_string
            ("Content-Length: " ++ ds
             ++ String "013" (String "010" (String "013" (String "010" ""))))
          ++ rest
          = list_ascii_of_string line
            ++ "013"%char :: "010"%char :: "013"%char :: "010"%char :: rest)%list
    as ->.
  { subst line. rewrite <- string_app_assoc, list_ascii_of_string_app.
    by rewrite <- app_assoc. }
  assert (all_bytes (λ c, negb (Ascii.eqb c "010") && negb (Ascii.eqb c "013")) line
          = true) as Hplain.
  { subst line. rewrite all_bytes_app. apply andb_true_iff. split; [done|].
    apply (all_bytes_impl is_digit); [|done]. intros c Hc. by apply digit_plain. }
  unfold simple_ReadMIMEHeader.
  destruct (list_ascii_of_string line
            ++ "013"%char :: "010"%char :: "013"%char :: "010"%char :: rest)%list
    as [|c0 r0] eqn:Hr.
  { by destruct (list_ascii_of_string line). }
  assert (is_space c0 = false) as ->.
  { subst line. cbv [append list_ascii_of_string] in Hr. cbn [app] in Hr.
    by injection Hr as <- _. }
  rewrite <- Hr. clear c0 r0 Hr.
  set (r := (list_ascii_of_string line ++ _)%list).
  assert (read_block (S (length r)) r = Some ([line], rest)) as ->.
  { assert (2 ≤ S (length r))%nat as Hf by (subst r; rewrite length_app; simpl; lia).
    destruct (S (length r)) as [|[|fuel]]; [lia|lia|].
    cbn [read_block]. subst r. rewrite (read_line_spec line "" _ Hplain).
    change ("" ++ line) with line.
    assert (String.eqb line "" = false) as -> by (by subst line).
    reflexivity. }
  cbn [join_continued join_continued_aux].
  subst line. rewrite (trim_header_line ds Hd Hne).
  cbn [parse_lines].
  assert (cut_colon "" ("Content-Length: " ++ ds)
          = Some ("Content-Length", " " ++ ds)) as -> by reflexivity.
  assert (forallb valid_value_byte (list_ascii_of_string (" " ++ ds)) = true) as ->.
  { change (list_ascii_of_string (" " ++ ds))
      with (" "%char :: list_ascii_of_string ds).
    cbn [forallb]. apply andb_true_iff. split; [done|].
    apply (all_bytes_impl is_digit valid_value_byte ds); [|done].
    intros c Hc. by apply digit_plain. }
  cbn [negb]. change (canonical_key true "Content-Length") with (Some "Content-Length").
  cbv iota. change (String.eqb "Content-Length" "") with false. cbv iota.
  change (trim_left (" " ++ ds)) with (trim_left ds).
  by rewrite trim_left_digits.
Qed.

(** One frame of [write] at the head of the stream: its body is dispatched
    and the loop goes on after it. *)
Lemma ReadLoop_fuel_frame (fuel : nat) (body rest : list ascii) :
  body ≠ [] →
  (Z.of_nat (length body) ≤ 2 ^ 48)%Z →
  ReadLoop_fuel (S fuel) (write_frame body ++ rest)
  = match ReadLoop_fuel fuel rest with
    | Some (bodies, e) => Some (body :: bodies, e)
    | None => None
    end.
Proof.
  intros Hne Hlen. unfold write_frame, write_header. rewrite <- app_assoc.
  destruct (fmt_d_digits (length body)) as [Hd Hn].
  cbn [ReadLoop_fuel textproto_ReadMIMEHeader go_unix].
  rewrite (simple_ReadMIMEHeader_header _ _ Hd Hn).
  cbn [MIMEHeader_Get]. change (String.eqb "Content-Length" "Content-Length") with true.
  cbv iota. rewrite Atoi_fmt_d by lia. cbn [fst].
  destruct (Z.eqb_spec (Z.of_nat (length body)) 0) as [H0|_].
  { destruct body; [done|simpl in H0; lia]. }
  assert (makeslice_panics (Z.of_nat (length body)) = false) as ->.
  { unfold makeslice_panics, maxAlloc. apply orb_false_iff. split.
    - apply Z.ltb_ge. lia.
    - apply Z.ltb_ge. done. }
  unfold io_ReadFull. rewrite Nat2Z.id, length_app.
  destruct (Nat.leb_spec (length body) (length body + length rest)); [|lia].
  by rewrite take_app_length, drop_app_length.
Qed.

Lemma ReadLoop_fuel_frames (bodies : list (list ascii)) (fuel : nat) :
  Forall (λ body, body ≠ [] ∧ (Z.of_nat (length body) ≤ 2 ^ 48)%Z) bodies →
  (length bodies < fuel)%nat →
  ReadLoop_fuel fuel (concat (map write_frame bodies))
  = Some (bodies, HeaderReadFailed).
Proof.
  revert fuel. induction bodies as [|body bodies IH]; intros fuel Hok Hf.
  - destruct fuel; [simpl in Hf; lia|]. reflexivity.
  - apply Forall_cons in Hok as [[Hne Hlen] Hok].
    destruct fuel as [|fuel]; [simpl in Hf; lia|].
    cbn [map concat]. rewrite ReadLoop_fuel_frame by done.
    rewrite IH; [done|done|simpl in Hf; lia].
Qed.

(** [ReadLoop] reads back what [write] writes: on a stream made of frames
    as [write] formats them, each with a body that is not empty and within
    the allocation limit, the loop dispatches exactly those bodies, in
    order, and ends when the stream does. *)
Theorem ReadLoop_reads_written_frames (bodies : list (list ascii)) :
  Forall (λ body, body ≠ [] ∧ (Z.of_nat (length body) ≤ 2 ^ 48)%Z) bodies →
  ReadLoop (concat (map write_frame bodies)) = Some (bodies, HeaderReadFailed).
Proof.
  intros Hok. unfold ReadLoop. apply ReadLoop_fuel_frames; [done|].
  clear Hok. induction bodies as [|body bodies IH]; [simpl; lia|].
  cbn [map concat]. rewrite length_app. unfold write_frame at 1, write_header.
  rewrite length_app. simpl in *. lia.
Qed.

(** ** The dispatcher: order and repetition of responses *)

Section Dispatch.
Local Open Scope Z_scope.

(** A body dispatched twice has the effect of the body dispatched once: the
    first dispatch removes the entry, so a repeated response is dropped. *)
Theorem handleMessage_idempotent (c : GoplsClient) (body : Body) :
  handleMessage (handleMessage c body) body = handleMessage c body.
Proof.
  destruct body as [resp|]; [|done].
  destruct (resp_ID resp =? 0) eqn:H0.
  { assert (∀ c', handleMessage c' (Some resp) = c') as Hz
      by (intros c'; unfold handleMessage; by rewrite H0).
    by rewrite !Hz. }
  destruct (pending c !! resp_ID resp) as [ch|] eqn:Hp.
  - apply handleMessage_unmatched. unfold handleMessage. rewrite H0, Hp. simpl.
    apply lookup_delete_eq.
  - by rewrite !(handleMessage_unmatched c resp Hp).
Qed.

Lemma handleMessage_pending_subseteq (c : GoplsClient) (body : Body) :
  pending (handleMessage c body) ⊆ pending c.
Proof.
  destruct body as [resp|]; [|done]. unfold handleMessage.
  destruct (resp_ID resp =? 0); [done|].
  destruct (pending c !! resp_ID resp); [|done]. simpl. apply delete_subseteq.
Qed.

Lemma foldl_handleMessage_pending_subseteq (bodies : list Body) (c : GoplsClient) :
  pending (foldl handleMessage c bodies) ⊆ pending c.
Proof.
  revert c. induction bodies as [|b bodies IH]; intros c; [done|]. simpl.
  etrans; [apply IH|apply handleMessage_pending_subseteq].
Qed.

Lemma handleMessage_injective (c : GoplsClient) (body : Body) :
  pending_injective c → pending_injective (handleMessage c body).
Proof.
  intros Hinj id1 id2 ch H1 H2.
  pose proof (handleMessage_pending_subseteq c body) as Hsub.
  apply (Hinj id1 id2 ch); eapply lookup_weaken; eauto.
Qed.

(** Responses to different requests can be dispatched in either order: the
    goroutines [ReadLoop] starts for them leave the same client. *)
Theorem handleMessage_commute (c : GoplsClient) (resp1 resp2 : JsonRpcResp) :
  pending_injective c →
  resp_ID resp1 ≠ resp_ID resp2 →
  handleMessage (handleMessage c (Some resp1)) (Some resp2)
  = handleMessage (handleMessage c (Some resp2)) (Some resp1).
Proof.
  intros Hinj Hne. unfold handleMessage.
  destruct (resp_ID resp1 =? 0) eqn:H1, (resp_ID resp2 =? 0) eqn:H2;
    rewrite ?H1, ?H2; try done.
  destruct (pending c !! resp_ID resp1) as [ch1|] eqn:Hp1,
           (pending c !! resp_ID resp2) as [ch2|] eqn:Hp2;
    simpl; rewrite ?H1, ?H2, ?lookup_delete_ne, ?Hp1, ?Hp2 by done; simpl;
    try done.
  assert (ch1 ≠ ch2) as Hch.
  { intros ->. apply Hne. by apply (Hinj _ _ ch2). }
  unfold set_chans, set_pending. simpl. f_equal.
  - apply delete_delete.
  - by apply insert_insert_ne.
Qed.

(** ** [Call] leaves nothing behind in the registry *)

Lemma handleMessage_waiting_or_delivered (id : Z) (ch : chan) (c : GoplsClient)
    (body : Body) :
  waiting id ch c →
  waiting id ch (handleMessage c body)
  ∨ ∃ res, delivered id ch res (handleMessage c body).
Proof.
  intros Hw. destruct body as [resp|]; [|by left].
  destruct (decide (resp_ID resp = id)) as [Heq|Hne].
  - destruct (Z.eqb_spec (resp_ID resp) 0) as [H0|H0].
    + left. unfold handleMessage. by rewrite (proj2 (Z.eqb_eq _ _) H0).
    + right. exists (resp_Result resp). destruct Hw as (Hp & Hc & Hother).
      unfold handleMessage. rewrite (proj2 (Z.eqb_neq _ _) H0), Heq, Hp.
      split; [simpl; apply lookup_delete_eq|]. split; [simpl; apply lookup_insert_eq|].
      simpl. intros id' ch' Hl. apply lookup_delete_Some in Hl as [Hid Hl].
      by apply (Hother id' ch').
  - left. apply handleMessage_waiting; [|done]. by intros r [= ->].
Qed.

Lemma foldl_handleMessage_waiting_or_delivered (id : Z) (ch : chan)
    (bodies : list Body) (c : GoplsClient) :
  waiting id ch c →
  waiting id ch (foldl handleMessage c bodies)
  ∨ ∃ res, delivered id ch res (foldl handleMessage c bodies).
Proof.
  revert c. induction bodies as [|b bodies IH]; intros c Hw; [by left|]. simpl.
  destruct (handleMessage_waiting_or_delivered id ch c b Hw) as [Hw'|[res Hd]].
  - by apply IH.
  - right. exists res. by apply foldl_handleMessage_delivered.
Qed.

Lemma Call_pending (c : GoplsClient) (method : string) (params : JSON)
    (wr : option error) (arrivals : list Arrival) :
  wf c →
  let r := Call c method params wr arrivals in
  pending (ret_client r) !! nextID c = None
  ∧ pending (ret_client r) ⊆ pending c.
Proof.
  intros Hwf r. subst r. destruct wr as [err|].
  - simpl. split; [apply lookup_delete_eq|].
    rewrite delete_insert_eq. apply delete_subseteq.
  - rewrite Call_written. cbv zeta.
    set (c3 := foldl handleMessage (Call_sent c method params)
                 (before_deadline arrivals)).
    assert (pending c3 ⊆ <[nextID c := next_chan c]> (pending c)) as Hsub.
    { subst c3. etrans; [apply foldl_handleMessage_pending_subseteq|done]. }
    assert (∀ m : gmap Z chan,
              m ⊆ <[nextID c := next_chan c]> (pending c) →
              m !! nextID c = None → m ⊆ pending c) as Hdrop.
    { intros m Hm Hnone. apply map_subseteq_spec. intros k v Hk.
      destruct (decide (k = nextID c)) as [->|Hne]; [congruence|].
      pose proof (lookup_weaken _ _ _ _ Hk Hm) as Hk'.
      by rewrite lookup_insert_ne in Hk'. }
    destruct (chans c3 !! next_chan c) as [res|] eqn:Hch; simpl.
    + destruct (foldl_handleMessage_waiting_or_delivered (nextID c) (next_chan c)
                  (before_deadline arrivals) (Call_sent c method params)
                  (Call_sent_waiting c method params Hwf)) as [Hw|[res' Hd]].
      * destruct Hw as (_ & Hnone & _). fold c3 in Hnone. congruence.
      * destruct Hd as (Hp & _). fold c3 in Hp. split; [done|]. by apply Hdrop.
    + split; [apply lookup_delete_eq|]. apply Hdrop; [|apply lookup_delete_eq].
      etrans; [apply delete_subseteq|done].
Qed.

(** However a call ends (response, timeout or failed write), its entry is
    gone from the registry afterwards and the call has added no other: the
    registry after a call is contained in the registry before it. *)
Theorem Call_leaves_no_entry (c : GoplsClient) (method : string) (params : JSON)
    (wr : option error) (arrivals : list Arrival) :
  wf c →
  let r := Call c method params wr arrivals in
  pending (ret_client r) !! nextID c = None
  ∧ pending (ret_client r) ⊆ pending c
  ∧ wf (ret_client r).
Proof.
  intros Hwf r. destruct (Call_pending c method params wr arrivals Hwf) as [H1 H2].
  split; [done|]. split; [done|]. by apply Call_wf.
Qed.

(** ** The client [InitGopls] leaves in [GoplsInstance] *)

(** When [InitGopls] sets [GoplsInstance], the client it stores is well
    formed, has no request in flight and has used the identifier 1 only, so
    that the first search goes out with the identifier 2; this holds also
    when the [initialized] notification could not be written. *)
Theorem InitGopls_ready_client (env : InitEnv) (rootPath : string)
    (c : GoplsClient) :
  GoplsInstance (InitGopls env rootPath) = Some c →
  wf c ∧ pending c = ∅ ∧ seq c = 1 ∧ nextID c = 2
  ∧ stdin c = init_wire (InitGopls env rootPath).
Proof.
  unfold InitGopls. destruct (env_LookPath env); [done|].
  destruct (env_Start env); [done|]. cbv zeta.
  set (r := Call NewClient "initialize" (initParams (env_Getpid env) rootPath)
              (env_init_write env) (env_init_arrivals env)).
  pose proof (Call_pending NewClient "initialize"
                (initParams (env_Getpid env) rootPath)
                (env_init_write env) (env_init_arrivals env) wf_NewClient) as [_ Hsub].
  pose proof (Call_wf NewClient "initialize" (initParams (env_Getpid env) rootPath)
                (env_init_write env) (env_init_arrivals env) wf_NewClient) as Hwf.
  pose proof (Call_seq NewClient "initialize" (initParams (env_Getpid env) rootPath)
                (env_init_write env) (env_init_arrivals env)) as Hseq.
  fold r in Hsub, Hwf, Hseq. change (nextID NewClient) with 1 in Hseq.
  change (pending NewClient) with (∅ : gmap Z chan) in Hsub.
  assert (pending (ret_client r) = ∅) as Hempty.
  { apply map_empty. intros k. destruct (pending (ret_client r) !! k) eqn:Hk; [|done].
    pose proof (lookup_weaken _ _ _ _ Hk Hsub) as Hk'. by rewrite lookup_empty in Hk'. }
  destruct (ret_err r); [done|].
  pose proof (Notify_wf (ret_client r) "initialized" (JObject [])
                (env_notify_write env) Hwf) as Hwf'.
  destruct (Notify (ret_client r) "initialized" (JObject []) (env_notify_write env))
    as [client' e] eqn:Hn.
  assert (pending client' = pending (ret_client r) ∧ seq client' = seq (ret_client r))
    as [Hp Hs].
  { unfold Notify, write in Hn. destruct (env_notify_write env); by simplify_eq. }
  simpl in Hwf'.
  destruct (ret_res r); [done| |]; intros [= <-]; simpl;
    (split; [done|]); (split; [congruence|]); (split; [congruence|]);
    (split; [unfold nextID; rewrite Hs, Hseq; done|done]).
Qed.

End Dispatch.

(** ** The scores of the symbol adapter *)

Section SymbolScores.
Context `{GoLib}.
Local Open Scope Z_scope.

(** Every record of [SymbolSearch] scores between 5 and 110, a dependency
    at most 85, and carries one reason, the name of the symbol after
    [gopls:]. *)
Theorem SymbolSearch_score_range (query : string) (symbols : list Symbol)
    (fs : FileScore) :
  fs ∈ SymbolSearch_loop query symbols →
  5 ≤ Score fs ≤ 110
  ∧ (IsDep fs = true → Score fs ≤ 85)
  ∧ ∃ s, s ∈ symbols ∧ Reasons fs = ["gopls:" ++ Name s].
Proof.
  rewrite SymbolSearch_loop_output. intros Hin.
  apply list_elem_of_In, in_flat_map in Hin as (s & Hs & Hin).
  apply list_elem_of_In in Hin. apply symbol_output_elem in Hin as (-> & _ & Hpos).
  unfold symbol_record. cbn [Score IsDep Reasons].
  unfold symbol_score, match_bonus, kind_bonus, dependency_penalty,
    dependency_test_penalty in *.
  split; [|split].
  - repeat case_match; simpl in *; try lia; try done.
  - intros Hdep. rewrite Hdep in *. repeat case_match; simpl in *; lia.
  - exists s. split; [by apply list_elem_of_In|done].
Qed.

End SymbolScores.

(** ** The terms of a query *)

Lemma TrimSpace_scan_ascii (l : list ascii) :
  forallb is_ascii_byte l = true →
  (TrimSpace_scan l).2 = false ∧ forallb is_ascii_byte (TrimSpace_scan l).1 = true.
Proof.
  induction l as [|c l IH]; [done|]. intros Hl. pose proof Hl as Hcl.
  cbn [forallb] in Hl. apply andb_true_iff in Hl as [Hc Hl].
  cbn [TrimSpace_scan]. rewrite Hc. cbn [negb]. destruct (asciiSpace c); [by apply IH|].
  done.
Qed.

Lemma forallb_rev {A : Type} (p : A → bool) (l : list A) :
  forallb p (rev l) = forallb p l.
Proof.
  induction l as [|a l IH]; [done|]. simpl. rewrite forallb_app, IH. simpl.
  by rewrite andb_true_r, andb_comm.
Qed.

(** On ASCII input [TrimSpace] never leaves its fast path, and its result
    is ASCII. *)
Lemma TrimSpace_ascii `{GoUnicode} (s : string) :
  all_bytes is_ascii_byte s = true →
  all_bytes is_ascii_byte (strings_TrimSpace s) = true.
Proof.
  intros Hs. unfold strings_TrimSpace.
  destruct (TrimSpace_scan_ascii _ Hs) as [H1 H2].
  destruct (TrimSpace_scan (list_ascii_of_string s)) as [s1 slow1]. simpl in H1, H2.
  subst slow1. rewrite <- forallb_rev in H2.
  destruct (TrimSpace_scan_ascii _ H2) as [H3 H4].
  destruct (TrimSpace_scan (rev s1)) as [s2 slow2]. simpl in H3, H4. subst slow2.
  unfold all_bytes. by rewrite list_ascii_of_string_of_list_ascii, forallb_rev.
Qed.

Lemma ascii_lower_ascii (c : ascii) :
  is_ascii_byte c = true → is_ascii_byte (ascii_lower c) = true.
Proof. destruct c as [[] [] [] [] [] [] [] []]; vm_compute; congruence. Qed.

Lemma ascii_ToLower_ascii (s : string) :
  all_bytes is_ascii_byte s = true → all_bytes is_ascii_byte (ascii_ToLower s) = true.
Proof.
  induction s as [|c s IH]; [done|]. simpl. rewrite !all_bytes_cons.
  intros [Hc Hs]%andb_true_iff. by rewrite ascii_lower_ascii, IH.
Qed.

Lemma Fields_scan_nonempty (s cur : string) :
  Forall (λ t, t ≠ "") (Fields_scan cur s).
Proof.
  revert cur. induction s as [|c s IH]; intros cur; simpl.
  - destruct (String.eqb_spec cur ""); [done|]. by constructor.
  - destruct (asciiSpace c); [|apply IH].
    destruct (String.eqb_spec cur ""); [apply IH|]. constructor; [done|apply IH].
Qed.

Section TermsSpec.
Context `{GoUnicode}.

(** For an ASCII query no term is empty, whichever of [Tokenize] and
    [strings.Fields] gives the terms: an empty term would be contained in
    every path and every name. A blank query has no terms at all. *)
Theorem Search_terms_nonempty (query : string) :
  all_bytes is_ascii_byte query = true →
  (∀ t, t ∈ Search_terms query → t ≠ "")
  ∧ (all_bytes asciiSpace query = true → Search_terms query = []).
Proof.
  intros Hq. unfold Search_terms. cbv zeta. split.
  - destruct (Tokenize query) as [|t0 l] eqn:Htok.
    + change ((Z.of_nat (length (@nil string)) =? 0)%Z) with true. cbv iota.
      unfold strings_Fields, Search_queryLower.
      cbn [strings_ToLower go_unix].
      pose proof (ascii_ToLower_ascii _ (TrimSpace_ascii query Hq)) as Ha.
      unfold all_bytes in Ha. rewrite Ha.
      intros t Ht.
      by apply (proj1 (Forall_forall _ _) (Fields_scan_nonempty _ "") t Ht).
    + assert ((Z.of_nat (length (t0 :: l)) =? 0)%Z = false) as ->
        by (apply Z.eqb_neq; simpl; lia).
      intros t Ht. destruct (Tokenize_spec query) as [Hall _]. rewrite Htok in Hall.
      by destruct (proj1 (Forall_forall _ _) Hall t Ht).
  - intros Hblank.
    assert (Tokenize query = []) as ->.
    { apply Tokenize_nil. clear -Hblank. induction query as [|c s IH]; [done|].
      rewrite all_bytes_cons in *. apply andb_true_iff in Hblank as [Hc Hs].
      by rewrite (asciiSpace_not_alnum c Hc), IH. }
    change ((Z.of_nat (length (@nil string)) =? 0)%Z) with true. cbv iota.
    unfold Search_queryLower. by rewrite (TrimSpace_blank query Hblank).
Qed.

End TermsSpec.

(** ** Where the records of [Search] come from *)

Section Origin.
Context `{GoLib}.

Lemma merged_origin (absRoot query : string) (env : SearchEnv) :
  (∀ e, e ∈ env_local env → e ∈ merged absRoot query env)
  ∧ ∀ r, r ∈ merged absRoot query env →
      r ∈ env_local env
      ∨ ∃ goplsRes gr, gopls_branch query env = Some goplsRes
                       ∧ gr ∈ goplsRes ∧ r = relocate absRoot gr.
Proof.
  unfold merged. destruct (gopls_branch query env) as [goplsRes|]; [|by split; auto].
  destruct (env_schedule env).
  - destruct (merge_gopls_appends absRoot goplsRes ([] ++ env_local env))
      as (added & -> & Hadded). simpl. split.
    + intros e He. apply elem_of_app. by left.
    + intros r [Hr|Hr]%elem_of_app; [by left|]. right.
      destruct (Hadded r Hr) as (gr & Hgr & -> & _). by exists goplsRes, gr.
  - destruct (merge_gopls_appends absRoot goplsRes []) as (added & -> & Hadded).
    simpl. split.
    + intros e He. apply elem_of_app. by right.
    + intros r [Hr|Hr]%elem_of_app; [|by left]. right.
      destruct (Hadded r Hr) as (gr & Hgr & -> & _). by exists goplsRes, gr.
Qed.

(** [Search] invents nothing: every record it returns is a record of the
    local branch as that branch made it, or a record of gopls with at most
    its path and its dependency mark changed by the merge; and the merge
    itself drops no local record, whichever goroutine runs first. *)
Theorem Search_records_origin (absRoot query : string) (env : SearchEnv) :
  sort_Slice byScore (merged absRoot query env) ≡ₚ merged absRoot query env →
  (∀ r, r ∈ (Search absRoot query env).1 →
     r ∈ env_local env
     ∨ ∃ goplsRes gr, gopls_branch query env = Some goplsRes
                      ∧ gr ∈ goplsRes
                      ∧ Score r = Score gr ∧ Reasons r = Reasons gr
                      ∧ r = relocate absRoot gr)
  ∧ (∀ e, e ∈ env_local env → e ∈ merged absRoot query env).
Proof.
  intros Hperm. destruct (merged_origin absRoot query env) as [Hloc Horig].
  split; [|done]. intros r Hr. rewrite Search_unfold in Hr. simpl in Hr.
  apply elem_of_take in Hr as (i & Hr & _). apply list_elem_of_lookup_2 in Hr.
  rewrite Hperm in Hr. destruct (Horig r Hr) as [Hl|(goplsRes & gr & Hb & Hgr & ->)];
    [by left|]. right. exists goplsRes, gr.
  split; [done|]. split; [done|]. unfold relocate.
  by destruct (strings_HasPrefix (Path gr) absRoot).
Qed.

End Origin.

(** ** The exact match of a file name *)

Lemma after_last_slash_free (name : string) :
  slash_free name = true → after_last_slash name = None.
Proof.
  induction name as [|c name IH]; [done|]. rewrite slash_free_cons.
  intros [Hc Hn]%andb_true_iff. apply negb_true_iff in Hc. simpl.
  by rewrite (IH Hn), Hc.
Qed.

Lemma after_last_slash_app (a name : string) :
  slash_free name = true → after_last_slash (a ++ String "/" name) = Some name.
Proof.
  intros Hn. induction a as [|c a IH].
  - change ("" ++ ?s) with s. simpl. by rewrite (after_last_slash_free name Hn).
  - rewrite string_app_cons. simpl. by rewrite IH.
Qed.

Lemma drop_slashes_last (l : list ascii) (c : ascii) :
  Ascii.eqb c "/" = false → drop_slashes (c :: l) = c :: l.
Proof. intros Hc. simpl. by rewrite Hc. Qed.

Lemma string_last_byte (s : string) :
  s ≠ "" → ∃ c l, rev (list_ascii_of_string s) = c :: l ∧ c ∈ list_ascii_of_string s.
Proof.
  intros Hne. destruct (rev (list_ascii_of_string s)) as [|c l] eqn:Hr.
  - apply (f_equal (@rev ascii)) in Hr. rewrite rev_involutive in Hr. by destruct s.
  - exists c, l. split; [done|]. apply list_elem_of_In, in_rev. rewrite Hr. by left.
Qed.

Lemma slash_free_byte (s : string) (c : ascii) :
  slash_free s = true → c ∈ list_ascii_of_string s → Ascii.eqb c "/" = false.
Proof.
  intros Hs Hc. unfold slash_free, all_bytes in Hs.
  apply list_elem_of_In in Hc. apply (proj1 (forallb_forall _ _) Hs) in Hc.
  by apply negb_true_iff in Hc.
Qed.

(** [Base] of a file name behind its directory part is the file name. *)
Lemma unix_Base_name (d name : string) :
  is_dir_part d → name ≠ "" → slash_free name = true →
  unix_Base (d ++ name) = name.
Proof.
  intros Hd Hne Hsf. unfold unix_Base.
  assert (String.eqb (d ++ name) "" = false) as ->.
  { destruct d; [by destruct name|done]. }
  assert (string_of_list_ascii
            (rev (drop_slashes (rev (list_ascii_of_string (d ++ name)))))
          = d ++ name) as ->.
  { rewrite list_ascii_of_string_app, rev_app_distr.
    destruct (string_last_byte name Hne) as (c & l & Hr & Hc).
    rewrite Hr. cbn [app]. rewrite drop_slashes_last by (by apply (slash_free_byte name)).
    rewrite app_comm_cons, <- Hr, <- rev_app_distr, rev_involutive.
    rewrite <- list_ascii_of_string_app. apply string_of_list_ascii_of_string. }
  destruct Hd as [->|[d' ->]].
  - change ("" ++ name) with name. rewrite (after_last_slash_free name Hsf).
    by destruct name.
  - rewrite string_app_assoc. change ("/" ++ name) with (String "/" name).
    rewrite (after_last_slash_app d' name Hsf). by destruct name.
Qed.

Lemma Ext_scan_free (ext : string) :
  slash_free ext = true → dot_free ext = true → Ext_scan ext = None.
Proof.
  induction ext as [|c ext IH]; [done|]. rewrite slash_free_cons.
  unfold dot_free. rewrite all_bytes_cons. fold (dot_free ext).
  intros [Hc Hs]%andb_true_iff [Hd Hdf]%andb_true_iff.
  apply negb_true_iff in Hc, Hd. simpl. by rewrite (IH Hs Hdf), Hc, Hd.
Qed.

(** [Ext] of a name is what follows its last dot, the dot included. *)
Lemma unix_Ext_name (stem ext : string) :
  slash_free ext = true → dot_free ext = true →
  unix_Ext (stem ++ String "." ext) = String "." ext.
Proof.
  intros Hs Hd. unfold unix_Ext.
  assert (Ext_scan (stem ++ String "." ext) = Some (String "." ext)) as ->; [|done].
  induction stem as [|c stem IH].
  - change ("" ++ ?s) with s. simpl. by rewrite (Ext_scan_free ext Hs Hd).
  - rewrite string_app_cons. simpl. by rewrite IH.
Qed.

Lemma string_drop_app (a b : string) : string_drop (String.length a) (a ++ b) = b.
Proof. induction a as [|c a IH]; [done|]. rewrite string_app_cons. simpl. done. Qed.

Lemma string_take_app (a b : string) : string_take (String.length a) (a ++ b) = a.
Proof. induction a as [|c a IH]; [done|]. rewrite string_app_cons. simpl. by rewrite IH. Qed.

Lemma TrimSuffix_app (a b : string) : strings_TrimSuffix (a ++ b) b = a.
Proof.
  unfold strings_TrimSuffix, strings_HasSuffix. rewrite string_app_length.
  replace (String.length a + String.length b - String.length b)%nat
    with (String.length a) by lia.
  rewrite string_drop_app, String.eqb_refl, string_take_app.
  by destruct (Nat.leb_spec (String.length b) (String.length a + String.length b)); [|lia].
Qed.

Lemma ascii_lower_sep (c : ascii) :
  Ascii.eqb (ascii_lower c) "/" = Ascii.eqb c "/"
  ∧ Ascii.eqb (ascii_lower c) "." = Ascii.eqb c ".".
Proof. destruct c as [[] [] [] [] [] [] [] []]; by vm_compute. Qed.

Lemma ascii_ToLower_slash_free (s : string) :
  slash_free (ascii_ToLower s) = slash_free s.
Proof.
  induction s as [|c s IH]; [done|]. simpl. rewrite !slash_free_cons, IH.
  by destruct (ascii_lower_sep c) as [-> _].
Qed.

Lemma ascii_ToLower_dot_free (s : string) :
  dot_free (ascii_ToLower s) = dot_free s.
Proof.
  unfold dot_free. induction s as [|c s IH]; [done|]. simpl.
  rewrite !all_bytes_cons, IH. by destruct (ascii_lower_sep c) as [_ ->].
Qed.

(** The name [ScoreFile] compares with the query: the last element of the
    path without what follows its last dot, in lower case. *)
Lemma name_no_ext_spec (d stem ext : string) :
  is_dir_part d → slash_free stem = true →
  slash_free ext = true → dot_free ext = true →
  name_no_ext (d ++ stem ++ "." ++ ext) = ascii_ToLower stem
  ∧ file_ext (d ++ stem ++ "." ++ ext) = "." ++ ascii_ToLower ext.
Proof.
  intros Hd Hstem Hext Hdot. unfold name_no_ext, file_ext, file_name.
  cbn [strings_ToLower filepath_Base filepath_Ext go_unix path_unix].
  rewrite !ascii_ToLower_app. change (ascii_ToLower ".") with ".".
  set (name := ascii_ToLower stem ++ "." ++ ascii_ToLower ext).
  assert (unix_Base (ascii_ToLower d ++ name) = name) as ->.
  { apply unix_Base_name.
    - destruct Hd as [->|[d' ->]]; [by left|right]. exists (ascii_ToLower d').
      by rewrite ascii_ToLower_app.
    - subst name. by destruct (ascii_ToLower stem).
    - subst name. rewrite !slash_free_app, !ascii_ToLower_slash_free, Hstem, Hext.
      done. }
  subst name. change ("." ++ ascii_ToLower ext) with (String "." (ascii_ToLower ext)).
  rewrite unix_Ext_name
    by (by rewrite ?ascii_ToLower_slash_free, ?ascii_ToLower_dot_free).
  split; [apply TrimSuffix_app|done].
Qed.

Section ExactSpec.
Context `{GoLib} `{GoPath}.

Lemma node_matches_label (terms : list string) (nodes : list Decl) (r : string) :
  r ∈ flat_map (node_matches terms) nodes → r ≠ "exact-file".
Proof.
  intros Hr. apply list_elem_of_In, in_flat_map in Hr as (n & _ & Hr).
  apply in_flat_map in Hr as (t & _ & Hr). destruct (strings_Contains _ t); [|done].
  destruct Hr as [<-|[]]. by destruct n.
Qed.

(** [ScoreFile] gives the reason [exact-file] exactly when the name of
    the file without its extension is the query. *)
Lemma ScoreFile_exact_reason (le : LocalEnv) (root relPath : string)
    (terms : list string) (queryLower : string) :
  "exact-file" ∈ (ScoreFile le root relPath terms queryLower).2
  ↔ name_no_ext relPath = queryLower.
Proof.
  unfold ScoreFile. cbv zeta.
  fold (file_name relPath). fold (file_ext relPath). fold (name_no_ext relPath).
  rewrite AnalyzeGoFile_spec.
  set (ast := match parser_ParseFile le (filepath_Join root relPath) with
              | Some nodes =>
                  let matched := flat_map (node_matches terms) nodes in
                  (wrap64 (40 * Z.of_nat (length matched)), matched)
              | None => (0%Z, [])
              end).
  assert (∀ r, r ∈ ast.2 → r ≠ "exact-file") as Hast.
  { subst ast. destruct (parser_ParseFile le _) as [nodes|]; simpl.
    - intros r. apply node_matches_label.
    - by intros r Hr%elem_of_nil. }
  destruct ast as [astScore astReasons]. simpl in Hast.
  destruct (String.eqb_spec (name_no_ext relPath) queryLower) as [Heq|Hne].
  - split; [done|]. intros _.
    destruct (String.eqb (file_ext relPath) ".go"); [destruct (0 <? astScore)%Z|];
      simpl; by left.
  - split; [|done]. intros Hin. exfalso.
    destruct (String.eqb (file_ext relPath) ".go"); [destruct (0 <? astScore)%Z|];
      simpl in Hin.
    + by apply (Hast _ Hin).
    + by apply elem_of_nil in Hin.
    + by apply elem_of_nil in Hin.
Qed.

End ExactSpec.

(** A file [stem.ext] with an ASCII path, in any directory, is an exact
    match of the query exactly when [stem] in lower case is the query as
    [Search] compares it: the directory, the extension and the case of the
    name do not count. *)
Theorem ScoreFile_exact_file (le : LocalEnv) (root d stem ext : string)
    (terms : list string) (queryLower : string) :
  all_bytes is_ascii_byte (d ++ stem ++ "." ++ ext) = true →
  is_dir_part d → slash_free stem = true →
  slash_free ext = true → dot_free ext = true →
  name_no_ext (d ++ stem ++ "." ++ ext) = ascii_ToLower stem
  ∧ ("exact-file" ∈ (ScoreFile le root (d ++ stem ++ "." ++ ext) terms queryLower).2
     ↔ ascii_ToLower stem = queryLower).
Proof.
  intros _ Hd Hstem Hext Hdot.
  destruct (name_no_ext_spec d stem ext Hd Hstem Hext Hdot) as [Hn _].
  split; [done|]. by rewrite ScoreFile_exact_reason, Hn.
Qed.

(** ** The properties on concrete runs *)

Lemma Tokenize_word_witness :
  length (Tokenize "parseJSONFile") = 2%nat
  ∧ Tokenize "HTTPServer" = ["httpserver"].
Proof.
  split.
  - apply (proj1 (Tokenize_word "parseJSONFile" ltac:(discriminate) eq_refl)).
  - apply (proj2 (Tokenize_word "HTTPServer" ltac:(discriminate) eq_refl)).
    reflexivity.
Defined.

Lemma Tokenize_token_fixed_witness : Tokenize "service" = ["service"].
Proof.
  apply (Tokenize_token_fixed "AuthService" "service").
  apply list_elem_of_In. vm_compute. right. left. reflexivity.
Defined.

Lemma Search_blank_query_witness :
  Search_localRes sample_tree "/w/app" "  "
  = [mkFileScore ".gitignore" 500 ["exact-file"] false].
Proof.
  rewrite (proj1 (Search_blank_query sample_tree "/w/app" "  " eq_refl
                    ltac:(vm_compute; repeat constructor))).
  reflexivity.
Defined.

Lemma Search_outside_git_witness :
  Search "/w/app" "auth"
    (mkSearchEnv (Search_localRes no_git_tree "/w/app" "auth") None None []
       LocalFirst)
  = ([], None).
Proof.
  apply (Search_outside_git no_git_tree "/w/app" "auth" None [] LocalFirst).
  left. simpl. discriminate.
Defined.

Lemma isAllowedPath_elements_witness :
  isAllowedPath sample_files ["/w/app"] "/w/app/cmd/../b.go" = true.
Proof.
  apply (proj2 (isAllowedPath_elements sample_files ["/w/app"]
                  "/w/app/cmd/../b.go" eq_refl)).
  exists "/w/app". split; [apply list_elem_of_In; left; reflexivity|].
  split; [reflexivity|]. split.
  - exists ["b.go"]. reflexivity.
  - vm_compute. discriminate.
Defined.

Lemma isAllowedPath_root_prefix_witness :
  isAllowedPath sample_files ["/"] "/etc/passwd" = true
  ↔ unix_Clean "/etc/passwd" = "/".
Proof. apply (isAllowedPath_root_prefix sample_files "/etc/passwd"). reflexivity. Defined.

Lemma read_file_confined_witness :
  read_file sample_files ["/w/app"] "/w/app" "../app-deps/x.go"
  = accessDenied "../app-deps/x.go".
Proof.
  apply (proj2 (read_file_confined sample_files ["/w/app"] "/w/app"
                  "../app-deps/x.go" eq_refl)).
  intros (p & Hin & _ & [k Hk] & _).
  apply list_elem_of_In in Hin. destruct Hin as [<-|[]].
  vm_compute in Hk. discriminate.
Defined.

Lemma read_file_relative_allowed_witness :
  read_file sample_files (initSecurity sample_files [] "/w/app") "/w/app"
    "cmd/./main.go"
  = NewToolResultText "content of /w/app/cmd/main.go".
Proof.
  rewrite (read_file_relative_allowed sample_files
             (initSecurity sample_files [] "/w/app") "/w/app" "cmd/./main.go").
  - reflexivity.
  - reflexivity.
  - apply list_elem_of_In. vm_compute. left. reflexivity.
  - vm_compute. discriminate.
  - reflexivity.
  - rewrite list_elem_of_In. vm_compute. intuition discriminate.
Defined.

Lemma ReadLoop_reads_written_frames_witness :
  ReadLoop (concat (map write_frame
              [list_ascii_of_string "{}"; list_ascii_of_string "[1,2]"]))
  = Some ([list_ascii_of_string "{}"; list_ascii_of_string "[1,2]"],
          HeaderReadFailed).
Proof.
  apply (ReadLoop_reads_written_frames
           [list_ascii_of_string "{}"; list_ascii_of_string "[1,2]"]).
  repeat constructor; try discriminate; vm_compute; discriminate.
Defined.

Lemma pending_injective_NewClient : pending_injective NewClient.
Proof.
  intros id1 id2 ch H1. change (pending NewClient) with (∅ : gmap Z chan) in H1.
  by rewrite lookup_empty in H1.
Qed.

Lemma Call_sent_injective (c : GoplsClient) (method : string) (params : JSON) :
  wf c → pending_injective c → pending_injective (Call_sent c method params).
Proof.
  intros Hwf Hinj id1 id2 ch. unfold Call_sent. simpl.
  intros [[<- <-]|[Hn1 H1]]%lookup_insert_Some [[<- Hch]|[Hn2 H2]]%lookup_insert_Some.
  - done.
  - apply (wf_pending c Hwf) in H2. lia.
  - apply (wf_pending c Hwf) in H1. lia.
  - by apply (Hinj id1 id2 ch).
Qed.

Lemma handleMessage_commute_witness :
  handleMessage (handleMessage two_in_flight (Some (mkResp 1 RawNil)))
    (Some (mkResp 2 (RawSymbols [])))
  = handleMessage (handleMessage two_in_flight (Some (mkResp 2 (RawSymbols []))))
      (Some (mkResp 1 RawNil)).
Proof.
  apply (handleMessage_commute two_in_flight).
  - apply Call_sent_injective; [apply Call_sent_wf, wf_NewClient|].
    apply Call_sent_injective; [apply wf_NewClient|apply pending_injective_NewClient].
  - simpl. discriminate.
Defined.

Lemma Call_leaves_no_entry_witness :
  let r := Call NewClient "workspace/symbol" (JObject []) None
             [mkArrival 1000%Z (Some (mkResp 1 (RawSymbols [])))] in
  pending (ret_client r) !! nextID NewClient = None
  ∧ pending (ret_client r) ⊆ pending NewClient
  ∧ wf (ret_client r).
Proof.
  intros r. apply (Call_leaves_no_entry NewClient "workspace/symbol" (JObject [])
                     None [mkArrival 1000%Z (Some (mkResp 1 (RawSymbols [])))]).
  apply wf_NewClient.
Defined.

Lemma InitGopls_ready_client_witness :
  let r := InitGopls
             (mkInitEnv None None 4242 None
                [mkArrival 1000%Z (Some (mkResp 1 (RawOther [])))]
                (Some "broken pipe")) "/w/app" in
  ∃ c, GoplsInstance r = Some c ∧ pending c = ∅ ∧ seq c = 1%Z ∧ nextID c = 2%Z.
Proof.
  intros r. destruct (GoplsInstance r) as [c|] eqn:Hc.
  - exists c. split; [done|].
    destruct (InitGopls_ready_client _ _ c Hc) as (_ & Hp & Hs & Hn & _). done.
  - vm_compute in Hc. discriminate.
Defined.

Lemma SymbolSearch_score_range_witness :
  (5 ≤ 110 ≤ 110)%Z
  ∧ (false = true → (110 ≤ 85)%Z)
  ∧ ∃ s, s ∈ [mkSymbol "Unmarshal" 12 "json" "file:///w/app/codec/decode.go"]
         ∧ ["gopls:Unmarshal"] = ["gopls:" ++ Name s].
Proof.
  apply (SymbolSearch_score_range "unmarshal"
           [mkSymbol "Unmarshal" 12 "json" "file:///w/app/codec/decode.go"]
           (mkFileScore "/w/app/codec/decode.go" 110 ["gopls:Unmarshal"] false)).
  apply list_elem_of_In. vm_compute. left. reflexivity.
Defined.

Lemma Search_terms_nonempty_witness :
  (∀ t, t ∈ Search_terms "Auth-Service login" → t ≠ "")
  ∧ (all_bytes asciiSpace "Auth-Service login" = true
     → Search_terms "Auth-Service login" = []).
Proof. apply (Search_terms_nonempty "Auth-Service login"). reflexivity. Defined.

Lemma Search_records_origin_witness :
  (∀ r, r ∈ (Search "/w/app" "run" (both_found RemoteFirst)).1 →
     r ∈ env_local (both_found RemoteFirst)
     ∨ ∃ goplsRes gr, gopls_branch "run" (both_found RemoteFirst) = Some goplsRes
                      ∧ gr ∈ goplsRes
                      ∧ Score r = Score gr ∧ Reasons r = Reasons gr
                      ∧ r = relocate "/w/app" gr)
  ∧ (∀ e, e ∈ env_local (both_found RemoteFirst) →
          e ∈ merged "/w/app" "run" (both_found RemoteFirst)).
Proof.
  apply (Search_records_origin "/w/app" "run" (both_found RemoteFirst)).
  exact (pdq_Slice_Permutation byScore _).
Defined.

Lemma ScoreFile_exact_file_witness :
  name_no_ext "cmd/Main.go" = "main"
  ∧ ("exact-file" ∈ (ScoreFile sample_tree "/w/app" "cmd/Main.go" ["main"] "main").2
     ↔ "main" = "main").
Proof.
  apply (ScoreFile_exact_file sample_tree "/w/app" "cmd/" "Main" "go" ["main"] "main").
  - reflexivity.
  - right. exists "cmd". reflexivity.
  - reflexivity.
  - reflexivity.
  - reflexivity.
Defined.

(** ** The score of a local file *)

Section ScoreSpec.
Context `{GoLib} `{GoPath} `{GoUnicode}.
Local Open Scope Z_scope.

Lemma filter_length_forallb {A : Type} (p : A → bool) (l : list A) :
  (Z.of_nat (length (List.filter p l)) =? Z.of_nat (length l)) = forallb p l.
Proof.
  induction l as [|a l IH]; [done|]. cbn [List.filter forallb].
  pose proof (List.filter_length_le p l) as Hle.
  destruct (p a); cbn [length andb].
  - rewrite <- IH, !Nat2Z.inj_succ.
    destruct (Z.eqb_spec (Z.of_nat (length (List.filter p l)))
                (Z.of_nat (length l))); [apply Z.eqb_eq|apply Z.eqb_neq]; lia.
  - apply Z.eqb_neq. rewrite Nat2Z.inj_succ. lia.
Qed.

(** As long as the declarations give fewer than 2^57 reasons, the score of
    a file is what its matches add up to, plus the weight of its extension
    when that sum is above 0; it is 0, without the weight, when nothing
    matches. The reasons are [exact-file], when the name is the query,
    followed by the reasons of the declarations. *)
Theorem ScoreFile_score (le : LocalEnv) (root relPath : string)
    (terms : list string) (queryLower : string) :
  Z.of_nat (length (ast_reasons le root relPath terms)) < 2 ^ 57 →
  let m := match_score le root relPath terms queryLower in
  (ScoreFile le root relPath terms queryLower).1
  = (if 0 <? m
     then m + default 0 (ExtensionWeights !! file_ext relPath) else 0)
  ∧ (ScoreFile le root relPath terms queryLower).2
    = ((if String.eqb (name_no_ext relPath) queryLower then ["exact-file"] else [])
       ++ ast_reasons le root relPath terms)%list.
Proof.
  intros Hbound m. subst m. unfold match_score, ast_reasons in *.
  unfold ScoreFile. cbv zeta.
  fold (file_name relPath). fold (file_ext relPath). fold (name_no_ext relPath).
  rewrite matches_count.
  set (found := List.filter (strings_Contains (strings_ToLower relPath)) terms).
  assert ((0 <? 0 + Z.of_nat (length found))
          && (0 + Z.of_nat (length found) =? Z.of_nat (length terms))
          = all_terms_in_path terms relPath) as ->.
  { subst found. rewrite !Z.add_0_l, filter_length_forallb.
    unfold all_terms_in_path. destruct terms as [|t terms]; [done|].
    destruct (forallb _ (t :: terms)) eqn:Hall; [|by rewrite andb_false_r].
    rewrite andb_true_r. apply Z.ltb_lt.
    pose proof (filter_length_forallb
                  (strings_Contains (strings_ToLower relPath)) (t :: terms)) as Hf.
    rewrite Hall in Hf. apply Z.eqb_eq in Hf. rewrite Hf. simpl. lia. }
  rewrite AnalyzeGoFile_spec in *.
  set (ast := match parser_ParseFile le (filepath_Join root relPath) with
              | Some nodes =>
                  let matched := flat_map (node_matches terms) nodes in
                  (wrap64 (40 * Z.of_nat (length matched)), matched)
              | None => (0, [])
              end) in *.
  assert (ast.1 = wrap64 (40 * Z.of_nat (length ast.2))) as Hast.
  { subst ast. by destruct (parser_ParseFile le _). }
  destruct ast as [astScore astReasons]. simpl in Hast. subst astScore.
  set (W := ExtensionWeights !! file_ext relPath).
  assert (∀ w, W = Some w → 0 < w ≤ 25) as HW
    by (intros w; apply ExtensionWeights_bound).
  clearbody W.
  assert (∀ x, 0 ≤ x < 2 ^ 63 - 25 →
            (if 0 <? x
             then match W with Some w => wrap64 (x + w) | None => x end
             else x)
            = if 0 <? x then x + default 0 W else 0) as Hweight.
  { intros x Hx. destruct (Z.ltb_spec 0 x); [|lia]. destruct W as [w|]; simpl; [|lia].
    specialize (HW w eq_refl). rewrite wrap64_small; lia. }
  destruct (String.eqb (file_ext relPath) ".go").
  2:{ destruct (String.eqb (name_no_ext relPath) queryLower),
               (all_terms_in_path terms relPath);
        cbn [fst snd length Z.of_nat app];
        change (wrap64 (0 + 500)) with 500; change (wrap64 (500 + 50)) with 550;
        change (wrap64 (0 + 50)) with 50;
        (split; [by rewrite Hweight by lia|by rewrite ?app_nil_r]). }
  cbn [snd] in Hbound.
  destruct astReasons as [|r astReasons].
  - change (wrap64 (40 * Z.of_nat (length (@nil string)))) with 0 in *.
    change (0 <? 0) with false. cbv iota.
    destruct (String.eqb (name_no_ext relPath) queryLower),
             (all_terms_in_path terms relPath);
      cbn [fst snd length Z.of_nat app];
      change (wrap64 (0 + 500)) with 500; change (wrap64 (500 + 50)) with 550;
      change (wrap64 (0 + 50)) with 50;
      (split; [by rewrite Hweight by lia|done]).
  - remember (Z.of_nat (length (r :: astReasons))) as n eqn:Hn_eq.
    assert (0 < n) as Hn by (subst n; simpl; lia).
    rewrite (wrap64_small (40 * n)) by lia.
    destruct (Z.ltb_spec 0 (40 * n)) as [_|]; [|lia].
    destruct (String.eqb (name_no_ext relPath) queryLower),
             (all_terms_in_path terms relPath);
      cbn [fst snd app];
      change (wrap64 (0 + 500)) with 500; change (wrap64 (500 + 50)) with 550;
      change (wrap64 (0 + 50)) with 50;
      rewrite ?(wrap64_small (550 + 40 * n)), ?(wrap64_small (500 + 40 * n)),
        ?(wrap64_small (50 + 40 * n)), ?(wrap64_small (0 + 40 * n)) by lia;
      (split; [|done]); rewrite Hweight by lia;
      change (length (r :: astReasons)) with (S (length astReasons)) in Hn_eq;
      cbn [length]; rewrite <- Hn_eq;
      repeat match goal with
      | |- context [(0 <? ?x)] => destruct (Z.ltb_spec 0 x)
      end; lia.
Qed.

End ScoreSpec.

(** ** [CollectFiles] on the output of git *)

Lemma TrimSpace_scan_plain (c : ascii) (l : list ascii) :
  plain_byte c = true → TrimSpace_scan (c :: l) = (c :: l, false).
Proof.
  unfold plain_byte. intros [Ha Hs]%andb_true_iff. apply negb_true_iff in Hs.
  simpl. by rewrite Ha, Hs.
Qed.

Lemma Split_scan_line (p cur rest : string) :
  one_line p = true →
  Split_scan "010" cur (p ++ String "010" rest)
  = (cur ++ p) :: Split_scan "010" "" rest.
Proof.
  revert cur. induction p as [|c p IH]; intros cur Hp.
  - change ("" ++ ?s) with s. simpl. by rewrite string_app_nil_r.
  - unfold one_line in Hp. rewrite all_bytes_cons in Hp.
    apply andb_true_iff in Hp as [Hc Hp]. apply negb_true_iff in Hc.
    rewrite string_app_cons. simpl. rewrite Hc, (IH _ Hp), string_app_assoc. done.
Qed.

Lemma Split_scan_last (p cur : string) :
  one_line p = true → Split_scan "010" cur p = [cur ++ p].
Proof.
  revert cur. induction p as [|c p IH]; intros cur Hp.
  - simpl. by rewrite string_app_nil_r.
  - unfold one_line in Hp. rewrite all_bytes_cons in Hp.
    apply andb_true_iff in Hp as [Hc Hp]. apply negb_true_iff in Hc.
    simpl. rewrite Hc, (IH _ Hp), string_app_assoc. done.
Qed.

Lemma lines_out_join (paths : list string) (p : string) :
  lines_out (paths ++ [p]) = join_lines paths p ++ String "010" "".
Proof.
  induction paths as [|q paths IH]; [done|]. cbn [app lines_out join_lines].
  by rewrite IH, string_app_assoc.
Qed.

Lemma Split_join_lines (paths : list string) (p : string) :
  Forall (λ q, one_line q = true) (paths ++ [p]) →
  strings_Split_byte (join_lines paths p) "010" = (paths ++ [p])%list.
Proof.
  unfold strings_Split_byte. induction paths as [|q paths IH]; intros Hall.
  - apply Forall_cons in Hall as [Hp _]. by apply (Split_scan_last p "").
  - apply Forall_cons in Hall as [Hq Hall]. cbn [join_lines app].
    rewrite (Split_scan_line q "" _ Hq). by rewrite (IH Hall).
Qed.

Lemma join_lines_head (paths : list string) (p : string) (c : ascii) (s : string) :
  hd p paths = String c s → ∃ t, join_lines paths p = String c t.
Proof.
  destruct paths as [|q paths]; simpl; intros ->; [by exists s|].
  rewrite string_app_cons. eauto.
Qed.

Lemma join_lines_last (paths : list string) (p : string) :
  ∃ pre, join_lines paths p = pre ++ p.
Proof.
  induction paths as [|q paths [pre IH]]; [by exists ""|].
  exists (q ++ String "010" pre). cbn [join_lines]. by rewrite IH, string_app_assoc.
Qed.

Section CollectSpec.
Context `{GoLib} `{GoPath} `{GoUnicode}.

(** In a git work tree [CollectFiles] returns the paths git prints, one
    for every line, when the first path starts and the last path ends with
    an ASCII byte that is no space (what [TrimSpace] removes is then the
    line feed after the last path, and nothing of a path). *)
Theorem CollectFiles_lines (le : LocalEnv) (root : string)
    (paths : list string) (last : string) (c c' : ascii) (s s' : string) :
  os_Stat le (filepath_Join root ".git") = None →
  git_ls_files le root = (lines_out (paths ++ [last]), None) →
  Forall (λ q, one_line q = true) (paths ++ [last]) →
  hd last paths = String c s → plain_byte c = true →
  last = s' ++ String c' "" → plain_byte c' = true →
  CollectFiles le root = ((paths ++ [last])%list, None).
Proof.
  intros Hstat Hgit Hall Hhd Hc Hlast Hc'.
  unfold CollectFiles. rewrite Hstat, Hgit. f_equal.
  rewrite lines_out_join, <- (Split_join_lines paths last Hall). f_equal.
  destruct (join_lines_head paths last c s Hhd) as [t Ht].
  destruct (join_lines_last paths last) as [pre Hpre].
  set (j := join_lines paths last) in *.
  unfold strings_TrimSpace.
  assert (TrimSpace_scan (list_ascii_of_string (j ++ String "010" ""))
          = (list_ascii_of_string (j ++ String "010" ""), false)) as ->.
  { rewrite Ht, string_app_cons. by apply TrimSpace_scan_plain. }
  assert (TrimSpace_scan (rev (list_ascii_of_string (j ++ String "010" "")))
          = (rev (list_ascii_of_string j), false)) as ->.
  { rewrite list_ascii_of_string_app, rev_app_distr.
    change (rev (list_ascii_of_string (String "010" ""))) with ["010"%char].
    cbn [app]. change (TrimSpace_scan ("010"%char :: ?l)) with (TrimSpace_scan l).
    rewrite Hpre, Hlast, <- string_app_assoc, list_ascii_of_string_app, rev_app_distr.
    cbn [list_ascii_of_string rev app]. by apply TrimSpace_scan_plain. }
  rewrite rev_involutive. apply string_of_list_ascii_of_string.
Qed.

End CollectSpec.

(** ** [filepath.Rel] and [filepath.Join]: the path made relative joins
    back *)

Lemma split_slash_aux_elems (cur : string) (l : list string) (e : string) :
  Forall (λ x, slash_free x = true) (e :: l) →
  split_slash_aux cur (join_slash (e :: l)) = (cur ++ e) :: l.
Proof.
  revert cur e. induction l as [|f l IH]; intros cur e Hl.
  - apply Forall_cons in Hl as [He _]. simpl.
    rewrite <- (string_app_nil_r e) at 1. by rewrite split_slash_aux_app.
  - apply Forall_cons in Hl as [He Hl].
    change (join_slash (e :: f :: l)) with (e ++ "/" ++ join_slash (f :: l)).
    rewrite split_slash_aux_app by done.
    change ("/" ++ join_slash (f :: l)) with (String "/" (join_slash (f :: l))).
    by rewrite split_slash_aux_sep, (IH "" f Hl).
Qed.

Lemma is_name_slash_free (l : list string) :
  Forall is_name l → Forall (λ x, slash_free x = true) l.
Proof. intros Hl. eapply Forall_impl; [exact Hl|]. by intros x (_ & _ & _ & Hx). Qed.

(** The elements of a cleaned rooted path that are not empty are its
    elements. *)
Lemma nonempty_elems_rooted (l : list string) :
  Forall is_name l → nonempty_elems ("/" ++ join_slash l) = l.
Proof.
  intros Hl. unfold nonempty_elems, split_slash.
  change ("/" ++ ?s) with (String "/" s). rewrite split_slash_aux_sep.
  rewrite filter_cons_False by (intros Hne; by apply Hne).
  destruct l as [|e l]; [done|].
  rewrite (split_slash_aux_elems "" l e (is_name_slash_free _ Hl)).
  change ("" ++ e) with e. clear -Hl. revert Hl. generalize (e :: l). clear.
  intros k Hk. induction Hk as [|x k [Hx _] _ IH]; [done|].
  by rewrite filter_cons_True, IH.
Qed.

Lemma strip_common_spec (b t : list string) :
  ∃ c, b = (c ++ (strip_common b t).1)%list ∧ t = (c ++ (strip_common b t).2)%list.
Proof.
  revert t. induction b as [|x b IH]; intros t; [by exists []|].
  destruct t as [|y t]; [by exists []|]. simpl.
  destruct (String.eqb_spec x y) as [->|Hne]; [|by exists []].
  destruct (IH t) as (c & Hb & Ht). exists (y :: c). simpl. by rewrite <- Hb, <- Ht.
Qed.

(** As many [..] as there are names take all of them away. *)
Lemma foldl_clean_step_dotdot (k : nat) (out : list string) :
  Forall is_name out → (k ≤ length out)%nat →
  foldl (clean_step true) out (replicate k "..") = drop k out.
Proof.
  revert out. induction k as [|k IH]; intros out Hout Hk; [done|].
  destruct out as [|top out]; [simpl in Hk; lia|].
  apply Forall_cons in Hout as [(_ & _ & Htop & _) Hout]. cbn [replicate foldl].
  assert (clean_step true (top :: out) ".." = out) as ->.
  { unfold clean_step. simpl. by destruct (String.eqb_spec top ".."). }
  apply IH; [done|simpl in Hk; lia].
Qed.

Lemma join_slash_relative (l : list string) :
  Forall (λ x, x ≠ "" ∧ slash_free x = true) l → unix_IsAbs (join_slash l) = false.
Proof.
  destruct l as [|e l]; [done|]. intros [[Hne He] _]%Forall_cons.
  destruct e as [|c e]; [done|]. rewrite slash_free_cons in He.
  apply andb_true_iff in He as [Hc _]. apply negb_true_iff in Hc.
  unfold unix_IsAbs. destruct l; simpl; by rewrite Hc.
Qed.

Lemma unix_Join_elems (root arg : string) :
  unix_IsAbs root = true →
  unix_Join root arg
  = "/" ++ join_slash
             (rev (foldl (clean_step true) (rev (clean_elems root)) (split_slash arg))).
Proof.
  intros Hr. rewrite <- (clean_elems_Join root arg Hr).
  destruct (unix_Join_abs root arg Hr) as [Hj _]. rewrite Hj at 1.
  assert (unix_IsAbs (root ++ "/" ++ arg) = true) as Hx by (by apply unix_IsAbs_app).
  rewrite (unix_Clean_abs _ Hx), Hj. by destruct (clean_elems_Clean _ Hx) as [_ ->].
Qed.

(** [Rel] of a cleaned rooted target against a rooted base: [.] for the
    base itself, else one [..] for every element of the base after the
    common elements, then the elements of the target after them. *)
Lemma unix_Rel_elems (root p : string) :
  unix_IsAbs root = true → unix_IsAbs p = true → unix_Clean p = p →
  (p = unix_Clean root ∧ (unix_Rel root p).1 = ".")
  ∨ ∃ C b t, clean_elems root = (C ++ b)%list ∧ clean_elems p = (C ++ t)%list
             ∧ (replicate (length b) ".." ++ t)%list ≠ []
             ∧ (unix_Rel root p).1 = join_slash (replicate (length b) ".." ++ t).
Proof.
  intros Hr Hp Hclean.
  pose proof (clean_elems_names root Hr) as HB.
  pose proof (clean_elems_names p Hp) as HT.
  pose proof (unix_Clean_abs p Hp) as HpT. rewrite Hclean in HpT.
  unfold unix_Rel. rewrite Hclean.
  destruct (String.eqb_spec p (unix_Clean root)) as [Heq|Hne]; [by left|]. right.
  rewrite (unix_Clean_abs root Hr) in *.
  set (B := clean_elems root) in *. set (T := clean_elems p) in *.
  change (String.eqb ("/" ++ join_slash B) ".") with false. cbv iota.
  change (unix_IsAbs ("/" ++ join_slash B)) with true. rewrite Hp. cbn [Bool.eqb negb].
  rewrite (nonempty_elems_rooted B HB).
  assert (nonempty_elems p = T) as ->.
  { rewrite HpT at 1. by apply nonempty_elems_rooted. }
  destruct (strip_common_spec B T) as (C & HBc & HTc).
  destruct (strip_common B T) as [b t]. cbn [fst snd] in HBc, HTc.
  exists C, b, t. split; [done|]. split; [done|].
  assert (Forall is_name b) as Hb.
  { rewrite HBc in HB. by apply Forall_app in HB as [_ ?]. }
  split.
  - intros Hnil. apply app_eq_nil in Hnil as [Hb0 Ht0].
    destruct b; [|done]. subst t. apply Hne. by rewrite HpT, HTc, HBc.
  - destruct b as [|e b]; [done|]. apply Forall_cons in Hb as [(_ & _ & He & _) _].
    by destruct (String.eqb_spec e "..").
Qed.

(** [Join(base, Rel(base, targ))] is [targ], for a rooted base and a
    cleaned rooted target. *)
Lemma unix_Join_Rel (root p : string) :
  unix_IsAbs root = true → unix_IsAbs p = true → unix_Clean p = p →
  let rel := (unix_Rel root p).1 in
  unix_IsAbs rel = false ∧ unix_Join root rel = p.
Proof.
  intros Hr Hp Hclean rel. subst rel.
  pose proof (clean_elems_names root Hr) as HB.
  pose proof (clean_elems_names p Hp) as HT.
  pose proof (unix_Clean_abs p Hp) as HpT. rewrite Hclean in HpT.
  destruct (unix_Rel_elems root p Hr Hp Hclean)
    as [[Heq ->]|(C & b & t & HBc & HTc & HRne & ->)].
  { split; [done|]. rewrite (unix_Join_elems root "." Hr).
    change (split_slash ".") with ["."]. cbn [foldl].
    change (clean_step true (rev (clean_elems root)) ".") with (rev (clean_elems root)).
    by rewrite rev_involutive, Heq, (unix_Clean_abs root Hr). }
  assert (Forall is_name C ∧ Forall is_name b ∧ Forall is_name t) as (HC & Hb & Ht).
  { rewrite HBc in HB. rewrite HTc in HT.
    apply Forall_app in HB as [? ?]. apply Forall_app in HT as [? ?]. done. }
  set (R := (replicate (length b) ".." ++ t)%list) in *.
  assert (Forall (λ x, x ≠ "" ∧ slash_free x = true) R) as HR.
  { subst R. apply Forall_app. split.
    - apply Forall_replicate. done.
    - eapply Forall_impl; [exact Ht|]. by intros x (? & _ & _ & ?). }
  split; [by apply join_slash_relative|].
  rewrite (unix_Join_elems root (join_slash R) Hr). rewrite HpT. f_equal. f_equal.
  assert (split_slash (join_slash R) = R) as ->.
  { destruct R as [|e R']; [done|]. unfold split_slash.
    rewrite split_slash_aux_elems; [done|].
    eapply Forall_impl; [exact HR|]. by intros x [_ ?]. }
  subst R. rewrite foldl_app, HBc, rev_app_distr.
  rewrite foldl_clean_step_dotdot.
  2:{ apply Forall_app. split; by apply Forall_rev. }
  2:{ rewrite length_app, !length_rev. lia. }
  rewrite drop_app_length' by (by rewrite length_rev).
  rewrite foldl_clean_step_of_names by done.
  rewrite rev_app_distr, !rev_involutive. by rewrite HTc.
Qed.

(** ** The merge keeps one record for a file *)

Lemma isDup_true (absRoot : string) (results : list FileScore) (gr : FileScore) :
  isDup absRoot results gr = true
  ↔ ∃ e, e ∈ results ∧ abs_path absRoot e = Path gr.
Proof.
  unfold isDup. rewrite existsb_exists. split.
  - intros (e & He & Heq). exists e. split; [by apply list_elem_of_In|].
    by apply String.eqb_eq in Heq.
  - intros (e & He & Heq). exists e. split; [by apply list_elem_of_In|].
    by apply String.eqb_eq.
Qed.

(** A record of gopls as the merge appends it is found again by the test
    for duplicates under the path gopls gave. *)
Lemma abs_path_relocate (absRoot : string) (gr : FileScore) :
  unix_IsAbs absRoot = true →
  unix_IsAbs (Path gr) = true → unix_Clean (Path gr) = Path gr →
  abs_path absRoot (relocate absRoot gr) = Path gr.
Proof.
  intros Hr Hp Hclean. unfold relocate, abs_path.
  cbn [filepath_IsAbs filepath_Join filepath_Rel go_unix].
  destruct (strings_HasPrefix (Path gr) absRoot).
  - cbn [Path]. destruct (unix_Join_Rel absRoot (Path gr) Hr Hp Hclean) as [-> ->].
    done.
  - by rewrite Hp.
Qed.

(** Of two records of gopls for the same file only the first is merged:
    the second is taken for a duplicate, also when the first was made
    relative to the root, so the merged collection is what it would be
    without the second. Of several symbols of one file the first that gopls
    lists decides the record, not the best. *)
Theorem merge_gopls_first_per_file (absRoot : string)
    (results l1 l2 l3 : list FileScore) (gr1 gr2 : FileScore) :
  unix_IsAbs absRoot = true →
  unix_IsAbs (Path gr1) = true → unix_Clean (Path gr1) = Path gr1 →
  Path gr2 = Path gr1 →
  merge_gopls absRoot results (l1 ++ gr1 :: l2 ++ gr2 :: l3)
  = merge_gopls absRoot results (l1 ++ gr1 :: l2 ++ l3).
Proof.
  intros Hr Hp Hclean Hsame. unfold merge_gopls.
  rewrite !foldl_app. cbn [foldl]. rewrite !foldl_app. cbn [foldl].
  set (R0 := foldl (merge_body absRoot) results l1).
  set (R1 := merge_body absRoot R0 gr1).
  assert (∃ e, e ∈ R1 ∧ abs_path absRoot e = Path gr1) as (e & He & Heq).
  { subst R1. rewrite merge_body_spec. destruct (isDup absRoot R0 gr1) eqn:Hdup.
    - by apply isDup_true.
    - exists (relocate absRoot gr1). split; [apply elem_of_app; right; by left|].
      by apply abs_path_relocate. }
  destruct (merge_gopls_appends absRoot l2 R1) as (added & Hm & _).
  unfold merge_gopls in Hm. rewrite Hm.
  assert (merge_body absRoot (R1 ++ added) gr2 = (R1 ++ added)%list) as ->; [|done].
  rewrite merge_body_spec.
  assert (isDup absRoot (R1 ++ added) gr2 = true) as ->; [|done].
  apply isDup_true. exists e. split; [apply elem_of_app; by left|]. congruence.
Qed.

Lemma merge_gopls_first_per_file_witness :
  merge_gopls "/w/app" []
    [mkFileScore "/w/app/cmd/run.go" 60 ["gopls:Runner"] false;
     mkFileScore "/w/app/cmd/run.go" 110 ["gopls:Run"] false]
  = [mkFileScore "cmd/run.go" 60 ["gopls:Runner"] false].
Proof.
  etrans.
  - exact (merge_gopls_first_per_file "/w/app" [] [] [] []
             (mkFileScore "/w/app/cmd/run.go" 60 ["gopls:Runner"] false)
             (mkFileScore "/w/app/cmd/run.go" 110 ["gopls:Run"] false)
             eq_refl eq_refl eq_refl eq_refl).
  - reflexivity.
Defined.

Lemma ScoreFile_score_witness :
  (ScoreFile sample_tree "/w/app" "auth/service.go" ["auth"; "service"]
     "authservice").1 = 195%Z
  ∧ (ScoreFile sample_tree "/w/app" "auth/service.go" ["auth"; "service"]
       "authservice").2
    = ["type:AuthService"; "type:AuthService"; "func:authHelper"].
Proof.
  destruct (ScoreFile_score sample_tree "/w/app" "auth/service.go"
              ["auth"; "service"] "authservice") as [Hs Hr].
  - vm_compute. reflexivity.
  - rewrite Hs, Hr. split; reflexivity.
Defined.

Lemma CollectFiles_lines_witness :
  CollectFiles sample_tree "/w/app"
  = (["cmd/main.go"; "auth/service.go"; "README.md"; ".gitignore"], None).
Proof.
  apply (CollectFiles_lines sample_tree "/w/app"
           ["cmd/main.go"; "auth/service.go"; "README.md"] ".gitignore"
           "c" "e" "md/main.go" ".gitignor").
  - reflexivity.
  - reflexivity.
  - repeat constructor.
  - reflexivity.
  - reflexivity.
  - reflexivity.
  - reflexivity.
Defined.
